(** * bb_cs: coordinate system tree of the hexapod brain

    A shallow embedding of [src/bb_brain/src/bb_cs.py]: the classes
    [Position] and [CoordinateSystem], the module-level route resolver with
    its cache [route_base], and [calc_transformation_matrix].

    Python objects live in a store and are referred to by address, so that
    the identity test [is] and the in-place updates of the source keep their
    meaning.  Numbers and numpy arrays come from libraries outside the
    repository (math, numpy, tf.transformations); the program is embedded
    over an interface [Lib] of those operations, and an instance over the
    real numbers is given further down. *)

From stdpp Require Import base option list gmap strings pretty.
From Stdlib Require Import Ascii Reals Lra.

#[local] Open Scope string_scope.
#[local] Open Scope list_scope.

(** ** The numeric libraries the module calls *)

Class Lib := {
  num : Type;                      (* Python numbers *)
  matrix : Type;                   (* 4x4 numpy arrays *)
  num_0 : num;                     (* the literal 0 *)
  num_1 : num;                     (* the literal 1 *)
  num_add : num → num → num;       (* a + b *)
  radians : num → num;             (* math.radians *)
  (* transformations.euler_matrix(ai, aj, ak, 'rzxy') *)
  euler_matrix_rzxy : num → num → num → matrix;
  (* transformations.translation_matrix((x, y, z)) *)
  translation_matrix : num * num * num → matrix;
  (* numpy.dot of two 4x4 arrays *)
  numpy_dot : matrix → matrix → matrix;
  (* numpy.dot of a 4x4 array and the 4x1 array [[a],[b],[c],[d]] *)
  numpy_dot_col : matrix → num * num * num * num → num * num * num * num;
  (* numpy.linalg.inv; None stands for LinAlgError *)
  numpy_linalg_inv : matrix → option matrix;
  (* "{:7.4f}".format *)
  format_7_4f : num → string
}.

(** Exceptions the module can end in. *)
Inductive exn :=
| TypeError                 (* raised by the interpreter or by numpy *)
| LinAlgError               (* raised by numpy.linalg.inv *)
| Exception (msg : string). (* raise Exception(msg) in to_this *)

(** Result of running a piece of code: a value, an exception, or [Stuck]
    when the store is not one the constructors can leave behind (a dangling
    address, a parent chain that never reaches a root, a frame whose
    matrix attribute is still the None of the first lines of __init__). *)
Inductive outcome (A : Type) :=
| Ret (a : A)
| Raise (e : exn)
| Stuck.
Arguments Ret {A} a.
Arguments Raise {A} e.
Arguments Stuck {A}.

(** Direction tags of a route step: the strings "up", "down" and "root". *)
Inductive direction := up | down | root.

#[global] Instance direction_eq_dec : EqDecision direction.
Proof. solve_decision. Defined.

#[global] Instance exn_eq_dec : EqDecision exn.
Proof. solve_decision. Defined.

Section Model.
Context {L : Lib}.

(** ** Data *)

(** class Position: [owner] is the address of the owning frame. *)
Record Position := mkPosition {
  owner : nat;
  pos_x : num;     (* self.x *)
  pos_y : num;     (* self.y *)
  pos_z : num      (* self.z *)
}.

(** class CoordinateSystem: [parent] is None or the address of a frame. *)
Record CoordinateSystem := mkCoordinateSystem {
  parent : option nat;
  name : string;
  _x : num;
  _y : num;
  _z : num;
  _rotx : num;
  _roty : num;
  _rotz : num;
  _mat_from_parent : option matrix;
  _mat_to_parent : option matrix;
  _x_stored : num;
  _y_stored : num;
  _z_stored : num;
  _rotx_stored : num;
  _roty_stored : num;
  _rotz_stored : num
}.

(** A route: the list of (frame, direction) pairs built by [route]. *)
Definition route_t : Type := list (nat * direction).

(** The store: every frame and position allocated so far, and the
    module-level dict [route_base]. *)
Record state := mkState {
  frames : list CoordinateSystem;
  positions : list Position;
  route_base : gmap string route_t
}.

Definition empty_state : state := mkState [] [] ∅.

(** The six pose scalars of a frame, and its backup slot. *)
Definition pose (c : CoordinateSystem) : num * num * num * num * num * num :=
  (_x c, _y c, _z c, _rotx c, _roty c, _rotz c).

Definition stored (c : CoordinateSystem) : num * num * num * num * num * num :=
  (_x_stored c, _y_stored c, _z_stored c,
   _rotx_stored c, _roty_stored c, _rotz_stored c).

(** Attribute assignments. *)
Definition set_x (v : num) (c : CoordinateSystem) : CoordinateSystem :=
  mkCoordinateSystem (parent c) (name c) v (_y c) (_z c) (_rotx c) (_roty c)
    (_rotz c) (_mat_from_parent c) (_mat_to_parent c) (_x_stored c)
    (_y_stored c) (_z_stored c) (_rotx_stored c) (_roty_stored c)
    (_rotz_stored c).
Definition set_y (v : num) (c : CoordinateSystem) : CoordinateSystem :=
  mkCoordinateSystem (parent c) (name c) (_x c) v (_z c) (_rotx c) (_roty c)
    (_rotz c) (_mat_from_parent c) (_mat_to_parent c) (_x_stored c)
    (_y_stored c) (_z_stored c) (_rotx_stored c) (_roty_stored c)
    (_rotz_stored c).
Definition set_z (v : num) (c : CoordinateSystem) : CoordinateSystem :=
  mkCoordinateSystem (parent c) (name c) (_x c) (_y c) v (_rotx c) (_roty c)
    (_rotz c) (_mat_from_parent c) (_mat_to_parent c) (_x_stored c)
    (_y_stored c) (_z_stored c) (_rotx_stored c) (_roty_stored c)
    (_rotz_stored c).
Definition set_rotx (v : num) (c : CoordinateSystem) : CoordinateSystem :=
  mkCoordinateSystem (parent c) (name c) (_x c) (_y c) (_z c) v (_roty c)
    (_rotz c) (_mat_from_parent c) (_mat_to_parent c) (_x_stored c)
    (_y_stored c) (_z_stored c) (_rotx_stored c) (_roty_stored c)
    (_rotz_stored c).
Definition set_roty (v : num) (c : CoordinateSystem) : CoordinateSystem :=
  mkCoordinateSystem (parent c) (name c) (_x c) (_y c) (_z c) (_rotx c) v
    (_rotz c) (_mat_from_parent c) (_mat_to_parent c) (_x_stored c)
    (_y_stored c) (_z_stored c) (_rotx_stored c) (_roty_stored c)
    (_rotz_stored c).
Definition set_rotz (v : num) (c : CoordinateSystem) : CoordinateSystem :=
  mkCoordinateSystem (parent c) (name c) (_x c) (_y c) (_z c) (_rotx c)
    (_roty c) v (_mat_from_parent c) (_mat_to_parent c) (_x_stored c)
    (_y_stored c) (_z_stored c) (_rotx_stored c) (_roty_stored c)
    (_rotz_stored c).
Definition set_mat_from_parent (m : option matrix) (c : CoordinateSystem)
  : CoordinateSystem :=
  mkCoordinateSystem (parent c) (name c) (_x c) (_y c) (_z c) (_rotx c)
    (_roty c) (_rotz c) m (_mat_to_parent c) (_x_stored c)
    (_y_stored c) (_z_stored c) (_rotx_stored c) (_roty_stored c)
    (_rotz_stored c).
Definition set_mat_to_parent (m : option matrix) (c : CoordinateSystem)
  : CoordinateSystem :=
  mkCoordinateSystem (parent c) (name c) (_x c) (_y c) (_z c) (_rotx c)
    (_roty c) (_rotz c) (_mat_from_parent c) m (_x_stored c)
    (_y_stored c) (_z_stored c) (_rotx_stored c) (_roty_stored c)
    (_rotz_stored c).

(** ** calc_transformation_matrix *)

Definition calc_transformation_matrix (x y z rotx roty rotz : num) : matrix :=
  let r_mat := euler_matrix_rzxy (radians rotz) (radians rotx) (radians roty) in
  let t_mat := translation_matrix (x, y, z) in
  numpy_dot t_mat r_mat.

(** ** CoordinateSystem.redefine, on the object itself *)

Definition redefine_cs (new_x new_y new_z new_rotx new_roty new_rotz : option num)
    (self : CoordinateSystem) : CoordinateSystem :=
  let '(x, self) :=
    match new_x with
    | None => (_x self, self)
    | Some v => (v, set_x v self)
    end in
  let '(y, self) :=
    match new_y with
    | None => (_y self, self)
    | Some v => (v, set_y v self)
    end in
  let '(z, self) :=
    match new_z with
    | None => (_z self, self)
    | Some v => (v, set_z v self)
    end in
  let '(rotx, self) :=
    match new_rotx with
    | None => (_rotx self, self)
    | Some v => (v, set_rotx v self)
    end in
  let '(roty, self) :=
    match new_roty with
    | None => (_roty self, self)
    | Some v => (v, set_roty v self)
    end in
  let '(rotz, self) :=
    match new_rotz with
    | None => (_rotz self, self)
    | Some v => (v, set_rotz v self)
    end in
  set_mat_from_parent None
    (set_mat_to_parent (Some (calc_transformation_matrix x y z rotx roty rotz))
       self).

(** CoordinateSystem.__init__: the object once the constructor returns. *)
Definition init_cs (parent_cs : option nat) (nm : string)
    (x y z rotx roty rotz : num) : CoordinateSystem :=
  redefine_cs (Some x) (Some y) (Some z) (Some rotx) (Some roty) (Some rotz)
    (mkCoordinateSystem parent_cs nm x y z rotx roty rotz None None
       x y z rotx roty rotz).

(** CoordinateSystem.update_mat_from_parent, on the object: numpy.linalg.inv
    raises LinAlgError on a singular matrix. *)
Definition update_mat_from_parent_cs (self : CoordinateSystem)
  : outcome CoordinateSystem :=
  match _mat_to_parent self with
  | None => Stuck
  | Some m =>
      match numpy_linalg_inv m with
      | None => Raise LinAlgError
      | Some mi => Ret (set_mat_from_parent (Some mi) self)
      end
  end.

(** CoordinateSystem.backup and rollback, on the object. *)
Definition backup_cs (self : CoordinateSystem) : CoordinateSystem :=
  mkCoordinateSystem (parent self) (name self) (_x self) (_y self) (_z self)
    (_rotx self) (_roty self) (_rotz self) (_mat_from_parent self)
    (_mat_to_parent self)
    (_x self) (_y self) (_z self) (_rotx self) (_roty self) (_rotz self).

Definition rollback_cs (self : CoordinateSystem) : CoordinateSystem :=
  redefine_cs (Some (_x_stored self)) (Some (_y_stored self))
    (Some (_z_stored self)) (Some (_rotx_stored self))
    (Some (_roty_stored self)) (Some (_rotz_stored self)) self.

(** ** The store monad: state passing with exceptions *)

Definition M (A : Type) : Type := state → outcome A * state.

Definition ret {A} (a : A) : M A := λ s, (Ret a, s).

Definition bind {A B} (m : M A) (k : A → M B) : M B :=
  λ s, match m s with
       | (Ret a, s') => k a s'
       | (Raise e, s') => (Raise e, s')
       | (Stuck, s') => (Stuck, s')
       end.

Definition raise {A} (e : exn) : M A := λ s, (Raise e, s).

Definition lift {A} (o : outcome A) : M A := λ s, (o, s).

Notation "x <- c1 ;; c2" := (bind c1 (λ x, c2))
  (at level 100, c1 at next level, right associativity).
Notation "c1 ;; c2" := (bind c1 (λ _, c2))
  (at level 100, right associativity).

Definition get_frame (a : nat) : M CoordinateSystem :=
  λ s, match frames s !! a with
       | Some c => (Ret c, s)
       | None => (Stuck, s)
       end.

Definition put_frame (a : nat) (c : CoordinateSystem) : M unit :=
  λ s, (Ret tt, mkState (<[a:=c]> (frames s)) (positions s) (route_base s)).

Definition alloc_frame (c : CoordinateSystem) : M nat :=
  λ s, (Ret (length (frames s)),
        mkState (frames s ++ [c]) (positions s) (route_base s)).

Definition get_position (p : nat) : M Position :=
  λ s, match positions s !! p with
       | Some c => (Ret c, s)
       | None => (Stuck, s)
       end.

Definition put_position (p : nat) (c : Position) : M unit :=
  λ s, (Ret tt, mkState (frames s) (<[p:=c]> (positions s)) (route_base s)).

Definition alloc_position (c : Position) : M nat :=
  λ s, (Ret (length (positions s)),
        mkState (frames s) (positions s ++ [c]) (route_base s)).

(** ** Methods of CoordinateSystem, on the store *)

(** CoordinateSystem(parent_cs, name, x, y, z, rotx, roty, rotz) *)
Definition CoordinateSystem_new (parent_cs : option nat) (nm : string)
    (x y z rotx roty rotz : num) : M nat :=
  match parent_cs with
  | None => ret tt
  | Some p => _ <- get_frame p ;; ret tt
  end ;;
  alloc_frame (init_cs parent_cs nm x y z rotx roty rotz).

(** Position(owner_cs, x, y, z) *)
Definition Position_new (owner_cs : nat) (x y z : num) : M nat :=
  _ <- get_frame owner_cs ;;
  alloc_position (mkPosition owner_cs x y z).

Definition redefine (self : nat)
    (new_x new_y new_z new_rotx new_roty new_rotz : option num) : M unit :=
  c <- get_frame self ;;
  put_frame self (redefine_cs new_x new_y new_z new_rotx new_roty new_rotz c).

Definition update_mat_from_parent (self : nat) : M unit :=
  c <- get_frame self ;;
  c' <- lift (update_mat_from_parent_cs c) ;;
  put_frame self c'.

(** [a + b] where [b] may be None: adding None to a number is a TypeError. *)
Definition py_add (a : num) (b : option num) : outcome num :=
  match b with
  | Some v => Ret (num_add a v)
  | None => Raise TypeError
  end.

(** The six values get_derivative hands to the constructor.  The tests of
    the three rotations are the source's: all three look at [d_z]. *)
Definition get_derivative_pose (self : CoordinateSystem)
    (d_x d_y d_z d_rotx d_roty d_rotz : option num)
  : outcome (num * num * num * num * num * num) :=
  let x := match d_x with
           | None => _x self
           | Some d => num_add (_x self) d
           end in
  let y := match d_y with
           | None => _y self
           | Some d => num_add (_y self) d
           end in
  let z := match d_z with
           | None => _z self
           | Some d => num_add (_z self) d
           end in
  match match d_z with
        | None => Ret (_rotx self)
        | Some _ => py_add (_rotx self) d_rotx
        end with
  | Ret rotx =>
      match match d_z with
            | None => Ret (_roty self)
            | Some _ => py_add (_roty self) d_roty
            end with
      | Ret roty =>
          match match d_z with
                | None => Ret (_rotz self)
                | Some _ => py_add (_rotz self) d_rotz
                end with
          | Ret rotz => Ret (x, y, z, rotx, roty, rotz)
          | Raise e => Raise e
          | Stuck => Stuck
          end
      | Raise e => Raise e
      | Stuck => Stuck
      end
  | Raise e => Raise e
  | Stuck => Stuck
  end.

Definition get_derivative (self : nat) (nm : string)
    (d_x d_y d_z d_rotx d_roty d_rotz : option num) : M nat :=
  c <- get_frame self ;;
  p <- lift (get_derivative_pose c d_x d_y d_z d_rotx d_roty d_rotz) ;;
  let '(x, y, z, rotx, roty, rotz) := p in
  CoordinateSystem_new (parent c) nm x y z rotx roty rotz.

Definition backup (self : nat) : M unit :=
  c <- get_frame self ;;
  put_frame self (backup_cs c).

Definition rollback (self : nat) : M unit :=
  c <- get_frame self ;;
  put_frame self (rollback_cs c).

(** CoordinateSystem.to_root: the frame, its parent, ... up to the root.
    The while loop of the source is run with the number of allocated frames
    as fuel; None says the chain left the store or did not end. *)
Fixpoint to_root_from (fuel : nat) (fs : list CoordinateSystem) (current : nat)
  : option (list nat) :=
  match fuel with
  | 0 => None
  | S fuel' =>
      match fs !! current with
      | None => None
      | Some c =>
          match parent c with
          | None => Some [current]
          | Some p => (current ::.) <$> to_root_from fuel' fs p
          end
      end
  end.

Definition to_root_list (fs : list CoordinateSystem) (self : nat)
  : option (list nat) :=
  to_root_from (length fs) fs self.

Definition to_root (self : nat) : M (list nat) :=
  λ s, match to_root_list (frames s) self with
       | Some l => (Ret l, s)
       | None => (Stuck, s)
       end.

(** ** Route resolver *)

(** [node in l] together with [l.index(node)]. *)
Fixpoint list_index (node : nat) (l : list nat) : option nat :=
  match l with
  | [] => None
  | n :: l' => if decide (n = node) then Some 0 else S <$> list_index node l'
  end.

Fixpoint closest_common_node_list (cs1_to_root cs2_to_root : list nat)
  : option nat :=
  match cs1_to_root with
  | [] => None
  | node :: rest =>
      match list_index node cs2_to_root with
      | Some _ => Some node
      | None => closest_common_node_list rest cs2_to_root
      end
  end.

Definition closest_common_node (cs1 cs2 : nat) : M (option nat) :=
  cs1_to_root <- to_root cs1 ;;
  cs2_to_root <- to_root cs2 ;;
  ret (closest_common_node_list cs1_to_root cs2_to_root).

(** The for loop of [route] over cs1_to_root; [built_route] is the list
    built so far.  None: the loop ended without meeting cs2_to_root. *)
Fixpoint build_route (cs1_to_root cs2_to_root : list nat)
    (built_route : route_t) : option route_t :=
  match cs1_to_root with
  | [] => None
  | node :: rest =>
      match list_index node cs2_to_root with
      | Some intersection_index =>
          Some (built_route ++ [(node, root)] ++
                (if decide (0 < intersection_index)
                 then (λ n, (n, down)) <$>
                        reverse (take intersection_index cs2_to_root)
                 else []))
      | None => build_route rest cs2_to_root (built_route ++ [(node, up)])
      end
  end.

Definition route_desc_of (from_name to_name : string) : string :=
  from_name +:+ "-" +:+ to_name.

(** Whether a name contains the separator of the cache key. *)
Fixpoint has_dash (t : string) : bool :=
  match t with
  | EmptyString => false
  | String ch t' => if Ascii.eqb ch "-"%char then true else has_dash t'
  end.

Definition route (from_cs to_cs : nat) : M (option route_t) :=
  f <- get_frame from_cs ;;
  t <- get_frame to_cs ;;
  let route_desc := route_desc_of (name f) (name t) in
  λ s,
    match route_base s !! route_desc with
    | Some r => (Ret (Some r), s)
    | None =>
        (cs1_to_root <- to_root from_cs ;;
         cs2_to_root <- to_root to_cs ;;
         match build_route cs1_to_root cs2_to_root [] with
         | Some built_route =>
             λ s', (Ret (Some built_route),
                    mkState (frames s') (positions s')
                      (<[route_desc:=built_route]> (route_base s')))
         | None => ret None
         end) s
    end.

(** ** str() of the two classes *)

(** [__str__] of CoordinateSystem is declared with @property: looked up on
    an instance it is the name itself, not a method. *)
Definition CoordinateSystem__str__ (self : CoordinateSystem) : string :=
  name self.

(** Calling a str object: 'str' object is not callable. *)
Definition call_str (f : string) : outcome string := Raise TypeError.

(** str(cs) looks [__str__] up on the instance and calls what it finds. *)
Definition str_CoordinateSystem (self : CoordinateSystem) : outcome string :=
  call_str (CoordinateSystem__str__ self).

(** Position.__str__ *)
Definition Position__str__ (self : Position) : M string :=
  o <- get_frame (owner self) ;;
  s <- lift (str_CoordinateSystem o) ;;
  ret (s +:+ " " +:+ format_7_4f (pos_x self) +:+ "|" +:+
       format_7_4f (pos_y self) +:+ "|" +:+ format_7_4f (pos_z self)).

(** ** CoordinateSystem.to_this *)

(** numpy.dot on matrix attributes of frames. *)
Definition dot_col_opt (m : option matrix) (arr : num * num * num * num)
  : outcome (num * num * num * num) :=
  match m with
  | Some a => Ret (numpy_dot_col a arr)
  | None => Stuck
  end.

Definition dot_opt (a b : option matrix) : outcome (option matrix) :=
  match a, b with
  | Some a', Some b' => Ret (Some (numpy_dot a' b'))
  | _, _ => Stuck
  end.

(** reduce(numpy.dot, l): a TypeError on the empty list. *)
Definition reduce_dot (l : list (option matrix)) : outcome (option matrix) :=
  match l with
  | [] => Raise TypeError
  | m :: rest =>
      foldl (λ acc x, match acc with
                      | Ret a => dot_opt a x
                      | other => other
                      end) (Ret m) rest
  end.

(** position_in_this once arr[0][0], arr[1][0] and arr[2][0] are assigned
    to its x, y and z. *)
Definition filled (self : nat) (arr : num * num * num * num) : Position :=
  let '(a, b, c, _) := arr in mkPosition self a b c.

(** fill_position: the three assignments to position_in_this. *)
Definition fill_position (position_in_this self : nat)
    (arr : num * num * num * num) : M unit :=
  put_position position_in_this (filled self arr).

(** The loop over conversion_route collecting the matrices. *)
Fixpoint gather_matrices (conversion_route : route_t)
    (transformation_matrices : list (option matrix))
  : M (list (option matrix)) :=
  match conversion_route with
  | [] => ret transformation_matrices
  | (node, up) :: rest =>
      c <- get_frame node ;;
      gather_matrices rest (transformation_matrices ++ [_mat_to_parent c])
  | (node, down) :: rest =>
      c <- get_frame node ;;
      match _mat_from_parent c with
      | None => update_mat_from_parent node
      | Some _ => ret tt
      end ;;
      c' <- get_frame node ;;
      gather_matrices rest (transformation_matrices ++ [_mat_from_parent c'])
  | (node, root) :: rest =>
      gather_matrices rest transformation_matrices
  end.

Definition to_this (self : nat) (position : nat) : M nat :=
  pos <- get_position position ;;
  me <- get_frame self ;;
  if decide (owner pos = self) then ret position else
  position_in_this <- alloc_position (mkPosition self num_0 num_0 num_0) ;;
  let pos_array := (pos_x pos, pos_y pos, pos_z pos, num_1) in
  own <- get_frame (owner pos) ;;
  if decide (parent own = Some self) then
    new_pos_array <- lift (dot_col_opt (_mat_to_parent own) pos_array) ;;
    fill_position position_in_this self new_pos_array ;;
    ret position_in_this
  else if decide (parent me = Some (owner pos)) then
    match _mat_from_parent me with
    | None => update_mat_from_parent self
    | Some _ => ret tt
    end ;;
    me' <- get_frame self ;;
    new_pos_array <- lift (dot_col_opt (_mat_from_parent me') pos_array) ;;
    fill_position position_in_this self new_pos_array ;;
    ret position_in_this
  else
    conversion_route <- route (owner pos) self ;;
    match conversion_route with
    | None =>
        sp <- Position__str__ pos ;;
        ss <- lift (str_CoordinateSystem me) ;;
        raise (Exception ("Could not convert " +:+ sp +:+ " to " +:+ ss +:+
                          ": conversion route could not be found."))
    | Some r =>
        transformation_matrices <- gather_matrices r [] ;;
        aggregate_transformation <-
          lift (reduce_dot (reverse transformation_matrices)) ;;
        new_pos_array <-
          lift (dot_col_opt aggregate_transformation pos_array) ;;
        fill_position position_in_this self new_pos_array ;;
        ret position_in_this
    end.

(** ** Sequences of calls *)

(** One call of the public interface; frames and positions are named by
    their addresses, which are the allocation order. *)
Inductive op :=
| NewCoordinateSystem (parent_cs : option nat) (nm : string)
    (x y z rotx roty rotz : num)
| NewPosition (owner_cs : nat) (x y z : num)
| Redefine (self : nat) (new_x new_y new_z new_rotx new_roty new_rotz : option num)
| UpdateMatFromParent (self : nat)
| GetDerivative (self : nat) (nm : string)
    (d_x d_y d_z d_rotx d_roty d_rotz : option num)
| Backup (self : nat)
| Rollback (self : nat)
| ToThis (self : nat) (position : nat)
| Route (from_cs to_cs : nat).

(** The store after a call, whatever it returned or raised. *)
Definition exec (o : op) (s : state) : state :=
  match o with
  | NewCoordinateSystem p nm x y z rotx roty rotz =>
      (CoordinateSystem_new p nm x y z rotx roty rotz s).2
  | NewPosition o x y z => (Position_new o x y z s).2
  | Redefine a nx ny nz nrx nry nrz => (redefine a nx ny nz nrx nry nrz s).2
  | UpdateMatFromParent a => (update_mat_from_parent a s).2
  | GetDerivative a nm dx dy dz drx dry drz =>
      (get_derivative a nm dx dy dz drx dry drz s).2
  | Backup a => (backup a s).2
  | Rollback a => (rollback a s).2
  | ToThis a p => (to_this a p s).2
  | Route a b => (route a b s).2
  end.

Definition run (ops : list op) (s : state) : state :=
  foldl (λ s o, exec o s) s ops.

(** ** What a call can do to the frames

    Every method changes the list of frames only by the assignments of
    redefine, backup and update_mat_from_parent on one object, or by
    allocating a constructed one. *)

Inductive mutation :=
| Mredefine (new_x new_y new_z new_rotx new_roty new_rotz : option num)
| Mbackup
| Mupdate_mat_from_parent.

Definition mutate (mu : mutation) (c : CoordinateSystem)
  : outcome CoordinateSystem :=
  match mu with
  | Mredefine nx ny nz nrx nry nrz => Ret (redefine_cs nx ny nz nrx nry nrz c)
  | Mbackup => Ret (backup_cs c)
  | Mupdate_mat_from_parent => update_mat_from_parent_cs c
  end.

(** [may_backup a] says whether the step may overwrite the backup slot of
    the frame at address [a]. *)
Inductive step (may_backup : nat → Prop)
  : list CoordinateSystem → list CoordinateSystem → Prop :=
| step_mutate fs a mu c c' :
    fs !! a = Some c →
    mutate mu c = Ret c' →
    (mu = Mbackup → may_backup a) →
    step may_backup fs (<[a:=c']> fs)
| step_alloc fs p nm x y z rotx roty rotz :
    (∀ q, p = Some q → q < length fs) →
    step may_backup fs (fs ++ [init_cs p nm x y z rotx roty rotz]).

(** Reflexive transitive closure of [step]. *)
Inductive steps (may_backup : nat → Prop)
  : list CoordinateSystem → list CoordinateSystem → Prop :=
| steps_refl fs : steps may_backup fs fs
| steps_cons fs1 fs2 fs3 :
    step may_backup fs1 fs2 →
    steps may_backup fs2 fs3 →
    steps may_backup fs1 fs3.

(** Which backup slots a call may overwrite: only backup() itself does. *)
Definition op_may_backup (o : op) (a : nat) : Prop := o = Backup a.

(** ** Invariants of a frame and of the tree *)

Definition calc_of_pose (c : CoordinateSystem) : matrix :=
  calc_transformation_matrix (_x c) (_y c) (_z c) (_rotx c) (_roty c) (_rotz c).

(** mat_to_parent belongs to the current pose, and mat_from_parent is None
    or what numpy.linalg.inv gives on the current mat_to_parent. *)
Definition frame_ok (c : CoordinateSystem) : Prop :=
  _mat_to_parent c = Some (calc_of_pose c) ∧
  (_mat_from_parent c = None ∨
   ∃ mi, numpy_linalg_inv (calc_of_pose c) = Some mi ∧
         _mat_from_parent c = Some mi).

(** Every parent was allocated before its child. *)
Definition frames_wf (fs : list CoordinateSystem) : Prop :=
  ∀ a c p, fs !! a = Some c → parent c = Some p → p < a.

(** The path a search of the two ancestor chains gives, cache aside. *)
Definition fresh_route (fs : list CoordinateSystem) (from_cs to_cs : nat)
  : option route_t :=
  match to_root_list fs from_cs, to_root_list fs to_cs with
  | Some cs1_to_root, Some cs2_to_root =>
      build_route cs1_to_root cs2_to_root []
  | _, _ => None
  end.

(** ** Scenarios *)

(** One tree: "c" is the root, "m" and "a" are its children, "a-b" and
    "b-c" are children of "m"; then route("a-b", "c") is called once. *)
Definition shared_key_calls : list op :=
  [NewCoordinateSystem None "c" num_0 num_0 num_0 num_0 num_0 num_0;
   NewCoordinateSystem (Some 0) "m" num_1 num_0 num_0 num_0 num_0 num_0;
   NewCoordinateSystem (Some 1) "a-b" num_0 num_1 num_0 num_0 num_0 num_0;
   NewCoordinateSystem (Some 0) "a" num_0 num_0 num_1 num_0 num_0 num_0;
   NewCoordinateSystem (Some 1) "b-c" num_1 num_1 num_0 num_0 num_0 num_0;
   Route 2 0].

(** Two separate roots "world" and "body", and the origin of "body". *)
Definition two_roots_calls : list op :=
  [NewCoordinateSystem None "world" num_0 num_0 num_0 num_0 num_0 num_0;
   NewCoordinateSystem None "body" num_0 num_0 num_0 num_0 num_0 num_0;
   NewPosition 1 num_0 num_0 num_0].

(** ** Ancestor chains *)

(** [is_chain fs l]: [l] follows parent links in [fs], every link goes to a
    frame allocated earlier, and the last frame of [l] has no parent. *)
Fixpoint is_chain (fs : list CoordinateSystem) (l : list nat) : Prop :=
  match l with
  | [] => False
  | a :: l' =>
      match l' with
      | [] => ∃ c, fs !! a = Some c ∧ parent c = None
      | b :: _ => (∃ c, fs !! a = Some c ∧ parent c = Some b) ∧ b < a ∧
                  is_chain fs l'
      end
  end.

(** The steps of a route that go up, and those that go down. *)
Definition ups (l : list nat) : route_t := (λ n, (n, up)) <$> l.
Definition downs (l : list nat) : route_t := (λ n, (n, down)) <$> l.

(** [same_but_inverse c c']: [c'] is [c] except perhaps for its cached
    mat_from_parent. *)
Definition same_but_inverse (c c' : CoordinateSystem) : Prop :=
  c' = set_mat_from_parent (_mat_from_parent c') c.

(** ** The matrices of a route *)

(** The matrix each step of a route contributes, read off the poses: the
    matrix of the pose for "up", numpy.linalg.inv of it for "down", none
    for "root".  None: a frame is missing or an inverse does not exist. *)
Fixpoint route_matrices (fs : list CoordinateSystem) (r : route_t)
  : option (list matrix) :=
  match r with
  | [] => Some []
  | (n, up) :: r' =>
      match fs !! n with
      | Some c => (calc_of_pose c ::.) <$> route_matrices fs r'
      | None => None
      end
  | (n, down) :: r' =>
      match fs !! n with
      | Some c =>
          match numpy_linalg_inv (calc_of_pose c) with
          | Some mi => (mi ::.) <$> route_matrices fs r'
          | None => None
          end
      | None => None
      end
  | (n, root) :: r' => route_matrices fs r'
  end.

(** reduce(numpy.dot, ms[::-1]) on a list that holds a matrix: the product
    of the matrices, the last one leftmost. *)
Definition compose_matrices (ms : list matrix) : option matrix :=
  match reverse ms with
  | [] => None
  | m :: rest => Some (foldl numpy_dot m rest)
  end.

(** The frames once to_this has walked a route: every "down" frame holds
    the inverse of the matrix of its pose as mat_from_parent. *)
Fixpoint cache_inverses (fs : list CoordinateSystem) (r : route_t)
  : list CoordinateSystem :=
  match r with
  | [] => fs
  | (n, down) :: r' =>
      match fs !! n with
      | Some c =>
          match numpy_linalg_inv (calc_of_pose c) with
          | Some mi =>
              cache_inverses (<[n:=set_mat_from_parent (Some mi) c]> fs) r'
          | None => fs
          end
      | None => fs
      end
  | _ :: r' => cache_inverses fs r'
  end.

(** ** Methods of Position, and the accessors of CoordinateSystem *)

(** Position.clone *)
Definition Position_clone (self : nat) : M nat :=
  pos <- get_position self ;;
  alloc_position (mkPosition (owner pos) (pos_x pos) (pos_y pos) (pos_z pos)).

(** Position.tuple, read *)
Definition Position_tuple (self : nat) : M (num * num * num) :=
  pos <- get_position self ;;
  ret (pos_x pos, pos_y pos, pos_z pos).

(** Position.tuple, assigned *)
Definition Position_set_tuple (self : nat) (t : num * num * num) : M unit :=
  pos <- get_position self ;;
  let '(x, y, z) := t in
  put_position self (mkPosition (owner pos) x y z).

(** CoordinateSystem.origin *)
Definition origin (self : nat) : M nat :=
  _ <- get_frame self ;;
  alloc_position (mkPosition self num_0 num_0 num_0).

(** CoordinateSystem.translation *)
Definition translation (self : nat) : M (num * num * num) :=
  c <- get_frame self ;;
  ret (_x c, _y c, _z c).

(** CoordinateSystem.rotation_zxy_rad *)
Definition rotation_zxy_rad (self : nat) : M (num * num * num) :=
  c <- get_frame self ;;
  ret (radians (_rotz c), radians (_rotx c), radians (_roty c)).

(** CoordinateSystem.redefine_tuple *)
Definition redefine_tuple (self : nat)
    (xyz : option num * option num * option num)
    (rot : option num * option num * option num) : M unit :=
  let '(x, y, z) := xyz in
  let '(rotx, roty, rotz) := rot in
  redefine self x y z rotx roty rotz.

(** ** What a computation leaves alone *)

(** [unchanged f m]: [m] leaves the component [f] of the store as it is. *)
Definition unchanged {A X} (f : state → X) (m : M A) : Prop :=
  ∀ s, f (m s).2 = f s.

(** [cache_grows m]: every entry of route_base is still there, with the
    same path, after [m]. *)
Definition cache_grows {A} (m : M A) : Prop :=
  ∀ s, route_base s ⊆ route_base (m s).2.

(** [tail_ok l a m Q]: run from a store whose positions are [l] followed by
    one position owned by [a], [m] leaves [l] followed by one position
    owned by [a], and a returned value satisfies [Q]. *)
Definition tail_ok {A} (l : list Position) (a : nat) (m : M A) (Q : A → Prop)
  : Prop :=
  ∀ s q0, positions s = l ++ [q0] → owner q0 = a →
    ∃ q', positions (m s).2 = l ++ [q'] ∧ owner q' = a ∧
          ∀ r, (m s).1 = Ret r → Q r.

(** [inverses_only m]: [m] changes nothing in a frame but its cached
    mat_from_parent, and allocates no frame. *)
Definition inverses_only {A} (m : M A) : Prop :=
  ∀ s, Forall2 same_but_inverse (frames s) (frames (m s).2).

End Model.

Notation "x <- c1 ;; c2" := (bind c1 (λ x, c2))
  (at level 100, c1 at next level, right associativity).
Notation "c1 ;; c2" := (bind c1 (λ _, c2))
  (at level 100, right associativity).

(** ** The libraries over the real numbers

    Python floats are idealised as real numbers: math.radians, the two
    functions of tf.transformations the module calls, numpy.dot and
    numpy.linalg.inv, with arrays as lists of rows. *)

Module RealModel.

#[local] Open Scope R_scope.

Definition rmatrix : Type := list (list R).

#[global] Instance R_eq_dec : EqDecision R := Req_dec_T.

(** numpy.identity(n) *)
Definition identity (n : nat) : rmatrix :=
  (λ i, (λ j, if Nat.eqb i j then 1 else 0) <$> seq 0 n) <$> seq 0 n.

(** M[i, j] and the assignment M[i, j] = v *)
Definition mget (M : rmatrix) (i j : nat) : R :=
  default 0 (M !! i ≫= (.!! j)).

Definition mset (i j : nat) (v : R) (M : rmatrix) : rmatrix :=
  alter (<[j:=v]>) i M.

(** numpy.dot of two 2-d arrays: rows of the first against columns of the
    second. *)
Definition column (j : nat) (B : rmatrix) : list R :=
  (λ r, default 0 (r !! j)) <$> B.

Definition inner (u v : list R) : R :=
  foldr Rplus 0 (zip_with Rmult u v).

Definition dot (A B : rmatrix) : rmatrix :=
  (λ r, (λ j, inner r (column j B)) <$> seq 0 (length (default [] (head B))))
    <$> A.

Definition dot_col (M : rmatrix) (arr : R * R * R * R) : R * R * R * R :=
  let '(a, b, c, d) := arr in
  let r := dot M [[a]; [b]; [c]; [d]] in
  (mget r 0 0, mget r 1 0, mget r 2 0, mget r 3 0).

(** math.radians *)
Definition radians (x : R) : R := x * (PI / 180).

(** transformations._AXES2TUPLE: (firstaxis, parity, repetition, frame) *)
Definition _AXES2TUPLE : list (string * (nat * nat * nat * nat)) :=
  [("sxyz", (0, 0, 0, 0)); ("sxyx", (0, 0, 1, 0)); ("sxzy", (0, 1, 0, 0));
   ("sxzx", (0, 1, 1, 0)); ("syzx", (1, 0, 0, 0)); ("syzy", (1, 0, 1, 0));
   ("syxz", (1, 1, 0, 0)); ("syxy", (1, 1, 1, 0)); ("szxy", (2, 0, 0, 0));
   ("szxz", (2, 0, 1, 0)); ("szyx", (2, 1, 0, 0)); ("szyz", (2, 1, 1, 0));
   ("rzyx", (0, 0, 0, 1)); ("rxyx", (0, 0, 1, 1)); ("ryzx", (0, 1, 0, 1));
   ("rxzx", (0, 1, 1, 1)); ("rxzy", (1, 0, 0, 1)); ("ryzy", (1, 0, 1, 1));
   ("rzxy", (1, 1, 0, 1)); ("ryxy", (1, 1, 1, 1)); ("ryxz", (2, 0, 0, 1));
   ("rzxz", (2, 0, 1, 1)); ("rxyz", (2, 1, 0, 1)); ("rzyz", (2, 1, 1, 1))]%nat.

Definition _NEXT_AXIS : list nat := [1; 2; 0; 1]%nat.

Fixpoint axes_lookup (axes : string)
    (table : list (string * (nat * nat * nat * nat)))
  : option (nat * nat * nat * nat) :=
  match table with
  | [] => None
  | (key, t) :: table' =>
      if String.eqb key axes then Some t else axes_lookup axes table'
  end.

(** transformations.euler_matrix(ai, aj, ak, axes); None stands for the
    KeyError on an axes string that is not in the table. *)
Definition euler_matrix (ai aj ak : R) (axes : string) : option rmatrix :=
  match axes_lookup axes _AXES2TUPLE with
  | None => None
  | Some (firstaxis, parity, repetition, frame) =>
      let i := firstaxis in
      let j := default 0%nat (_NEXT_AXIS !! (i + parity)%nat) in
      (* i - parity + 1, written so that it stays a natural number *)
      let k := default 0%nat (_NEXT_AXIS !! (i + 1 - parity)%nat) in
      let '(ai, ak) := if Nat.eqb frame 0 then (ai, ak) else (ak, ai) in
      let '(ai, aj, ak) :=
        if Nat.eqb parity 0 then (ai, aj, ak) else (- ai, - aj, - ak) in
      let '(si, sj, sk) := (sin ai, sin aj, sin ak) in
      let '(ci, cj, ck) := (cos ai, cos aj, cos ak) in
      let '(cc, cs) := (ci * ck, ci * sk) in
      let '(sc, ss) := (si * ck, si * sk) in
      let M := identity 4 in
      Some
        (if Nat.eqb repetition 0 then
           mset k k (cj * ci) (mset k j (cj * si) (mset k i (- sj)
           (mset j k (sj * cs - sc) (mset j j (sj * ss + cc) (mset j i (cj * sk)
           (mset i k (sj * cc + ss) (mset i j (sj * sc - cs) (mset i i (cj * ck)
           M))))))))
         else
           mset k k (cj * cc - ss) (mset k j (cj * sc + cs) (mset k i (- sj * ck)
           (mset j k (- cj * cs - sc) (mset j j (- cj * ss + cc)
           (mset j i (sj * sk)
           (mset i k (sj * ci) (mset i j (sj * si) (mset i i cj M)))))))))
  end.

(** transformations.translation_matrix(direction) *)
Definition translation_matrix (direction : R * R * R) : rmatrix :=
  let '(x, y, z) := direction in
  mset 2 3 z (mset 1 3 y (mset 0 3 x (identity 4))).

(** numpy.linalg.inv in exact arithmetic: the adjugate over the
    determinant, and LinAlgError (None) on a singular matrix. *)
Definition drop_nth {A} (j : nat) (l : list A) : list A :=
  take j l ++ drop (S j) l.

Definition minor (i j : nat) (M : rmatrix) : rmatrix :=
  drop_nth j <$> drop_nth i M.

Definition sign (n : nat) : R := if Nat.even n then 1 else - 1.

Fixpoint det (n : nat) (M : rmatrix) : R :=
  match n with
  | O => 1
  | S n' =>
      foldr Rplus 0
        ((λ j, sign j * mget M 0 j * det n' (minor 0 j M)) <$> seq 0 n)
  end.

Definition inv (M : rmatrix) : option rmatrix :=
  let d := det 4 M in
  if decide (d = 0) then None
  else Some ((λ i, (λ j, sign (i + j) * det 3 (minor j i M) / d) <$> seq 0 4)
               <$> seq 0 4).

(** "{:7.4f}".format on a real: four decimals, rounded, at least seven
    characters wide. *)
Fixpoint pad_left (fill : string) (width : nat) (t : string) : string :=
  match width with
  | O => t
  | S w => if decide (String.length t ≤ w)%nat
           then pad_left fill w (fill +:+ t) else t
  end.

Definition format_7_4f (r : R) : string :=
  let scaled := Int_part (Rabs r * 10000 + / 2) in
  let body := pretty (scaled / 10000)%Z +:+ "." +:+
              pad_left "0" 4 (pretty (scaled mod 10000)%Z) in
  pad_left " " 7 (if Rlt_dec r 0 then "-" +:+ body else body).

#[global] Instance RealLib : Lib :=
  Build_Lib
    R                 (* num *)
    rmatrix           (* matrix *)
    0 1 Rplus
    radians
    (λ ai aj ak, default (identity 4) (euler_matrix ai aj ak "rzxy"))
    translation_matrix
    dot
    dot_col
    inv
    format_7_4f.

(** The matrices the specification names: a translation, and the rotations
    about the z, x and y axes composed in that order. *)
Definition Translate (x y z : R) : rmatrix :=
  [[1; 0; 0; x]; [0; 1; 0; y]; [0; 0; 1; z]; [0; 0; 0; 1]].

Definition Rot_x (a : R) : rmatrix :=
  [[1; 0; 0; 0]; [0; cos a; - sin a; 0]; [0; sin a; cos a; 0]; [0; 0; 0; 1]].

Definition Rot_y (a : R) : rmatrix :=
  [[cos a; 0; sin a; 0]; [0; 1; 0; 0]; [- sin a; 0; cos a; 0]; [0; 0; 0; 1]].

Definition Rot_z (a : R) : rmatrix :=
  [[cos a; - sin a; 0; 0]; [sin a; cos a; 0; 0]; [0; 0; 1; 0]; [0; 0; 0; 1]].

Definition RotationZXY (rz rx ry : R) : rmatrix :=
  dot (Rot_z rz) (dot (Rot_x rx) (Rot_y ry)).

Definition degrees_to_radians (d : R) : R := d * PI / 180.

Definition spec_transformation_matrix (x y z rotx roty rotz : R) : rmatrix :=
  dot (Translate x y z)
      (RotationZXY (degrees_to_radians rotz) (degrees_to_radians rotx)
                   (degrees_to_radians roty)).

(** A 4x4 matrix whose last row is 0 0 0 1. *)
Definition affine (a b c d e f g h i x y z : R) : rmatrix :=
  [[a; b; c; x]; [d; e; f; y]; [g; h; i; z]; [0; 0; 0; 1]].

(** The entries of the matrix of a pose, with [a], [b], [g] the angles
    about x, y and z in radians. *)
Definition pose_matrix (x y z a b g : R) : rmatrix :=
  affine (cos g * cos b - sin g * sin a * sin b) (- sin g * cos a)
         (cos g * sin b + sin g * sin a * cos b)
         (sin g * cos b + cos g * sin a * sin b) (cos g * cos a)
         (sin g * sin b - cos g * sin a * cos b)
         (- cos a * sin b) (sin a) (cos a * cos b)
         x y z.

(** A root "world" and its child "body", whose inverse matrix is then
    filled in. *)
Definition cached_inverse_calls : list op :=
  [NewCoordinateSystem None "world" 0 0 0 0 0 0;
   NewCoordinateSystem (Some 0%nat) "body" 1 0 0 0 0 0;
   UpdateMatFromParent 1].

(** ** Distances between positions

    [x ** 2] is the square and [x ** 0.5], on a sum of squares, the square
    root. *)

(** Position.distance_to *)
Definition distance_to (self position : nat) : M (L:=RealLib) R :=
  me <- get_position self ;;
  conv_pos <- to_this (owner me) position ;;
  conv <- get_position conv_pos ;;
  ret (sqrt ((pos_x me - pos_x conv) ^ 2 + (pos_y me - pos_y conv) ^ 2 +
             (pos_z me - pos_z conv) ^ 2)).

(** Position.distance_to_origin *)
Definition distance_to_origin (self : nat) : M (L:=RealLib) R :=
  me <- get_position self ;;
  ret (sqrt (pos_x me ^ 2 + pos_y me ^ 2 + pos_z me ^ 2)).

(** A root "world" with children "body" and "arm", "leg" under "body", and
    positions in "leg", "world", "body" and "leg". *)
Definition tree_calls : list op :=
  [NewCoordinateSystem None "world" 0 0 0 0 0 0;
   NewCoordinateSystem (Some 0%nat) "body" 1 0 0 0 0 0;
   NewCoordinateSystem (Some 1%nat) "leg" 0 1 0 0 0 0;
   NewCoordinateSystem (Some 0%nat) "arm" 0 0 1 0 0 0;
   NewPosition 2 1 2 3;
   NewPosition 0 4 5 6;
   NewPosition 1 7 8 9;
   NewPosition 2 3 2 1].

End RealModel.

(** * Properties *)

Section Properties.
Context {L : Lib}.

Implicit Types (c : CoordinateSystem) (s : state) (fs : list CoordinateSystem).

(** ** redefine *)

Lemma redefine_cs_fields nx ny nz nrx nry nrz c c' :
  c' = redefine_cs nx ny nz nrx nry nrz c →
  parent c' = parent c ∧ name c' = name c ∧
  _x c' = default (_x c) nx ∧ _y c' = default (_y c) ny ∧
  _z c' = default (_z c) nz ∧ _rotx c' = default (_rotx c) nrx ∧
  _roty c' = default (_roty c) nry ∧ _rotz c' = default (_rotz c) nrz ∧
  _mat_to_parent c' = Some (calc_of_pose c') ∧
  _mat_from_parent c' = None ∧
  stored c' = stored c.
Proof.
  intros ->. destruct nx, ny, nz, nrx, nry, nrz; cbn; repeat split; reflexivity.
Qed.

Lemma redefine_run s self c nx ny nz nrx nry nrz :
  frames s !! self = Some c →
  redefine self nx ny nz nrx nry nrz s =
    (Ret tt, mkState (<[self:=redefine_cs nx ny nz nrx nry nrz c]> (frames s))
               (positions s) (route_base s)).
Proof.
  intros Hc. unfold redefine, bind, get_frame, put_frame. rewrite Hc. reflexivity.
Qed.


(** ** get_derivative *)

(** C1 (the code departs from it).  With d_z omitted the three rotations
    handed to the constructor are the frame's own, whatever d_rotx, d_roty
    and d_rotz are; with d_z supplied and d_rotx omitted the call ends in a
    TypeError.  The rotation axes are gated on d_z, not on their own
    arguments. *)
Theorem get_derivative_rotations_gated_on_d_z c d_x d_y d_rotx d_roty d_rotz :
  get_derivative_pose c d_x d_y None d_rotx d_roty d_rotz =
    Ret (match d_x with None => _x c | Some d => num_add (_x c) d end,
         match d_y with None => _y c | Some d => num_add (_y c) d end,
         _z c, _rotx c, _roty c, _rotz c)
  ∧ ∀ d, get_derivative_pose c d_x d_y (Some d) None d_roty d_rotz =
           Raise TypeError.
Proof.
  split; [reflexivity|]. intros d. reflexivity.
Qed.

(** When all six offsets are supplied the constructor gets the six sums. *)
Lemma get_derivative_pose_all c dx dy dz drx dry drz :
  get_derivative_pose c (Some dx) (Some dy) (Some dz) (Some drx) (Some dry)
    (Some drz) =
  Ret (num_add (_x c) dx, num_add (_y c) dy, num_add (_z c) dz,
       num_add (_rotx c) drx, num_add (_roty c) dry, num_add (_rotz c) drz).
Proof. reflexivity. Qed.

Lemma get_derivative_run s self c nm dx dy dz drx dry drz x y z rotx roty rotz :
  frames s !! self = Some c →
  (∀ q, parent c = Some q → q < length (frames s)) →
  get_derivative_pose c dx dy dz drx dry drz = Ret (x, y, z, rotx, roty, rotz) →
  get_derivative self nm dx dy dz drx dry drz s =
    (Ret (length (frames s)),
     mkState (frames s ++ [init_cs (parent c) nm x y z rotx roty rotz])
       (positions s) (route_base s)).
Proof.
  intros Hc Hp Hd. unfold get_derivative, bind, get_frame, lift.
  rewrite Hc, Hd. unfold CoordinateSystem_new, bind.
  destruct (parent c) as [q|] eqn:Hq.
  - unfold get_frame. specialize (Hp q eq_refl).
    apply lookup_lt_is_Some_2 in Hp as [cq Hcq]. rewrite Hcq.
    cbn. by destruct s.
  - cbn. by destruct s.
Qed.

(** ** to_this on a position the frame owns *)

(** C4.  When the owner of the position is the frame itself, to_this
    returns the address it was given and leaves the store as it was: the
    same object, not a copy. *)
Theorem to_this_own_position s self position c pos :
  frames s !! self = Some c →
  positions s !! position = Some pos →
  owner pos = self →
  to_this self position s = (Ret position, s).
Proof.
  intros Hc Hp Ho. unfold to_this, bind, get_position, get_frame.
  rewrite Hp, Hc. rewrite decide_True by done. reflexivity.
Qed.

(** ** Every call is a sequence of steps *)

Lemma steps_trans mb fs1 fs2 fs3 :
  steps mb fs1 fs2 → steps mb fs2 fs3 → steps mb fs1 fs3.
Proof.
  induction 1 as [|fs1 fs2 fs2' Hst _ IH]; [done|].
  intros H3. eapply steps_cons; [exact Hst | by apply IH].
Qed.

Lemma steps_one mb fs1 fs2 : step mb fs1 fs2 → steps mb fs1 fs2.
Proof. intros H. eapply steps_cons; [exact H | apply steps_refl]. Qed.

(** [trace_ok mb m]: whatever [m] returns or raises, the frames it leaves
    are reached from the ones it found by steps allowed by [mb]. *)
Definition trace_ok {A} (mb : nat → Prop) (m : M A) : Prop :=
  ∀ s, steps mb (frames s) (frames (m s).2).

Lemma trace_ret {A} mb (a : A) : trace_ok mb (ret a).
Proof. intros s. apply steps_refl. Qed.

Lemma trace_raise {A} mb e : trace_ok mb (raise (A:=A) e).
Proof. intros s. apply steps_refl. Qed.

Lemma trace_lift {A} mb (o : outcome A) : trace_ok mb (lift o).
Proof. intros s. apply steps_refl. Qed.

Lemma trace_get_frame mb a : trace_ok mb (get_frame a).
Proof. intros s. unfold get_frame. destruct (frames s !! a); apply steps_refl. Qed.

Lemma trace_get_position mb p : trace_ok mb (get_position p).
Proof.
  intros s. unfold get_position. destruct (positions s !! p); apply steps_refl.
Qed.

Lemma trace_put_position mb p q : trace_ok mb (put_position p q).
Proof. intros s. apply steps_refl. Qed.

Lemma trace_alloc_position mb q : trace_ok mb (alloc_position q).
Proof. intros s. apply steps_refl. Qed.

Lemma trace_to_root mb a : trace_ok mb (to_root a).
Proof.
  intros s. unfold to_root. destruct (to_root_list (frames s) a); apply steps_refl.
Qed.

Lemma trace_bind {A B} mb (m : M A) (k : A → M B) :
  trace_ok mb m → (∀ a, trace_ok mb (k a)) → trace_ok mb (bind m k).
Proof.
  intros Hm Hk s. unfold bind. specialize (Hm s).
  destruct (m s) as [[a|e|] s']; cbn in *;
    [eapply steps_trans; [exact Hm | apply Hk] | exact Hm | exact Hm].
Qed.

Lemma trace_mutate mb a mu :
  (mu = Mbackup → mb a) →
  trace_ok mb (c <- get_frame a ;; c' <- lift (mutate mu c) ;; put_frame a c').
Proof.
  intros Hmb s. unfold bind, get_frame, lift, put_frame.
  destruct (frames s !! a) as [c|] eqn:Hc; [|apply steps_refl].
  destruct (mutate mu c) as [c'| |] eqn:Hmu; cbn; try apply steps_refl.
  apply steps_one. by eapply step_mutate.
Qed.

Lemma trace_redefine mb a nx ny nz nrx nry nrz :
  trace_ok mb (redefine a nx ny nz nrx nry nrz).
Proof.
  intros s. generalize (trace_mutate mb a (Mredefine nx ny nz nrx nry nrz)
                          ltac:(discriminate) s).
  unfold redefine, bind, get_frame, lift, put_frame. cbn.
  by destruct (frames s !! a).
Qed.

Lemma trace_rollback mb a : trace_ok mb (rollback a).
Proof.
  intros s. unfold rollback, bind, get_frame, put_frame.
  destruct (frames s !! a) as [c|] eqn:Hc; [|apply steps_refl]. cbn.
  apply steps_one.
  eapply (step_mutate mb _ a
            (Mredefine (Some (_x_stored c)) (Some (_y_stored c))
               (Some (_z_stored c)) (Some (_rotx_stored c))
               (Some (_roty_stored c)) (Some (_rotz_stored c))));
    [exact Hc | reflexivity | discriminate].
Qed.

Lemma trace_backup (mb : nat → Prop) a : mb a → trace_ok mb (backup a).
Proof.
  intros Hmb s. generalize (trace_mutate mb a Mbackup (λ _, Hmb) s).
  unfold backup, bind, get_frame, lift, put_frame. cbn.
  by destruct (frames s !! a).
Qed.

Lemma trace_update_mat_from_parent mb a : trace_ok mb (update_mat_from_parent a).
Proof. apply (trace_mutate mb a Mupdate_mat_from_parent). discriminate. Qed.

Lemma trace_CoordinateSystem_new mb p nm x y z rotx roty rotz :
  trace_ok mb (CoordinateSystem_new p nm x y z rotx roty rotz).
Proof.
  intros s. unfold CoordinateSystem_new, bind, alloc_frame.
  destruct p as [q|]; cbn.
  - unfold get_frame. destruct (frames s !! q) as [cq|] eqn:Hq; cbn;
      [|apply steps_refl].
    apply steps_one, step_alloc. intros q' [= <-]. by eapply lookup_lt_Some.
  - apply steps_one, step_alloc. discriminate.
Qed.

Lemma trace_get_derivative mb a nm dx dy dz drx dry drz :
  trace_ok mb (get_derivative a nm dx dy dz drx dry drz).
Proof.
  unfold get_derivative.
  apply trace_bind; [apply trace_get_frame|]. intros c.
  apply trace_bind; [apply trace_lift|]. intros [[[[[x y] z] rx] ry] rz].
  apply trace_CoordinateSystem_new.
Qed.

Lemma trace_route mb a b : trace_ok mb (route a b).
Proof.
  unfold route.
  apply trace_bind; [apply trace_get_frame|]. intros f.
  apply trace_bind; [apply trace_get_frame|]. intros t s.
  destruct (route_base s !! _); [apply steps_refl|].
  revert s. apply trace_bind; [apply trace_to_root|]. intros l1.
  apply trace_bind; [apply trace_to_root|]. intros l2.
  destruct (build_route l1 l2 []); intros s; apply steps_refl.
Qed.

Lemma trace_Position__str__ mb pos : trace_ok mb (Position__str__ pos).
Proof.
  unfold Position__str__.
  apply trace_bind; [apply trace_get_frame|]. intros o.
  apply trace_bind; [apply trace_lift|]. intros str. apply trace_ret.
Qed.

Lemma trace_fill_position mb p a arr : trace_ok mb (fill_position p a arr).
Proof. apply trace_put_position. Qed.

Lemma trace_gather_matrices mb r acc : trace_ok mb (gather_matrices r acc).
Proof.
  revert acc. induction r as [|[node d] r IH]; intros acc; cbn.
  - apply trace_ret.
  - destruct d.
    + apply trace_bind; [apply trace_get_frame|]. intros c. apply IH.
    + apply trace_bind; [apply trace_get_frame|]. intros c.
      apply trace_bind.
      { destruct (_mat_from_parent c);
          [apply trace_ret | apply trace_update_mat_from_parent]. }
      intros _. apply trace_bind; [apply trace_get_frame|]. intros c'. apply IH.
    + apply IH.
Qed.

Lemma trace_to_this mb a p : trace_ok mb (to_this a p).
Proof.
  unfold to_this.
  apply trace_bind; [apply trace_get_position|]. intros pos.
  apply trace_bind; [apply trace_get_frame|]. intros me.
  destruct (decide (owner pos = a)); [apply trace_ret|].
  apply trace_bind; [apply trace_alloc_position|]. intros q.
  apply trace_bind; [apply trace_get_frame|]. intros own.
  destruct (decide (parent own = Some a)).
  { apply trace_bind; [apply trace_lift|]. intros arr.
    apply trace_bind; [apply trace_fill_position|]. intros _. apply trace_ret. }
  destruct (decide (parent me = Some (owner pos))).
  { apply trace_bind.
    { destruct (_mat_from_parent me);
        [apply trace_ret | apply trace_update_mat_from_parent]. }
    intros _. apply trace_bind; [apply trace_get_frame|]. intros me'.
    apply trace_bind; [apply trace_lift|]. intros arr.
    apply trace_bind; [apply trace_fill_position|]. intros _. apply trace_ret. }
  apply trace_bind; [apply trace_route|]. intros [r|].
  - apply trace_bind; [apply trace_gather_matrices|]. intros ms.
    apply trace_bind; [apply trace_lift|]. intros agg.
    apply trace_bind; [apply trace_lift|]. intros arr.
    apply trace_bind; [apply trace_fill_position|]. intros _. apply trace_ret.
  - apply trace_bind; [apply trace_Position__str__|]. intros sp.
    apply trace_bind; [apply trace_lift|]. intros ss. apply trace_raise.
Qed.

Lemma exec_steps o s : steps (op_may_backup o) (frames s) (frames (exec o s)).
Proof.
  destruct o; cbn.
  - apply trace_CoordinateSystem_new.
  - unfold Position_new.
    apply (trace_bind _ _ _ (trace_get_frame _ _)). intros _.
    apply trace_alloc_position.
  - apply trace_redefine.
  - apply trace_update_mat_from_parent.
  - apply trace_get_derivative.
  - apply trace_backup. reflexivity.
  - apply trace_rollback.
  - apply trace_to_this.
  - apply trace_route.
Qed.

(** ** The matrices follow the pose *)

Lemma init_cs_fields p nm x y z rotx roty rotz :
  let c := init_cs p nm x y z rotx roty rotz in
  parent c = p ∧ name c = nm ∧ pose c = (x, y, z, rotx, roty, rotz) ∧
  stored c = (x, y, z, rotx, roty, rotz) ∧
  _mat_to_parent c = Some (calc_of_pose c) ∧ _mat_from_parent c = None.
Proof. cbn. repeat split; reflexivity. Qed.

Lemma init_cs_frame_ok p nm x y z rotx roty rotz :
  frame_ok (init_cs p nm x y z rotx roty rotz).
Proof. split; [reflexivity | by left]. Qed.

Lemma redefine_cs_frame_ok nx ny nz nrx nry nrz c :
  frame_ok (redefine_cs nx ny nz nrx nry nrz c).
Proof.
  destruct (redefine_cs_fields nx ny nz nrx nry nrz c _ eq_refl)
    as (_ & _ & _ & _ & _ & _ & _ & _ & Hto & Hfrom & _).
  split; [exact Hto | by left].
Qed.

Lemma mutate_frame_ok mu c c' : frame_ok c → mutate mu c = Ret c' → frame_ok c'.
Proof.
  intros [Hto Hfrom] Hmu. destruct mu; cbn in Hmu.
  - injection Hmu as <-. apply redefine_cs_frame_ok.
  - injection Hmu as <-. split; [exact Hto | exact Hfrom].
  - unfold update_mat_from_parent_cs in Hmu. rewrite Hto in Hmu.
    destruct (numpy_linalg_inv (calc_of_pose c)) as [mi|] eqn:Hinv; [|done].
    injection Hmu as <-. split; [exact Hto|]. right. by exists mi.
Qed.

Lemma step_frame_ok mb fs fs' :
  step mb fs fs' → Forall frame_ok fs → Forall frame_ok fs'.
Proof.
  intros Hst Hall. destruct Hst as [fs a mu c c' Hc Hmu _ | fs p nm x y z rx ry rz _].
  - apply Forall_insert; [exact Hall|].
    eapply mutate_frame_ok; [|exact Hmu].
    eapply Forall_lookup_1; [exact Hall | exact Hc].
  - apply Forall_app. split; [exact Hall|].
    apply Forall_singleton, init_cs_frame_ok.
Qed.

Lemma steps_frame_ok mb fs fs' :
  steps mb fs fs' → Forall frame_ok fs → Forall frame_ok fs'.
Proof.
  induction 1 as [|fs1 fs2 fs3 Hst _ IH]; [done|].
  intros H1. apply IH. by eapply step_frame_ok.
Qed.

Lemma run_snoc ops o s : run (ops ++ [o]) s = exec o (run ops s).
Proof. unfold run. by rewrite foldl_app. Qed.

Lemma run_frame_ok ops s :
  Forall frame_ok (frames s) → Forall frame_ok (frames (run ops s)).
Proof.
  revert s. induction ops as [|o ops IH]; intros s Hs; [exact Hs|].
  cbn. apply IH. eapply steps_frame_ok; [apply exec_steps | exact Hs].
Qed.


(** ** The tree is well founded, so to_root ends *)

Lemma step_frames_wf mb fs fs' : step mb fs fs' → frames_wf fs → frames_wf fs'.
Proof.
  intros Hst Hwf. destruct Hst as [fs a mu c c' Hc Hmu _ | fs p nm x y z rx ry rz Hp].
  - intros b cb q Hb Hq. destruct (decide (a = b)) as [->|Hne].
    + rewrite list_lookup_insert_eq in Hb by (by eapply lookup_lt_Some).
      injection Hb as <-. apply (Hwf b c q Hc). rewrite <- Hq.
      destruct mu; cbn in Hmu.
      * injection Hmu as <-.
        symmetry.
        apply (redefine_cs_fields new_x new_y new_z new_rotx new_roty new_rotz
                 c _ eq_refl).
      * by injection Hmu as <-.
      * unfold update_mat_from_parent_cs in Hmu.
        destruct (_mat_to_parent c); [|done].
        destruct (numpy_linalg_inv m); [|done]. by injection Hmu as <-.
    + rewrite list_lookup_insert_ne in Hb by done. by eapply Hwf.
  - intros b cb q Hb Hq. apply lookup_app_Some in Hb as [Hb | [Hlen Hb]].
    + by eapply Hwf.
    + apply list_lookup_singleton_Some in Hb as [Hb0 <-].
      cbn in Hq. specialize (Hp q Hq). lia.
Qed.

Lemma steps_frames_wf mb fs fs' : steps mb fs fs' → frames_wf fs → frames_wf fs'.
Proof.
  induction 1 as [|fs1 fs2 fs3 Hst _ IH]; [done|].
  intros H1. apply IH. by eapply step_frames_wf.
Qed.

Lemma run_frames_wf ops s : frames_wf (frames s) → frames_wf (frames (run ops s)).
Proof.
  revert s. induction ops as [|o ops IH]; intros s Hs; [exact Hs|].
  cbn. apply IH. eapply steps_frames_wf; [apply exec_steps | exact Hs].
Qed.

Lemma to_root_from_total fs :
  frames_wf fs →
  ∀ fuel a, a < fuel → a < length fs →
    ∃ l, to_root_from fuel fs a = Some l ∧ head l = Some a.
Proof.
  intros Hwf fuel. induction fuel as [|fuel IH]; intros a Hf Ha; [lia|].
  cbn. apply lookup_lt_is_Some_2 in Ha as [c Hc]. rewrite Hc.
  destruct (parent c) as [p|] eqn:Hp; [|by eexists].
  pose proof (Hwf a c p Hc Hp) as Hlt.
  destruct (IH p) as (l & Hl & _); [lia | apply lookup_lt_Some in Hc; lia |].
  rewrite Hl. by eexists.
Qed.

(** In a store built by calls, the loop of to_root ends for every frame. *)
Lemma to_root_total ops a :
  let s := run ops empty_state in
  a < length (frames s) → ∃ l, to_root a s = (Ret l, s) ∧ head l = Some a.
Proof.
  intros s Ha. unfold to_root, to_root_list.
  destruct (to_root_from_total (frames s)) with (fuel := length (frames s)) (a := a)
    as (l & Hl & Hh); [|done|done|].
  - apply (run_frames_wf ops empty_state). intros b c p Hb. done.
  - rewrite Hl. by exists l.
Qed.

(** ** Running one bind *)

Lemma bind_get_position {A} s p pos (k : Position → M A) :
  positions s !! p = Some pos → bind (get_position p) k s = k pos s.
Proof. intros H. unfold bind, get_position. by rewrite H. Qed.

Lemma bind_get_frame {A} s a c (k : CoordinateSystem → M A) :
  frames s !! a = Some c → bind (get_frame a) k s = k c s.
Proof. intros H. unfold bind, get_frame. by rewrite H. Qed.

Lemma bind_to_root {A} s a l (k : list nat → M A) :
  to_root_list (frames s) a = Some l → bind (to_root a) k s = k l s.
Proof. intros H. unfold bind, to_root. by rewrite H. Qed.

Lemma bind_Ret {A B} (m : M A) (k : A → M B) s a s' :
  m s = (Ret a, s') → bind m k s = k a s'.
Proof. intros H. unfold bind. by rewrite H. Qed.

Lemma bind_Raise {A B} (m : M A) (k : A → M B) s e s' :
  m s = (Raise e, s') → bind m k s = (Raise e, s').
Proof. intros H. unfold bind. by rewrite H. Qed.

(** ** backup and rollback *)

Lemma calc_of_pose_eq c c' : pose c = pose c' → calc_of_pose c = calc_of_pose c'.
Proof.
  intros H.
  change (calc_of_pose c) with
    (let '(x, y, z, rx, ry, rz) := pose c in
     calc_transformation_matrix x y z rx ry rz).
  rewrite H. reflexivity.
Qed.

Lemma rollback_cs_fields c c' :
  c' = rollback_cs c →
  parent c' = parent c ∧ name c' = name c ∧ pose c' = stored c ∧
  stored c' = stored c ∧ _mat_to_parent c' = Some (calc_of_pose c') ∧
  _mat_from_parent c' = None.
Proof. intros ->. cbn. repeat split; reflexivity. Qed.

Lemma backup_cs_fields c c' :
  c' = backup_cs c →
  parent c' = parent c ∧ name c' = name c ∧ pose c' = pose c ∧
  stored c' = pose c ∧ _mat_to_parent c' = _mat_to_parent c ∧
  _mat_from_parent c' = _mat_from_parent c.
Proof. intros ->. cbn. repeat split; reflexivity. Qed.

Lemma backup_run s self c :
  frames s !! self = Some c →
  backup self s =
    (Ret tt, mkState (<[self:=backup_cs c]> (frames s)) (positions s)
               (route_base s)).
Proof.
  intros Hc. unfold backup, bind, get_frame, put_frame. by rewrite Hc.
Qed.

Lemma rollback_run s self c :
  frames s !! self = Some c →
  rollback self s =
    (Ret tt, mkState (<[self:=rollback_cs c]> (frames s)) (positions s)
               (route_base s)).
Proof.
  intros Hc. unfold rollback, bind, get_frame, put_frame. by rewrite Hc.
Qed.

Lemma CoordinateSystem_new_run s p nm x y z rotx roty rotz :
  (∀ q, p = Some q → q < length (frames s)) →
  CoordinateSystem_new p nm x y z rotx roty rotz s =
    (Ret (length (frames s)),
     mkState (frames s ++ [init_cs p nm x y z rotx roty rotz])
       (positions s) (route_base s)).
Proof.
  intros Hp. unfold CoordinateSystem_new, bind, alloc_frame.
  destruct p as [q|]; cbn; [|done].
  unfold get_frame. specialize (Hp q eq_refl).
  apply lookup_lt_is_Some_2 in Hp as [cq Hcq]. by rewrite Hcq.
Qed.

Lemma mutate_stored mu c c' :
  mu ≠ Mbackup → mutate mu c = Ret c' → stored c' = stored c.
Proof.
  intros Hne Hmu. destruct mu; cbn in Hmu; [| done |].
  - injection Hmu as <-.
    apply (redefine_cs_fields new_x new_y new_z new_rotx new_roty new_rotz
             c _ eq_refl).
  - unfold update_mat_from_parent_cs in Hmu.
    destruct (_mat_to_parent c); [|done].
    destruct (numpy_linalg_inv m); [|done]. by injection Hmu as <-.
Qed.

Lemma step_keeps_stored (mb : nat → Prop) fs fs' a c :
  step mb fs fs' → ¬ mb a → fs !! a = Some c →
  ∃ c', fs' !! a = Some c' ∧ stored c' = stored c.
Proof.
  intros Hst Hmb Ha.
  destruct Hst as [fs b mu cb cb' Hb Hmu Hallow | fs p nm x y z rx ry rz _].
  - destruct (decide (b = a)) as [->|Hne].
    + exists cb'. split.
      * apply list_lookup_insert_eq. by eapply lookup_lt_Some.
      * assert (cb = c) as -> by congruence.
        eapply mutate_stored; [|exact Hmu]. intros ->. by apply Hmb, Hallow.
    + exists c. by rewrite list_lookup_insert_ne.
  - exists c. split; [|done]. by apply lookup_app_l_Some.
Qed.

Lemma steps_keep_stored (mb : nat → Prop) fs fs' a :
  steps mb fs fs' → ¬ mb a → ∀ c, fs !! a = Some c →
  ∃ c', fs' !! a = Some c' ∧ stored c' = stored c.
Proof.
  induction 1 as [fs|fs1 fs2 fs3 Hst _ IH]; intros Hmb c Hc; [by exists c|].
  destruct (step_keeps_stored mb fs1 fs2 a c Hst Hmb Hc) as (c2 & Hc2 & Hs2).
  destruct (IH Hmb c2 Hc2) as (c3 & Hc3 & Hs3).
  exists c3. split; [done | congruence].
Qed.

Lemma run_keeps_stored ops s a c :
  Forall (λ o, o ≠ Backup a) ops → frames s !! a = Some c →
  ∃ c', frames (run ops s) !! a = Some c' ∧ stored c' = stored c.
Proof.
  revert s c. induction ops as [|o ops IH]; intros s c Hops Hc; [by exists c|].
  apply Forall_cons in Hops as [Ho Hops]. cbn.
  destruct (steps_keep_stored _ _ _ a (exec_steps o s) Ho c Hc) as (c1 & Hc1 & Hs1).
  destruct (IH (exec o s) c1 Hops Hc1) as (c2 & Hc2 & Hs2).
  exists c2. split; [done | congruence].
Qed.

Lemma update_mat_from_parent_run s a c m mi :
  frames s !! a = Some c →
  _mat_to_parent c = Some m →
  numpy_linalg_inv m = Some mi →
  update_mat_from_parent a s =
    (Ret tt, mkState (<[a:=set_mat_from_parent (Some mi) c]> (frames s))
               (positions s) (route_base s)).
Proof.
  intros Hc Hm Hmi. unfold update_mat_from_parent.
  rewrite (bind_get_frame _ _ _ _ Hc).
  unfold update_mat_from_parent_cs. rewrite Hm, Hmi. reflexivity.
Qed.

(** C10.  A frame is constructed with some pose; any calls follow, none of
    them backup() on that frame; rollback() on it then returns and leaves
    the frame with exactly the six scalars given to the constructor. *)
Theorem rollback_without_backup s p nm x y z rotx roty rotz ops :
  let a := length (frames s) in
  (∀ q, p = Some q → q < length (frames s)) →
  Forall (λ o, o ≠ Backup a) ops →
  let s1 := run (NewCoordinateSystem p nm x y z rotx roty rotz :: ops) s in
  (rollback a s1).1 = Ret tt ∧
  ∃ c, frames (rollback a s1).2 !! a = Some c ∧
       pose c = (x, y, z, rotx, roty, rotz).
Proof.
  intros a Hp Hops s1.
  assert (∃ c1, frames s1 !! a = Some c1 ∧ stored c1 = (x, y, z, rotx, roty, rotz))
    as (c1 & Hc1 & Hst).
  { unfold s1. cbn [run foldl exec].
    rewrite CoordinateSystem_new_run by exact Hp. cbn [snd].
    apply (run_keeps_stored ops _ a (init_cs p nm x y z rotx roty rotz) Hops).
    cbn [frames]. rewrite lookup_app_r by done. by rewrite Nat.sub_diag. }
  rewrite (rollback_run s1 a c1 Hc1). cbn [fst snd frames]. split; [done|].
  exists (rollback_cs c1). split.
  - apply list_lookup_insert_eq. by eapply lookup_lt_Some.
  - rewrite <- Hst. apply (rollback_cs_fields c1 _ eq_refl).
Qed.

(** C9, as the code has it.  For a frame [c] of a store built by calls,
    after backup(), redefine(...) with any arguments and rollback() the six
    scalars and mat_to_parent are those [c] had, the backup slot holds that
    pose, and mat_from_parent is None (cleared, not restored); rollback is
    redefine applied to the six backed-up scalars; and a second backup()
    overwrites the slot: after backup, redefine, backup, redefine, rollback
    the pose is the one of the second backup. *)
Theorem backup_redefine_rollback ops a c nx ny nz nrx nry nrz :
  let s := run ops empty_state in
  frames s !! a = Some c →
  (∃ c', frames (run [Backup a; Redefine a nx ny nz nrx nry nrz; Rollback a] s)
           !! a = Some c'
         ∧ pose c' = pose c
         ∧ _mat_to_parent c' = _mat_to_parent c
         ∧ _mat_from_parent c' = None
         ∧ stored c' = pose c)
  ∧ rollback_cs c =
      redefine_cs (Some (_x_stored c)) (Some (_y_stored c))
        (Some (_z_stored c)) (Some (_rotx_stored c)) (Some (_roty_stored c))
        (Some (_rotz_stored c)) c
  ∧ ∀ mx my mz mrx mry mrz,
      ∃ c', frames (run [Backup a; Redefine a nx ny nz nrx nry nrz; Backup a;
                         Redefine a mx my mz mrx mry mrz; Rollback a] s)
              !! a = Some c'
            ∧ pose c' = pose (redefine_cs nx ny nz nrx nry nrz c).
Proof.
  intros s Hc.
  assert (frame_ok c) as [Hto _].
  { eapply Forall_lookup_1; [|exact Hc].
    apply (run_frame_ok ops empty_state). constructor. }
  assert (a < length (frames s)) as Hlen by (by eapply lookup_lt_Some).
  split; [|split; [reflexivity|]].
  - exists (rollback_cs (redefine_cs nx ny nz nrx nry nrz (backup_cs c))).
    split.
    + cbn [run foldl exec].
      rewrite (backup_run s a c Hc). cbn [snd].
      erewrite redefine_run;
        [|cbn [frames]; by apply list_lookup_insert_eq].
      cbn [snd frames].
      erewrite rollback_run;
        [|cbn [frames]; apply list_lookup_insert_eq; by rewrite !length_insert].
      cbn [snd frames]. apply list_lookup_insert_eq. by rewrite !length_insert.
    + destruct (backup_cs_fields c _ eq_refl) as (_ & _ & _ & Hb & _).
      destruct (redefine_cs_fields nx ny nz nrx nry nrz (backup_cs c) _ eq_refl)
        as (_ & _ & _ & _ & _ & _ & _ & _ & _ & _ & Hst).
      destruct (rollback_cs_fields
                  (redefine_cs nx ny nz nrx nry nrz (backup_cs c)) _ eq_refl)
        as (_ & _ & Hp & Hs & Hm & Hf).
      rewrite Hst, Hb in Hp, Hs.
      split; [exact Hp|]. split; [|split; [exact Hf | exact Hs]].
      rewrite Hm, Hto. f_equal. by apply calc_of_pose_eq.
  - intros mx my mz mrx mry mrz.
    set (c1 := redefine_cs nx ny nz nrx nry nrz (backup_cs c)).
    exists (rollback_cs (redefine_cs mx my mz mrx mry mrz (backup_cs c1))).
    split.
    + cbn [run foldl exec].
      rewrite (backup_run s a c Hc). cbn [snd].
      rewrite (redefine_run _ a (backup_cs c) nx ny nz nrx nry nrz)
        by (cbn [frames]; by apply list_lookup_insert_eq).
      cbn [snd frames]. fold c1.
      rewrite (backup_run _ a c1)
        by (cbn [frames]; apply list_lookup_insert_eq; by rewrite !length_insert).
      cbn [snd frames].
      rewrite (redefine_run _ a (backup_cs c1) mx my mz mrx mry mrz)
        by (cbn [frames]; apply list_lookup_insert_eq; by rewrite !length_insert).
      cbn [snd frames].
      erewrite rollback_run;
        [|cbn [frames]; apply list_lookup_insert_eq; by rewrite !length_insert].
      cbn [snd frames]. apply list_lookup_insert_eq. by rewrite !length_insert.
    + destruct (backup_cs_fields c1 _ eq_refl) as (_ & _ & _ & Hb & _).
      destruct (redefine_cs_fields mx my mz mrx mry mrz (backup_cs c1) _ eq_refl)
        as (_ & _ & _ & _ & _ & _ & _ & _ & _ & _ & Hst).
      destruct (rollback_cs_fields
                  (redefine_cs mx my mz mrx mry mrz (backup_cs c1)) _ eq_refl)
        as (_ & _ & Hp & _).
      rewrite Hst, Hb in Hp. rewrite Hp.
      unfold c1. destruct nx, ny, nz, nrx, nry, nrz; reflexivity.
Qed.

(** ** to_this between a frame and its parent *)

Lemma fill_position_run s p self arr :
  fill_position p self arr s =
    (Ret tt, mkState (frames s) (<[p:=filled self arr]> (positions s))
               (route_base s)).
Proof. reflexivity. Qed.

Lemma alloc_then_fill (ps : list Position) q q' :
  <[length ps:=q']> (ps ++ [q]) = ps ++ [q'].
Proof.
  rewrite insert_app_r_alt by done. by rewrite Nat.sub_diag.
Qed.

(** to_this on a position owned by a child of the frame. *)
Lemma to_this_from_child s self position pos me own m :
  positions s !! position = Some pos →
  frames s !! self = Some me →
  frames s !! owner pos = Some own →
  owner pos ≠ self →
  parent own = Some self →
  _mat_to_parent own = Some m →
  to_this self position s =
    (Ret (length (positions s)),
     mkState (frames s)
       (positions s ++
        [filled self (numpy_dot_col m (pos_x pos, pos_y pos, pos_z pos, num_1))])
       (route_base s)).
Proof.
  intros Hpos Hme Hown Hne Hpar Hm. unfold to_this.
  rewrite (bind_get_position _ _ _ _ Hpos), (bind_get_frame _ _ _ _ Hme).
  rewrite decide_False by done.
  set (s1 := mkState (frames s)
                (positions s ++ [mkPosition self num_0 num_0 num_0])
                (route_base s)).
  rewrite (bind_Ret _ _ s (length (positions s)) s1) by reflexivity.
  rewrite (bind_get_frame s1 _ _ _ Hown).
  rewrite decide_True by done.
  rewrite Hm. cbn [dot_col_opt].
  rewrite (bind_Ret _ _ s1 _ s1) by reflexivity.
  erewrite bind_Ret by apply fill_position_run.
  unfold ret, s1. cbn [frames positions route_base].
  by rewrite alloc_then_fill.
Qed.

(** to_this on a position owned by the parent of the frame: the inverse is
    computed if it is not there yet, stored, and applied. *)
Lemma to_this_from_parent s self position pos me m mi :
  positions s !! position = Some pos →
  frames s !! self = Some me →
  owner pos ≠ self →
  (∀ own, frames s !! owner pos = Some own → parent own ≠ Some self) →
  is_Some (frames s !! owner pos) →
  parent me = Some (owner pos) →
  _mat_to_parent me = Some m →
  numpy_linalg_inv m = Some mi →
  (_mat_from_parent me = None ∨ _mat_from_parent me = Some mi) →
  to_this self position s =
    (Ret (length (positions s)),
     mkState (<[self:=set_mat_from_parent (Some mi) me]> (frames s))
       (positions s ++
        [filled self (numpy_dot_col mi (pos_x pos, pos_y pos, pos_z pos, num_1))])
       (route_base s)).
Proof.
  intros Hpos Hme Hne Hnp [own Hown] Hpar Hm Hmi Hfrom. unfold to_this.
  rewrite (bind_get_position _ _ _ _ Hpos), (bind_get_frame _ _ _ _ Hme).
  rewrite decide_False by done.
  set (s1 := mkState (frames s)
                (positions s ++ [mkPosition self num_0 num_0 num_0])
                (route_base s)).
  rewrite (bind_Ret _ _ s (length (positions s)) s1) by reflexivity.
  rewrite (bind_get_frame s1 _ _ _ Hown).
  rewrite decide_False by (by apply Hnp).
  rewrite decide_True by done.
  set (s2 := mkState (<[self:=set_mat_from_parent (Some mi) me]> (frames s))
                (positions s ++ [mkPosition self num_0 num_0 num_0])
                (route_base s)).
  assert (Hlt : self < length (frames s)) by (by eapply lookup_lt_Some).
  assert (frames s2 !! self = Some (set_mat_from_parent (Some mi) me)) as Hme2.
  { by apply list_lookup_insert_eq. }
  rewrite (bind_Ret _ _ s1 tt s2).
  2:{ destruct Hfrom as [Hf|Hf]; rewrite Hf.
      - by apply (update_mat_from_parent_run s1 self me m mi).
      - unfold ret, s1, s2. f_equal. f_equal.
        symmetry. apply list_insert_id. rewrite Hme. f_equal.
        destruct me; cbn in *. by rewrite Hf. }
  rewrite (bind_get_frame s2 _ _ _ Hme2).
  cbn [set_mat_from_parent _mat_from_parent dot_col_opt].
  rewrite (bind_Ret _ _ s2 _ s2) by reflexivity.
  erewrite bind_Ret by apply fill_position_run.
  unfold ret, s2. cbn [frames positions route_base].
  by rewrite alloc_then_fill.
Qed.

(** ** to_this between frames with no common ancestor *)

Lemma list_index_None n l : n ∉ l → list_index n l = None.
Proof.
  induction l as [|m l IH]; intros Hn; [done|]. cbn.
  apply not_elem_of_cons in Hn as [Hne Hn].
  rewrite decide_False by done. by rewrite IH.
Qed.

Lemma build_route_disjoint l1 l2 acc :
  Forall (λ n, n ∉ l2) l1 → build_route l1 l2 acc = None.
Proof.
  revert acc. induction l1 as [|n l1 IH]; intros acc Hd; [done|].
  apply Forall_cons in Hd as [Hn Hd]. cbn.
  rewrite list_index_None by done. by apply IH.
Qed.

Lemma to_root_from_head fuel fs a l :
  to_root_from fuel fs a = Some l → ∃ l', l = a :: l'.
Proof.
  destruct fuel as [|fuel]; [done|]. cbn.
  destruct (fs !! a) as [c|]; [|done].
  destruct (parent c) as [p|].
  - destruct (to_root_from fuel fs p) as [l'|]; [|done].
    intros [= <-]. by eexists.
  - intros [= <-]. by eexists.
Qed.

Lemma to_root_from_parent fuel fs a c p l :
  fs !! a = Some c → parent c = Some p →
  to_root_from fuel fs a = Some l → p ∈ l.
Proof.
  intros Hc Hp. destruct fuel as [|fuel]; [done|]. cbn. rewrite Hc, Hp.
  destruct (to_root_from fuel fs p) as [l'|] eqn:Hl'; [|done].
  intros [= <-]. apply to_root_from_head in Hl' as [l'' ->].
  apply elem_of_cons. right. apply elem_of_cons. by left.
Qed.

(** str() of a position never returns: str() of its owner raises first. *)
Lemma Position__str__raises s pos own :
  frames s !! owner pos = Some own →
  Position__str__ pos s = (Raise TypeError, s).
Proof.
  intros Hown. unfold Position__str__.
  by rewrite (bind_get_frame _ _ _ _ Hown).
Qed.

Lemma route_no_common_node s a b f t l1 l2 :
  frames s !! a = Some f →
  frames s !! b = Some t →
  route_base s !! route_desc_of (name f) (name t) = None →
  to_root_list (frames s) a = Some l1 →
  to_root_list (frames s) b = Some l2 →
  Forall (λ n, n ∉ l2) l1 →
  route a b s = (Ret None, s).
Proof.
  intros Hf Ht Hcache Hl1 Hl2 Hdis. unfold route.
  rewrite (bind_get_frame _ _ _ _ Hf), (bind_get_frame _ _ _ _ Ht).
  rewrite Hcache.
  rewrite (bind_to_root _ _ _ _ Hl1), (bind_to_root _ _ _ _ Hl2).
  by rewrite build_route_disjoint.
Qed.

(** C2 (the code departs from it).  The owner of the position and the
    target frame have ancestor chains with no frame in common, and the cache
    has no entry under their key.  Then to_this does not return: it ends in
    a TypeError, raised by str() while the message of the intended
    Exception is being built, so no exception naming the two frames is ever
    raised.  The frames and the cache are left as they were. *)
Theorem to_this_no_route s self position pos me own l1 l2 :
  positions s !! position = Some pos →
  frames s !! self = Some me →
  frames s !! owner pos = Some own →
  route_base s !! route_desc_of (name own) (name me) = None →
  to_root_list (frames s) (owner pos) = Some l1 →
  to_root_list (frames s) self = Some l2 →
  Forall (λ n, n ∉ l2) l1 →
  (to_this self position s).1 = Raise TypeError
  ∧ frames (to_this self position s).2 = frames s
  ∧ route_base (to_this self position s).2 = route_base s.
Proof.
  intros Hpos Hme Hown Hcache Hl1 Hl2 Hdis.
  destruct (to_root_from_head _ _ _ _ Hl1) as [l1' ->].
  destruct (to_root_from_head _ _ _ _ Hl2) as [l2' ->].
  assert (owner pos ≠ self) as Hne.
  { intros Heq. apply Forall_cons in Hdis as [Hn _]. apply Hn.
    rewrite Heq. apply elem_of_cons. by left. }
  assert (parent own ≠ Some self) as Hne1.
  { intros Heq. rewrite Forall_forall in Hdis.
    apply (Hdis self).
    - eapply to_root_from_parent; [exact Hown | exact Heq | exact Hl1].
    - apply elem_of_cons. by left. }
  assert (parent me ≠ Some (owner pos)) as Hne2.
  { intros Heq. apply Forall_cons in Hdis as [Hn _]. apply Hn.
    eapply to_root_from_parent; [exact Hme | exact Heq | exact Hl2]. }
  unfold to_this.
  rewrite (bind_get_position _ _ _ _ Hpos), (bind_get_frame _ _ _ _ Hme).
  rewrite decide_False by done.
  set (s1 := mkState (frames s)
                (positions s ++ [mkPosition self num_0 num_0 num_0])
                (route_base s)).
  rewrite (bind_Ret _ _ s (length (positions s)) s1) by reflexivity.
  rewrite (bind_get_frame s1 _ _ _ Hown).
  rewrite decide_False by done. rewrite decide_False by done.
  rewrite (bind_Ret _ _ s1 None s1)
    by (by eapply route_no_common_node).
  rewrite (bind_Raise _ _ s1 TypeError s1)
    by (by eapply Position__str__raises).
  done.
Qed.

(** ** The cache key *)

(** Two pairs of names share a key only when a first name contains "-". *)
Lemma route_desc_of_inj a1 b1 a2 b2 :
  has_dash a1 = false → has_dash a2 = false →
  route_desc_of a1 b1 = route_desc_of a2 b2 → a1 = a2 ∧ b1 = b2.
Proof.
  unfold route_desc_of. revert a2.
  induction a1 as [|ch1 a1 IH]; intros [|ch2 a2]; intros H1 H2 Heq;
    cbn [has_dash] in H1, H2; cbv [String.app] in Heq; fold String.app in Heq.
  - by injection Heq as ->.
  - injection Heq as <- _. by rewrite Ascii.eqb_refl in H2.
  - injection Heq as -> _. by rewrite Ascii.eqb_refl in H1.
  - injection Heq as -> Heq.
    destruct (Ascii.eqb ch2 "-"); [done|].
    destruct (IH a2 H1 H2 Heq) as [-> ->]. done.
Qed.

(** C3 (the code departs from it).  In one tree with five frames of
    pairwise different names, after route("a-b", "c") has been called, the
    call route("a", "b-c") returns the path from "a-b" to "c": both ordered
    pairs of names are stored under the key "a-b-c".  A search of the two
    ancestor chains gives another path. *)
Theorem route_cache_shared_key :
  let s := run shared_key_calls empty_state in
  NoDup (name <$> frames s)
  ∧ (name <$> frames s) !! 2 = Some "a-b" ∧ (name <$> frames s) !! 0 = Some "c"
  ∧ (name <$> frames s) !! 3 = Some "a" ∧ (name <$> frames s) !! 4 = Some "b-c"
  ∧ route_desc_of "a-b" "c" = route_desc_of "a" "b-c"
  ∧ (route 3 4 s).1 = Ret (Some [(2, up); (1, up); (0, root)])
  ∧ fresh_route (frames s) 3 4 = Some [(3, up); (0, root); (1, down); (4, down)]
  ∧ fresh_route (frames s) 2 0 = Some [(2, up); (1, up); (0, root)].
Proof.
  cbn zeta. split.
  { apply (bool_decide_unpack _). vm_compute. reflexivity. }
  repeat split; vm_compute; reflexivity.
Qed.

(** * More of the module: chains, routes, the cache, positions *)

(** ** The tree never changes shape *)

Lemma mutate_topology mu c c' :
  mutate mu c = Ret c' → parent c' = parent c ∧ name c' = name c.
Proof.
  intros Hmu. destruct mu; cbn in Hmu.
  - injection Hmu as <-.
    destruct (redefine_cs_fields new_x new_y new_z new_rotx new_roty new_rotz
                c _ eq_refl) as (Hp & Hn & _). by split.
  - by injection Hmu as <-.
  - unfold update_mat_from_parent_cs in Hmu.
    destruct (_mat_to_parent c); [|done].
    destruct (numpy_linalg_inv m); [|done]. by injection Hmu as <-.
Qed.

Lemma step_topology mb fs fs' a c :
  step mb fs fs' → fs !! a = Some c →
  ∃ c', fs' !! a = Some c' ∧ parent c' = parent c ∧ name c' = name c.
Proof.
  intros Hst Ha.
  destruct Hst as [fs b mu cb cb' Hb Hmu _ | fs p nm x y z rx ry rz _].
  - destruct (decide (b = a)) as [->|Hne].
    + exists cb'. split.
      * apply list_lookup_insert_eq. by eapply lookup_lt_Some.
      * assert (cb = c) as -> by congruence. by eapply mutate_topology.
    + exists c. by rewrite list_lookup_insert_ne.
  - exists c. split; [|done]. by apply lookup_app_l_Some.
Qed.

Lemma steps_topology mb fs fs' :
  steps mb fs fs' → ∀ a c, fs !! a = Some c →
  ∃ c', fs' !! a = Some c' ∧ parent c' = parent c ∧ name c' = name c.
Proof.
  induction 1 as [fs|fs1 fs2 fs3 Hst _ IH]; intros a c Hc; [by exists c|].
  destruct (step_topology _ _ _ _ _ Hst Hc) as (c2 & Hc2 & Hp2 & Hn2).
  destruct (IH a c2 Hc2) as (c3 & Hc3 & Hp3 & Hn3).
  exists c3. repeat split; [done | congruence | congruence].
Qed.

(** X1.  Whatever calls are made, a frame stays in the store with the
    parent and the name it was constructed with. *)
Theorem topology_fixed ops s a c :
  frames s !! a = Some c →
  ∃ c', frames (run ops s) !! a = Some c' ∧
        parent c' = parent c ∧ name c' = name c.
Proof.
  revert s c. induction ops as [|o ops IH]; intros s c Hc; [by exists c|].
  cbn.
  destruct (steps_topology _ _ _ (exec_steps o s) a c Hc) as (c1 & Hc1 & Hp1 & Hn1).
  destruct (IH (exec o s) c1 Hc1) as (c2 & Hc2 & Hp2 & Hn2).
  exists c2. repeat split; [done | congruence | congruence].
Qed.

(** ** to_root *)

Lemma to_root_from_chain fs :
  frames_wf fs →
  ∀ fuel a, a < fuel → a < length fs →
    ∃ l, to_root_from fuel fs a = Some l ∧ head l = Some a ∧ is_chain fs l.
Proof.
  intros Hwf fuel. induction fuel as [|fuel IH]; intros a Hf Ha; [lia|].
  cbn. destruct (lookup_lt_is_Some_2 fs a Ha) as [c Hc]. rewrite Hc.
  destruct (parent c) as [p|] eqn:Hp.
  - pose proof (Hwf a c p Hc Hp) as Hlt.
    destruct (IH p) as (l & Hl & Hh & Hch); [lia | lia |].
    rewrite Hl. exists (a :: l). repeat split.
    destruct l as [|b l]; [done|]. injection Hh as ->.
    cbn. split; [by exists c|]. by split.
  - exists [a]. repeat split. by exists c.
Qed.

(** X2.  In a store built by calls, to_root of an existing frame returns
    without touching the store; the list starts with the frame, each next
    element is the parent of the one before and was allocated before it,
    and the last element is a root. *)
Theorem to_root_chain ops a :
  let s := run ops empty_state in
  a < length (frames s) →
  ∃ l, to_root a s = (Ret l, s) ∧ head l = Some a ∧ is_chain (frames s) l.
Proof.
  intros s Ha. unfold to_root, to_root_list.
  destruct (to_root_from_chain (frames s)) with (fuel := length (frames s)) (a := a)
    as (l & Hl & Hh & Hch); [|done|done|].
  - apply (run_frames_wf ops empty_state). intros b c p Hb. done.
  - rewrite Hl. by exists l.
Qed.

(** ** closest_common_node and the shape of a route *)

Lemma list_index_Some node l j :
  list_index node l = Some j →
  l !! j = Some node ∧ ∀ k m, k < j → l !! k = Some m → m ≠ node.
Proof.
  revert j. induction l as [|n l IH]; intros j; [done|]. cbn.
  destruct (decide (n = node)) as [->|Hne].
  - intros [= <-]. split; [done|]. intros k m Hk. lia.
  - destruct (list_index node l) as [j'|] eqn:Hj; [|done].
    intros [= <-]. destruct (IH j' eq_refl) as [Hl Hmin]. split; [done|].
    intros [|k] m Hk; cbn.
    + by intros [= <-].
    + apply Hmin. lia.
Qed.

Lemma list_index_elem node l : node ∈ l → is_Some (list_index node l).
Proof.
  induction l as [|n l IH]; intros Hin; [by apply elem_of_nil in Hin|].
  cbn. destruct (decide (n = node)); [by eexists|].
  apply elem_of_cons in Hin as [->|Hin]; [done|].
  destruct (IH Hin) as [j ->]. by eexists.
Qed.

(** X3.  closest_common_node walks the first chain and returns its first
    frame that also lies on the second chain: the result is on both chains
    and nothing before it on the first chain is on the second; None is
    returned exactly when the chains share no frame. *)
Theorem closest_common_node_first l1 l2 :
  match closest_common_node_list l1 l2 with
  | Some node =>
      ∃ i, l1 !! i = Some node ∧ node ∈ l2 ∧
           ∀ k m, k < i → l1 !! k = Some m → m ∉ l2
  | None => ∀ m, m ∈ l1 → m ∉ l2
  end.
Proof.
  induction l1 as [|n l1 IH]; cbn.
  - intros m Hm. by apply elem_of_nil in Hm.
  - destruct (list_index n l2) as [j|] eqn:Hj.
    + exists 0. split; [done|]. split.
      * apply list_index_Some in Hj as [Hj _]. by eapply list_elem_of_lookup_2.
      * intros k m Hk. lia.
    + assert (n ∉ l2) as Hn.
      { intros Hin. apply list_index_elem in Hin as [j' Hj']. congruence. }
      destruct (closest_common_node_list l1 l2) as [node|].
      * destruct IH as (i & Hi & Hin & Hmin). exists (S i).
        split; [done|]. split; [done|].
        intros [|k] m Hk; cbn; [by intros [= <-]|]. apply Hmin. lia.
      * intros m Hm. apply elem_of_cons in Hm as [->|Hm]; [done | by apply IH].
Qed.

Lemma build_route_acc l1 l2 acc :
  build_route l1 l2 acc = (acc ++.) <$> build_route l1 l2 [].
Proof.
  revert acc. induction l1 as [|n l1 IH]; intros acc; [done|]. cbn.
  destruct (list_index n l2) as [j|]; cbn.
  - done.
  - rewrite (IH (acc ++ [(n, up)])), (IH [(n, up)]).
    destruct (build_route l1 l2 []) as [r|]; cbn; [|done].
    by rewrite <- app_assoc.
Qed.

(** X4.  A route that is found has the shape: the frames of the first
    chain below the pivot tagged "up", the pivot tagged "root", then the
    frames of the second chain below the pivot, from the pivot downwards,
    tagged "down"; the pivot is the frame closest_common_node returns. *)
Theorem build_route_shape l1 l2 r :
  build_route l1 l2 [] = Some r →
  ∃ i j pivot,
    l1 !! i = Some pivot ∧ l2 !! j = Some pivot ∧
    closest_common_node_list l1 l2 = Some pivot ∧
    r = ups (take i l1) ++ [(pivot, root)] ++ downs (reverse (take j l2)).
Proof.
  revert r. induction l1 as [|n l1 IH]; intros r; [done|]. cbn.
  destruct (list_index n l2) as [j|] eqn:Hj.
  - intros [= <-]. exists 0, j, n.
    apply list_index_Some in Hj as [Hj _]. repeat split; [done|].
    cbn. f_equal. destruct (decide (0 < j)) as [|Hz]; [done|].
    assert (j = 0) as -> by lia. done.
  - rewrite build_route_acc.
    destruct (build_route l1 l2 []) as [r'|]; [|done]. cbn. intros [= <-].
    destruct (IH r' eq_refl) as (i & j & pivot & Hi & Hj' & Hc & ->).
    exists (S i), j, pivot. by repeat split.
Qed.

(** No route is found exactly when closest_common_node finds no frame. *)
Lemma build_route_None l1 l2 :
  build_route l1 l2 [] = None ↔ closest_common_node_list l1 l2 = None.
Proof.
  induction l1 as [|n l1 IH]; cbn; [done|].
  destruct (list_index n l2); [done|].
  rewrite build_route_acc.
  destruct (build_route l1 l2 []); cbn; split; intros H; try done.
  - by apply IH in H.
  - by apply IH.
Qed.

(** ** What calls do to the cache and to the positions *)

Lemma unchanged_bind {A B X} (f : state → X) (m : M A) (k : A → M B) :
  unchanged f m → (∀ a, unchanged f (k a)) → unchanged f (bind m k).
Proof.
  intros Hm Hk s. unfold bind. specialize (Hm s).
  destruct (m s) as [[a|e|] s']; cbn in *; [|done|done].
  by rewrite Hk.
Qed.

Lemma unchanged_pure {A X} (f : state → X) (m : M A) :
  (∀ s, (m s).2 = s) → unchanged f m.
Proof. intros H s. by rewrite H. Qed.

Lemma get_frame_state a s : (get_frame a s).2 = s.
Proof. unfold get_frame. by destruct (frames s !! a). Qed.

Lemma get_position_state p s : (get_position p s).2 = s.
Proof. unfold get_position. by destruct (positions s !! p). Qed.

Lemma to_root_state a s : (to_root a s).2 = s.
Proof. unfold to_root. by destruct (to_root_list (frames s) a). Qed.

Ltac unchanged_step :=
  first
    [ apply unchanged_bind; [|intros ?]
    | apply unchanged_pure; first
        [ apply get_frame_state | apply get_position_state
        | apply to_root_state | reflexivity ]
    | match goal with
      | |- unchanged _ (match ?x with _ => _ end) => destruct x
      | |- unchanged _ (if ?b then _ else _) => destruct b
      end
    | (intros ?; reflexivity) ].

Lemma update_mat_from_parent_positions a : unchanged positions (update_mat_from_parent a).
Proof. unfold update_mat_from_parent. repeat unchanged_step. Qed.

Lemma update_mat_from_parent_cache a : unchanged route_base (update_mat_from_parent a).
Proof. unfold update_mat_from_parent. repeat unchanged_step. Qed.

Lemma route_positions a b : unchanged positions (route a b).
Proof.
  unfold route. do 2 unchanged_step. unchanged_step. intros s.
  destruct (route_base s !! _); [done|]. revert s.
  repeat unchanged_step.
Qed.

Lemma route_frames a b : unchanged frames (route a b).
Proof.
  unfold route. do 2 unchanged_step. unchanged_step. intros s.
  destruct (route_base s !! _); [done|]. revert s.
  repeat unchanged_step.
Qed.

Lemma gather_matrices_positions r acc : unchanged positions (gather_matrices r acc).
Proof.
  revert acc. induction r as [|[node d] r IH]; intros acc; cbn.
  - by intros s.
  - destruct d.
    + unchanged_step; [unchanged_step|]. apply IH.
    + unchanged_step; [unchanged_step|].
      unchanged_step.
      { destruct (_mat_from_parent _);
          [by intros s | apply update_mat_from_parent_positions]. }
      unchanged_step; [unchanged_step|]. apply IH.
    + apply IH.
Qed.

Lemma gather_matrices_cache r acc : unchanged route_base (gather_matrices r acc).
Proof.
  revert acc. induction r as [|[node d] r IH]; intros acc; cbn.
  - by intros s.
  - destruct d.
    + unchanged_step; [unchanged_step|]. apply IH.
    + unchanged_step; [unchanged_step|].
      unchanged_step.
      { destruct (_mat_from_parent _);
          [by intros s | apply update_mat_from_parent_cache]. }
      unchanged_step; [unchanged_step|]. apply IH.
    + apply IH.
Qed.

Lemma Position__str__state pos s : (Position__str__ pos s).2 = s.
Proof.
  unfold Position__str__, bind, get_frame.
  by destruct (frames s !! owner pos).
Qed.



(** When no route is found, nothing is stored. *)
Lemma route_None_state s a b s1 :
  route a b s = (Ret None, s1) → s1 = s.
Proof.
  unfold route, bind, get_frame.
  destruct (frames s !! a) as [f|]; [|done].
  destruct (frames s !! b) as [t|]; [|done].
  destruct (route_base s !! route_desc_of (name f) (name t)) as [r0|]; [done|].
  unfold to_root.
  destruct (to_root_list (frames s) a) as [l1|]; [|done].
  destruct (to_root_list (frames s) b) as [l2|]; [|done].
  destruct (build_route l1 l2 []) as [r0|]; [done|].
  by intros [= <-].
Qed.

Lemma cache_grows_unchanged {A} (m : M A) : unchanged route_base m → cache_grows m.
Proof. intros H s. by rewrite H. Qed.

Lemma cache_grows_bind {A B} (m : M A) (k : A → M B) :
  cache_grows m → (∀ a, cache_grows (k a)) → cache_grows (bind m k).
Proof.
  intros Hm Hk s. unfold bind. specialize (Hm s).
  destruct (m s) as [[a|e|] s']; cbn in *; [|done|done].
  etransitivity; [exact Hm | apply Hk].
Qed.

Lemma route_cache_grows a b : cache_grows (route a b).
Proof.
  intros s. unfold route, bind, get_frame.
  destruct (frames s !! a) as [f|]; [|done].
  destruct (frames s !! b) as [t|]; [|done].
  destruct (route_base s !! route_desc_of (name f) (name t)) as [r0|] eqn:Hc;
    [done|].
  unfold to_root.
  destruct (to_root_list (frames s) a) as [l1|]; [|done].
  destruct (to_root_list (frames s) b) as [l2|]; [|done].
  destruct (build_route l1 l2 []) as [r0|]; [|done].
  cbn. by apply insert_subseteq.
Qed.

Lemma to_this_cache_grows a p : cache_grows (to_this a p).
Proof.
  unfold to_this.
  apply cache_grows_bind;
    [apply cache_grows_unchanged, unchanged_pure, get_position_state|].
  intros pos.
  apply cache_grows_bind;
    [apply cache_grows_unchanged, unchanged_pure, get_frame_state|].
  intros me.
  destruct (decide (owner pos = a)); [by intros s|].
  apply cache_grows_bind; [by intros s|]. intros q.
  apply cache_grows_bind;
    [apply cache_grows_unchanged, unchanged_pure, get_frame_state|].
  intros own.
  destruct (decide (parent own = Some a)).
  { apply cache_grows_unchanged. repeat unchanged_step. }
  destruct (decide (parent me = Some (owner pos))).
  { apply cache_grows_unchanged. unchanged_step.
    { destruct (_mat_from_parent me);
        [by intros s | apply update_mat_from_parent_cache]. }
    repeat unchanged_step. }
  apply cache_grows_bind; [apply route_cache_grows|]. intros [r|].
  - apply cache_grows_unchanged.
    unchanged_step; [apply gather_matrices_cache|]. repeat unchanged_step.
  - apply cache_grows_unchanged.
    unchanged_step; [apply unchanged_pure, Position__str__state|].
    repeat unchanged_step.
Qed.

Lemma exec_cache_grows o s : route_base s ⊆ route_base (exec o s).
Proof.
  destruct o; cbn.
  - assert (unchanged route_base
              (CoordinateSystem_new parent_cs nm x y z rotx roty rotz)) as H.
    { unfold CoordinateSystem_new. repeat unchanged_step. }
    by rewrite H.
  - assert (unchanged route_base (Position_new owner_cs x y z)) as H.
    { unfold Position_new. repeat unchanged_step. }
    by rewrite H.
  - assert (unchanged route_base
              (redefine self new_x new_y new_z new_rotx new_roty new_rotz)) as H.
    { unfold redefine. repeat unchanged_step. }
    by rewrite H.
  - by rewrite update_mat_from_parent_cache.
  - assert (unchanged route_base
              (get_derivative self nm d_x d_y d_z d_rotx d_roty d_rotz)) as H.
    { unfold get_derivative. do 2 (unchanged_step; [unchanged_step|]).
      destruct a0 as [[[[[x y] z] rx] ry] rz].
      unfold CoordinateSystem_new. repeat unchanged_step. }
    by rewrite H.
  - assert (unchanged route_base (backup self)) as H.
    { unfold backup. repeat unchanged_step. }
    by rewrite H.
  - assert (unchanged route_base (rollback self)) as H.
    { unfold rollback. repeat unchanged_step. }
    by rewrite H.
  - apply to_this_cache_grows.
  - apply route_cache_grows.
Qed.

(** X6.  No call of the module removes or replaces an entry of route_base:
    every key keeps the path first stored under it. *)
Theorem route_base_only_grows ops s : route_base s ⊆ route_base (run ops s).
Proof.
  revert s. induction ops as [|o ops IH]; intros s; [done|]. cbn.
  etransitivity; [apply exec_cache_grows | apply IH].
Qed.

(** ** to_this and the positions *)

Lemma tail_ok_bind {A B} l a (m : M A) (k : A → M B) Q Q' :
  tail_ok l a m Q → (∀ r, Q r → tail_ok l a (k r) Q') →
  tail_ok l a (bind m k) Q'.
Proof.
  intros Hm Hk s q0 Hs Ho. unfold bind.
  destruct (Hm s q0 Hs Ho) as (q1 & Hs1 & Ho1 & HQ).
  destruct (m s) as [[r|e|] s1]; cbn in *.
  - apply (Hk r (HQ r eq_refl) s1 q1 Hs1 Ho1).
  - exists q1. by repeat split.
  - exists q1. by repeat split.
Qed.

Lemma tail_ok_unchanged {A} l a (m : M A) :
  unchanged positions m → tail_ok l a m (λ _, True).
Proof. intros Hm s q0 Hs Ho. exists q0. by rewrite Hm. Qed.

Lemma tail_ok_ret {A} l a (x : A) : tail_ok l a (ret x) (λ r, r = x).
Proof.
  intros s q0 Hs Ho. exists q0. repeat split; [done..|]. by intros r [= <-].
Qed.

Lemma tail_ok_raise {A} l a e (Q : A → Prop) : tail_ok l a (raise e) Q.
Proof. intros s q0 Hs Ho. exists q0. by repeat split. Qed.

Lemma owner_filled a arr : owner (filled a arr) = a.
Proof. by destruct arr as [[[x y] z] w]. Qed.

Lemma tail_ok_fill l a arr :
  tail_ok l a (fill_position (length l) a arr) (λ _, True).
Proof.
  intros s q0 Hs Ho. exists (filled a arr). unfold fill_position.
  cbn. rewrite Hs, alloc_then_fill. by rewrite owner_filled.
Qed.

Lemma tail_ok_weaken {A} l a (m : M A) (Q Q' : A → Prop) :
  (∀ r, Q r → Q' r) → tail_ok l a m Q → tail_ok l a m Q'.
Proof.
  intros HQ Hm s q0 Hs Ho. destruct (Hm s q0 Hs Ho) as (q1 & H1 & H2 & H3).
  exists q1. repeat split; [done..|]. intros r Hr. by apply HQ, H3.
Qed.

(** What to_this does to the positions: either nothing, and then a
    returned address is the argument, which the frame owns; or it appends
    one position owned by the frame, and a returned address is that one. *)
Lemma to_this_positions s a p :
  (positions (to_this a p s).2 = positions s ∧
   ∀ q, (to_this a p s).1 = Ret q →
        q = p ∧ ∃ pos, positions s !! p = Some pos ∧ owner pos = a)
  ∨ (∃ pos', positions (to_this a p s).2 = positions s ++ [pos'] ∧
             owner pos' = a ∧
             ∀ q, (to_this a p s).1 = Ret q → q = length (positions s)).
Proof.
  unfold to_this.
  destruct (positions s !! p) as [pos|] eqn:Hpos.
  2:{ left. unfold bind, get_position. rewrite Hpos. by split. }
  rewrite (bind_get_position _ _ _ _ Hpos).
  destruct (frames s !! a) as [me|] eqn:Hme.
  2:{ left. unfold bind, get_frame. rewrite Hme. by split. }
  rewrite (bind_get_frame _ _ _ _ Hme).
  destruct (decide (owner pos = a)) as [Ho|Hne].
  { left. split; [done|]. intros q [= <-]. split; [done|]. by exists pos. }
  right.
  set (s1 := mkState (frames s)
                (positions s ++ [mkPosition a num_0 num_0 num_0])
                (route_base s)).
  rewrite (bind_Ret _ _ s (length (positions s)) s1) by reflexivity.
  match goal with
  | |- ∃ pos', positions (?m s1).2 = _ ∧ _ =>
      assert (tail_ok (positions s) a m (λ r, r = length (positions s))) as Ht
  end.
  { eapply tail_ok_bind;
      [apply tail_ok_unchanged, unchanged_pure, get_frame_state|].
    intros own _.
    destruct (decide (parent own = Some a)).
    { eapply tail_ok_bind; [apply tail_ok_unchanged; by intros ?|].
      intros arr _. eapply tail_ok_bind; [apply tail_ok_fill|].
      intros _ _. apply tail_ok_ret. }
    destruct (decide (parent me = Some (owner pos))).
    { eapply tail_ok_bind.
      { apply tail_ok_unchanged. destruct (_mat_from_parent me);
          [by intros ? | apply update_mat_from_parent_positions]. }
      intros _ _. eapply tail_ok_bind;
        [apply tail_ok_unchanged, unchanged_pure, get_frame_state|].
      intros me' _.
      eapply tail_ok_bind; [apply tail_ok_unchanged; by intros ?|].
      intros arr _. eapply tail_ok_bind; [apply tail_ok_fill|].
      intros _ _. apply tail_ok_ret. }
    eapply tail_ok_bind; [apply tail_ok_unchanged, route_positions|].
    intros [r|] _.
    - eapply tail_ok_bind; [apply tail_ok_unchanged, gather_matrices_positions|].
      intros ms _.
      eapply tail_ok_bind; [apply tail_ok_unchanged; by intros ?|].
      intros agg _.
      eapply tail_ok_bind; [apply tail_ok_unchanged; by intros ?|].
      intros arr _. eapply tail_ok_bind; [apply tail_ok_fill|].
      intros _ _. apply tail_ok_ret.
    - eapply tail_ok_bind;
        [apply tail_ok_unchanged, unchanged_pure, Position__str__state|].
      intros sp _.
      eapply tail_ok_bind; [apply tail_ok_unchanged; by intros ?|].
      intros ss _. apply tail_ok_raise. }
  destruct (Ht s1 (mkPosition a num_0 num_0 num_0) eq_refl eq_refl)
    as (q' & H1 & H2 & H3).
  exists q'. by repeat split.
Qed.

(** X7.  Whenever to_this returns, the position it returns is in the store
    and is owned by the frame the call was made on. *)
Theorem to_this_result_owner s a p q s' :
  to_this a p s = (Ret q, s') →
  ∃ pos', positions s' !! q = Some pos' ∧ owner pos' = a.
Proof.
  intros H. destruct (to_this_positions s a p) as [[Hp Hq] | (pos' & Hp & Ho & Hq)];
    rewrite H in *; cbn in *.
  - destruct (Hq q eq_refl) as (-> & pos & Hpos & Hown).
    exists pos. by rewrite Hp.
  - rewrite (Hq q eq_refl), Hp. exists pos'. split; [|done].
    rewrite lookup_app_r by done. by rewrite Nat.sub_diag.
Qed.

Lemma exec_positions o s : positions s `prefix_of` positions (exec o s).
Proof.
  assert (∀ A (m : M A), unchanged positions m →
            positions s `prefix_of` positions (m s).2) as Hu.
  { intros A m Hm. by rewrite Hm. }
  destruct o; cbn.
  - apply Hu. unfold CoordinateSystem_new. repeat unchanged_step.
  - unfold Position_new, bind, get_frame.
    destruct (frames s !! owner_cs); [|done]. cbn. by apply prefix_app_r.
  - apply Hu. unfold redefine. repeat unchanged_step.
  - apply Hu, update_mat_from_parent_positions.
  - apply Hu. unfold get_derivative. do 2 (unchanged_step; [unchanged_step|]).
    destruct a0 as [[[[[x y] z] rx] ry] rz].
    unfold CoordinateSystem_new. repeat unchanged_step.
  - apply Hu. unfold backup. repeat unchanged_step.
  - apply Hu. unfold rollback. repeat unchanged_step.
  - destruct (to_this_positions s self position)
      as [[Hp _] | (pos' & Hp & _)]; rewrite Hp; [done | by apply prefix_app_r].
  - apply Hu, route_positions.
Qed.

(** X8.  None of the calls on frames (the two constructors, redefine,
    update_mat_from_parent, get_derivative, backup, rollback, to_this and
    route) changes or removes a position that exists: the positions of the
    store are only ever extended at the end, so a position handed to
    to_this keeps its owner and coordinates.  Only the tuple setter of
    Position writes to a position that exists. *)
Theorem positions_only_appended ops s :
  positions s `prefix_of` positions (run ops s).
Proof.
  revert s. induction ops as [|o ops IH]; intros s; [done|]. cbn.
  etransitivity; [apply exec_positions | apply IH].
Qed.

(** ** get_derivative, call by call *)

Lemma run_frame_ok_lookup ops a c :
  frames (run ops empty_state) !! a = Some c → frame_ok c.
Proof.
  intros Hc. eapply Forall_lookup_1; [|exact Hc].
  apply (run_frame_ok ops empty_state). constructor.
Qed.

Lemma run_wf ops : frames_wf (frames (run ops empty_state)).
Proof. apply (run_frames_wf ops empty_state). intros b c p Hb. done. Qed.

Lemma run_parent_lt ops a c q :
  frames (run ops empty_state) !! a = Some c → parent c = Some q →
  q < length (frames (run ops empty_state)).
Proof.
  intros Hc Hq. pose proof (run_wf ops a c q Hc Hq).
  apply lookup_lt_Some in Hc. lia.
Qed.

(** X9.  get_derivative on a frame of a store built by calls.  With d_z
    omitted it returns a new frame under the same parent whose x and y are
    offset when d_x and d_y are supplied and whose z and rotations are the
    frame's own; with d_z and all three rotation offsets supplied the new
    frame has z and the rotations offset too; with d_z supplied and a
    rotation offset missing it raises TypeError and the store is as
    before.  The new frame is appended and no other frame is touched. *)
Theorem get_derivative_outcome ops self c nm d_x d_y d_z d_rotx d_roty d_rotz :
  let s := run ops empty_state in
  frames s !! self = Some c →
  let x := match d_x with None => _x c | Some d => num_add (_x c) d end in
  let y := match d_y with None => _y c | Some d => num_add (_y c) d end in
  match d_z, d_rotx, d_roty, d_rotz with
  | None, _, _, _ =>
      get_derivative self nm d_x d_y d_z d_rotx d_roty d_rotz s =
        (Ret (length (frames s)),
         mkState (frames s ++
                  [init_cs (parent c) nm x y (_z c) (_rotx c) (_roty c) (_rotz c)])
           (positions s) (route_base s))
  | Some dz, Some drx, Some dry, Some drz =>
      get_derivative self nm d_x d_y d_z d_rotx d_roty d_rotz s =
        (Ret (length (frames s)),
         mkState (frames s ++
                  [init_cs (parent c) nm x y (num_add (_z c) dz)
                     (num_add (_rotx c) drx) (num_add (_roty c) dry)
                     (num_add (_rotz c) drz)])
           (positions s) (route_base s))
  | Some _, _, _, _ =>
      get_derivative self nm d_x d_y d_z d_rotx d_roty d_rotz s =
        (Raise TypeError, s)
  end.
Proof.
  intros s Hc x y.
  assert (∀ q, parent c = Some q → q < length (frames s)) as Hp.
  { intros q Hq. by eapply run_parent_lt. }
  destruct d_z as [dz|].
  - destruct d_rotx as [drx|], d_roty as [dry|], d_rotz as [drz|];
      first [ by apply get_derivative_run
            | unfold get_derivative;
              rewrite (bind_get_frame _ _ _ _ Hc); reflexivity ].
  - by apply get_derivative_run.
Qed.

(** ** rollback after any calls *)

(** X10.  After backup() on a frame, whatever calls follow that are not
    backup() on that frame, rollback() on it returns and the frame has the
    six scalars it had when backup() was called, with mat_to_parent
    recomputed from them and mat_from_parent None. *)
Theorem rollback_restores_last_backup s a c ops :
  frames s !! a = Some c →
  Forall (λ o, o ≠ Backup a) ops →
  let s1 := run (Backup a :: ops) s in
  (rollback a s1).1 = Ret tt ∧
  ∃ c', frames (rollback a s1).2 !! a = Some c' ∧
        pose c' = pose c ∧
        _mat_to_parent c' = Some (calc_of_pose c) ∧
        _mat_from_parent c' = None.
Proof.
  intros Hc Hops s1.
  assert (∃ c1, frames s1 !! a = Some c1 ∧ stored c1 = pose c) as (c1 & Hc1 & Hst).
  { unfold s1. cbn [run foldl exec]. rewrite (backup_run s a c Hc). cbn [snd].
    apply (run_keeps_stored ops _ a (backup_cs c) Hops).
    cbn [frames]. apply list_lookup_insert_eq. by eapply lookup_lt_Some. }
  rewrite (rollback_run s1 a c1 Hc1). cbn [fst snd frames]. split; [done|].
  exists (rollback_cs c1).
  destruct (rollback_cs_fields c1 _ eq_refl) as (_ & _ & Hp & _ & Hm & Hf).
  rewrite Hst in Hp.
  split; [apply list_lookup_insert_eq; by eapply lookup_lt_Some|].
  split; [done|]. split; [|done].
  rewrite Hm. f_equal. by apply calc_of_pose_eq.
Qed.

(** ** redefine twice *)

Lemma redefine_cs_twice c nx ny nz nrx nry nrz mx my mz mrx mry mrz :
  redefine_cs mx my mz mrx mry mrz (redefine_cs nx ny nz nrx nry nrz c) =
  redefine_cs (mx ∪ nx) (my ∪ ny) (mz ∪ nz) (mrx ∪ nrx) (mry ∪ nry)
    (mrz ∪ nrz) c.
Proof.
  destruct c. destruct nx, mx; destruct ny, my; destruct nz, mz;
    destruct nrx, mrx; destruct nry, mry; destruct nrz, mrz; reflexivity.
Qed.

(** X11.  Two redefine calls on a frame amount to one: each scalar takes
    the value of the second call where that call supplies it, else the
    value of the first call where that one supplies it, else it stays. *)
Theorem redefine_twice s a nx ny nz nrx nry nrz mx my mz mrx mry mrz :
  run [Redefine a nx ny nz nrx nry nrz; Redefine a mx my mz mrx mry mrz] s =
  run [Redefine a (mx ∪ nx) (my ∪ ny) (mz ∪ nz) (mrx ∪ nrx) (mry ∪ nry)
         (mrz ∪ nrz)] s.
Proof.
  cbn [run foldl exec].
  destruct (frames s !! a) as [c|] eqn:Hc.
  - rewrite (redefine_run s a c _ _ _ _ _ _ Hc). cbn [snd].
    assert (a < length (frames s)) as Hlt by (by eapply lookup_lt_Some).
    erewrite redefine_run by (cbn [frames]; by apply list_lookup_insert_eq).
    rewrite (redefine_run s a c _ _ _ _ _ _ Hc). cbn [snd frames positions route_base].
    by rewrite list_insert_insert_eq, redefine_cs_twice.
  - unfold redefine, bind, get_frame. rewrite Hc. cbn. by rewrite Hc.
Qed.

(** ** Conversion reads poses and writes only cached inverses *)

Lemma same_but_inverse_refl c : same_but_inverse c c.
Proof. by destruct c. Qed.

Lemma same_but_inverse_trans c1 c2 c3 :
  same_but_inverse c1 c2 → same_but_inverse c2 c3 → same_but_inverse c1 c3.
Proof. unfold same_but_inverse. intros -> ->. by destruct c1. Qed.

Lemma Forall2_same_refl fs : Forall2 same_but_inverse fs fs.
Proof. induction fs; constructor; [apply same_but_inverse_refl | done]. Qed.

Lemma Forall2_same_trans fs1 fs2 fs3 :
  Forall2 same_but_inverse fs1 fs2 → Forall2 same_but_inverse fs2 fs3 →
  Forall2 same_but_inverse fs1 fs3.
Proof.
  intros H12. revert fs3. induction H12 as [|c1 c2 l1 l2 Hc _ IH]; intros fs3 H23.
  - by inversion H23.
  - inversion H23 as [|? c3 ? l3 Hc' Hl']; subst. constructor.
    + by eapply same_but_inverse_trans.
    + by apply IH.
Qed.

Lemma inverses_only_unchanged {A} (m : M A) : unchanged frames m → inverses_only m.
Proof. intros H s. rewrite H. apply Forall2_same_refl. Qed.

Lemma inverses_only_bind {A B} (m : M A) (k : A → M B) :
  inverses_only m → (∀ a, inverses_only (k a)) → inverses_only (bind m k).
Proof.
  intros Hm Hk s. unfold bind. specialize (Hm s).
  destruct (m s) as [[a|e|] s']; cbn in *; [|done|done].
  eapply Forall2_same_trans; [exact Hm | apply Hk].
Qed.

Lemma update_mat_from_parent_inverses_only a : inverses_only (update_mat_from_parent a).
Proof.
  intros s. unfold update_mat_from_parent, bind, get_frame, lift.
  destruct (frames s !! a) as [c|] eqn:Hc; [|apply Forall2_same_refl].
  unfold update_mat_from_parent_cs.
  destruct (_mat_to_parent c); [|apply Forall2_same_refl].
  destruct (numpy_linalg_inv m); [|apply Forall2_same_refl]. cbn.
  rewrite <- (list_insert_id (frames s) a c Hc) at 1.
  apply Forall2_insert; [apply Forall2_same_refl | done].
Qed.

Lemma gather_matrices_inverses_only r acc : inverses_only (gather_matrices r acc).
Proof.
  revert acc. induction r as [|[node d] r IH]; intros acc; cbn.
  - apply inverses_only_unchanged. by intros s.
  - destruct d.
    + apply inverses_only_bind;
        [apply inverses_only_unchanged, unchanged_pure, get_frame_state|].
      intros c. apply IH.
    + apply inverses_only_bind;
        [apply inverses_only_unchanged, unchanged_pure, get_frame_state|].
      intros c. apply inverses_only_bind.
      { destruct (_mat_from_parent c);
          [apply inverses_only_unchanged; by intros s
          | apply update_mat_from_parent_inverses_only]. }
      intros _. apply inverses_only_bind;
        [apply inverses_only_unchanged, unchanged_pure, get_frame_state|].
      intros c'. apply IH.
    + apply IH.
Qed.

Lemma to_this_inverses_only a p : inverses_only (to_this a p).
Proof.
  unfold to_this.
  apply inverses_only_bind;
    [apply inverses_only_unchanged, unchanged_pure, get_position_state|].
  intros pos.
  apply inverses_only_bind;
    [apply inverses_only_unchanged, unchanged_pure, get_frame_state|].
  intros me.
  destruct (decide (owner pos = a));
    [apply inverses_only_unchanged; by intros s|].
  apply inverses_only_bind; [apply inverses_only_unchanged; by intros s|].
  intros q.
  apply inverses_only_bind;
    [apply inverses_only_unchanged, unchanged_pure, get_frame_state|].
  intros own.
  destruct (decide (parent own = Some a)).
  { apply inverses_only_unchanged. repeat unchanged_step. }
  destruct (decide (parent me = Some (owner pos))).
  { apply inverses_only_bind.
    { destruct (_mat_from_parent me);
        [apply inverses_only_unchanged; by intros s
        | apply update_mat_from_parent_inverses_only]. }
    intros _. apply inverses_only_unchanged. repeat unchanged_step. }
  apply inverses_only_bind; [apply inverses_only_unchanged, route_frames|].
  intros [r|].
  - apply inverses_only_bind; [apply gather_matrices_inverses_only|].
    intros ms. apply inverses_only_unchanged. repeat unchanged_step.
  - apply inverses_only_unchanged.
    unchanged_step; [apply unchanged_pure, Position__str__state|].
    repeat unchanged_step.
Qed.

(** X12.  to_this allocates no frame and, in every frame, changes nothing
    but the cached mat_from_parent: parent, name, the six scalars, the
    backup slot and mat_to_parent are as before, whether the call returns
    or raises. *)
Theorem to_this_keeps_poses s a p :
  length (frames (to_this a p s).2) = length (frames s) ∧
  ∀ b c, frames s !! b = Some c →
    ∃ c', frames (to_this a p s).2 !! b = Some c' ∧
          parent c' = parent c ∧ name c' = name c ∧
          pose c' = pose c ∧ stored c' = stored c ∧
          _mat_to_parent c' = _mat_to_parent c.
Proof.
  pose proof (to_this_inverses_only a p s) as H. split.
  - symmetry. by eapply Forall2_length.
  - intros b c Hc.
    destruct (Forall2_lookup_l _ _ _ _ _ H Hc) as (c' & Hc' & Hs).
    exists c'. split; [done|]. rewrite Hs. by destruct c.
Qed.

(** ** to_this between a frame and its parent, in a store built by calls *)

(** X13.  A position owned by a frame is converted to the frame's parent by
    multiplying the matrix of the frame's current pose with [x, y, z, 1]:
    the call returns a new position owned by the parent, holding the first
    three entries of the product, and changes neither the frames nor the
    cache. *)
Theorem to_this_to_parent ops F G cF p pos :
  let s := run ops empty_state in
  frames s !! F = Some cF →
  parent cF = Some G →
  positions s !! p = Some pos →
  owner pos = F →
  to_this G p s =
    (Ret (length (positions s)),
     mkState (frames s)
       (positions s ++
        [filled G (numpy_dot_col (calc_of_pose cF)
                     (pos_x pos, pos_y pos, pos_z pos, num_1))])
       (route_base s)).
Proof.
  intros s HF Hpar Hpos Hown.
  destruct (run_frame_ok_lookup ops F cF HF) as [Hto _].
  pose proof (run_wf ops F cF G HF Hpar) as Hlt.
  assert (F < length (frames s)) as HFlen by (by eapply lookup_lt_Some).
  destruct (lookup_lt_is_Some_2 (frames s) G) as [cG HG]; [lia|].
  apply (to_this_from_child s G p pos cG cF); try done.
  - by rewrite Hown.
  - rewrite Hown. lia.
Qed.

Lemma to_this_from_parent_singular s self position pos me own m :
  positions s !! position = Some pos →
  frames s !! self = Some me →
  frames s !! owner pos = Some own →
  owner pos ≠ self →
  parent own ≠ Some self →
  parent me = Some (owner pos) →
  _mat_to_parent me = Some m →
  _mat_from_parent me = None →
  numpy_linalg_inv m = None →
  (to_this self position s).1 = Raise LinAlgError ∧
  frames (to_this self position s).2 = frames s.
Proof.
  intros Hpos Hme Hown Hne Hnp Hpar Hm Hfrom Hinv. unfold to_this.
  rewrite (bind_get_position _ _ _ _ Hpos), (bind_get_frame _ _ _ _ Hme).
  rewrite decide_False by done.
  set (s1 := mkState (frames s)
                (positions s ++ [mkPosition self num_0 num_0 num_0])
                (route_base s)).
  rewrite (bind_Ret _ _ s (length (positions s)) s1) by reflexivity.
  rewrite (bind_get_frame s1 _ _ _ Hown).
  rewrite decide_False by done. rewrite decide_True by done.
  rewrite Hfrom.
  rewrite (bind_Raise _ _ s1 LinAlgError s1); [done|].
  unfold update_mat_from_parent.
  rewrite (bind_get_frame s1 _ _ _ Hme).
  unfold update_mat_from_parent_cs. by rewrite Hm, Hinv.
Qed.

(** X14.  A position owned by the parent of a frame is converted to the
    frame with numpy.linalg.inv of the matrix of the frame's current pose,
    whatever was cached before: when the inverse exists the call returns a
    new position owned by the frame, holding the first three entries of the
    product with [x, y, z, 1], and the frame keeps that inverse as
    mat_from_parent; when numpy.linalg.inv fails the call raises
    LinAlgError and no frame changes. *)
Theorem to_this_from_parent_frame ops F G cF p pos :
  let s := run ops empty_state in
  frames s !! F = Some cF →
  parent cF = Some G →
  positions s !! p = Some pos →
  owner pos = G →
  match numpy_linalg_inv (calc_of_pose cF) with
  | Some mi =>
      to_this F p s =
        (Ret (length (positions s)),
         mkState (<[F:=set_mat_from_parent (Some mi) cF]> (frames s))
           (positions s ++
            [filled F (numpy_dot_col mi
                         (pos_x pos, pos_y pos, pos_z pos, num_1))])
           (route_base s))
  | None =>
      (to_this F p s).1 = Raise LinAlgError ∧
      frames (to_this F p s).2 = frames s
  end.
Proof.
  intros s HF Hpar Hpos Hown.
  destruct (run_frame_ok_lookup ops F cF HF) as [Hto Hfrom].
  pose proof (run_wf ops F cF G HF Hpar) as Hlt.
  assert (F < length (frames s)) as HFlen by (by eapply lookup_lt_Some).
  destruct (lookup_lt_is_Some_2 (frames s) G) as [cG HG]; [lia|].
  assert (parent cG ≠ Some F) as HnG.
  { intros Hp. pose proof (run_wf ops G cG F HG Hp). lia. }
  subst G.
  destruct (numpy_linalg_inv (calc_of_pose cF)) as [mi|] eqn:Hinv.
  - apply (to_this_from_parent s F p pos cF (calc_of_pose cF) mi); try done.
    + lia.
    + intros own Ho. by assert (own = cG) as -> by congruence.
    + destruct Hfrom as [Hn | (mi' & Hmi' & Hs)]; [by left | right].
      congruence.
  - apply (to_this_from_parent_singular s F p pos cF cG (calc_of_pose cF));
      try done; [lia|].
    destruct Hfrom as [Hn | (mi' & Hmi' & Hs)]; [done | congruence].
Qed.

(** ** to_this along a route *)

Lemma calc_of_pose_same c c' :
  same_but_inverse c c' → calc_of_pose c' = calc_of_pose c.
Proof. intros ->. by destruct c. Qed.

Lemma route_matrices_same fs fs' r :
  Forall2 same_but_inverse fs fs' → route_matrices fs' r = route_matrices fs r.
Proof.
  intros H. induction r as [|[n d] r IH]; [done|]. cbn.
  destruct d; [| |done].
  - destruct (fs !! n) as [c|] eqn:Hc.
    + destruct (Forall2_lookup_l _ _ _ _ _ H Hc) as (c' & -> & Hs).
      by rewrite (calc_of_pose_same c c' Hs), IH.
    + assert (fs' !! n = None) as ->; [|done].
      apply lookup_ge_None. apply lookup_ge_None in Hc.
      by rewrite <- (Forall2_length _ _ _ H).
  - destruct (fs !! n) as [c|] eqn:Hc.
    + destruct (Forall2_lookup_l _ _ _ _ _ H Hc) as (c' & -> & Hs).
      by rewrite (calc_of_pose_same c c' Hs), IH.
    + assert (fs' !! n = None) as ->; [|done].
      apply lookup_ge_None. apply lookup_ge_None in Hc.
      by rewrite <- (Forall2_length _ _ _ H).
Qed.

(** The loop of to_this over a route: it collects the matrices of the
    route and leaves the store as it was but for inverses it caches. *)
Lemma gather_matrices_run r : ∀ s acc ms,
  Forall frame_ok (frames s) →
  route_matrices (frames s) r = Some ms →
  gather_matrices r acc s =
    (Ret (acc ++ (Some <$> ms)),
     mkState (cache_inverses (frames s) r) (positions s) (route_base s)).
Proof.
  induction r as [|[n d] r IH]; intros s acc ms Hok Hms; cbn in *.
  - injection Hms as <-. rewrite app_nil_r. by destruct s.
  - destruct d.
    + destruct (frames s !! n) as [c|] eqn:Hc; [|done].
      destruct (route_matrices (frames s) r) as [ms'|] eqn:Hr; [|done].
      injection Hms as <-.
      rewrite (bind_get_frame _ _ _ _ Hc).
      rewrite (IH s (acc ++ [_mat_to_parent c]) ms' Hok Hr).
      destruct (Forall_lookup_1 _ _ _ _ Hok Hc) as [Hto _].
      rewrite Hto. cbn. by rewrite <- app_assoc.
    + destruct (frames s !! n) as [c|] eqn:Hc; [|done].
      destruct (numpy_linalg_inv (calc_of_pose c)) as [mi|] eqn:Hinv; [|done].
      destruct (route_matrices (frames s) r) as [ms'|] eqn:Hr; [|done].
      injection Hms as <-.
      rewrite (bind_get_frame _ _ _ _ Hc).
      destruct (Forall_lookup_1 _ _ _ _ Hok Hc) as [Hto Hfrom].
      set (s1 := mkState (<[n:=set_mat_from_parent (Some mi) c]> (frames s))
                   (positions s) (route_base s)).
      assert (n < length (frames s)) as Hlt by (by eapply lookup_lt_Some).
      assert (Forall2 same_but_inverse (frames s) (frames s1)) as H12.
      { cbn. rewrite <- (list_insert_id (frames s) n c Hc) at 1.
        apply Forall2_insert; [apply Forall2_same_refl | done]. }
      assert (Forall frame_ok (frames s1)) as Hok1.
      { cbn. apply Forall_insert; [done|]. split; [exact Hto|].
        right. by exists mi. }
      rewrite (bind_Ret _ _ s tt s1).
      2:{ destruct Hfrom as [Hf | (mi' & Hmi' & Hf)]; rewrite Hf.
          - by apply (update_mat_from_parent_run s n c (calc_of_pose c) mi).
          - unfold ret, s1. f_equal. destruct s; cbn. f_equal.
            symmetry. apply list_insert_id. cbn in Hc. rewrite Hc. f_equal.
            assert (mi' = mi) as -> by congruence.
            destruct c; cbn in *. by rewrite Hf. }
      rewrite (bind_get_frame s1 n (set_mat_from_parent (Some mi) c))
        by (by apply list_lookup_insert_eq).
      cbn [_mat_from_parent set_mat_from_parent].
      rewrite (IH s1 (acc ++ [Some mi]) ms' Hok1)
        by (by rewrite (route_matrices_same (frames s) (frames s1))).
      cbn [s1 frames positions route_base].
      by rewrite <- app_assoc.
    + by apply IH.
Qed.

(** Walking a route changes nothing in a frame but the cached inverse. *)
Lemma cache_inverses_same r : ∀ fs,
  Forall2 same_but_inverse fs (cache_inverses fs r).
Proof.
  induction r as [|[n d] r IH]; intros fs; cbn; [apply Forall2_same_refl|].
  destruct d; [apply IH| |apply IH].
  destruct (fs !! n) as [c|] eqn:Hc; [|apply Forall2_same_refl].
  destruct (numpy_linalg_inv (calc_of_pose c)); [|apply Forall2_same_refl].
  eapply Forall2_same_trans; [|apply IH].
  rewrite <- (list_insert_id fs n c Hc) at 1.
  apply Forall2_insert; [apply Forall2_same_refl | done].
Qed.

Lemma foldl_dot_opt m rest :
  foldl (λ acc x, match acc with
                  | Ret a => dot_opt a x
                  | other => other
                  end) (Ret (Some m)) (Some <$> rest) =
  Ret (Some (foldl numpy_dot m rest)).
Proof.
  revert m. induction rest as [|x rest IH]; intros m; [done|]. cbn. apply IH.
Qed.

Lemma reduce_dot_compose ms m :
  compose_matrices ms = Some m →
  reduce_dot (reverse (Some <$> ms)) = Ret (Some m).
Proof.
  unfold compose_matrices. rewrite <- fmap_reverse.
  destruct (reverse ms) as [|m0 rest]; [done|]. intros [= <-]. cbn.
  apply foldl_dot_opt.
Qed.

(** route looks at the frames and the cache only. *)
Lemma route_other_positions s a b ps :
  route a b (mkState (frames s) ps (route_base s)) =
  ((route a b s).1,
   mkState (frames s) ps (route_base (route a b s).2)).
Proof.
  unfold route, bind, get_frame, to_root, to_root_list.
  cbn [frames route_base].
  destruct (frames s !! a) as [f|]; cbn; [|done].
  destruct (frames s !! b) as [t|]; cbn; [|done].
  destruct (route_base s !! _) as [r0|]; cbn; [done|].
  destruct (to_root_from _ _ a) as [l1|]; cbn; [|done].
  destruct (to_root_from _ _ b) as [l2|]; cbn; [|done].
  by destruct (build_route l1 l2 []).
Qed.

Lemma to_this_along_route_run s self position pos me own r s1 ms m :
  Forall frame_ok (frames s) →
  positions s !! position = Some pos →
  frames s !! self = Some me →
  frames s !! owner pos = Some own →
  owner pos ≠ self →
  parent own ≠ Some self →
  parent me ≠ Some (owner pos) →
  route (owner pos) self s = (Ret (Some r), s1) →
  route_matrices (frames s) r = Some ms →
  compose_matrices ms = Some m →
  to_this self position s =
    (Ret (length (positions s)),
     mkState (cache_inverses (frames s) r)
       (positions s ++
        [filled self (numpy_dot_col m (pos_x pos, pos_y pos, pos_z pos, num_1))])
       (route_base s1)).
Proof.
  intros Hok Hpos Hme Hown Hne Hn1 Hn2 Hroute Hms Hm.
  set (sa := mkState (frames s)
                (positions s ++ [mkPosition self num_0 num_0 num_0])
                (route_base s)).
  set (sb := mkState (frames s)
                (positions s ++ [mkPosition self num_0 num_0 num_0])
                (route_base s1)).
  assert (route (owner pos) self sa = (Ret (Some r), sb)) as Hroute'.
  { unfold sa. rewrite route_other_positions, Hroute. reflexivity. }
  unfold to_this.
  rewrite (bind_get_position _ _ _ _ Hpos), (bind_get_frame _ _ _ _ Hme).
  rewrite decide_False by done.
  rewrite (bind_Ret _ _ s (length (positions s)) sa) by reflexivity.
  rewrite (bind_get_frame sa _ _ _ Hown).
  rewrite decide_False by done. rewrite decide_False by done.
  rewrite (bind_Ret _ _ sa (Some r) sb Hroute').
  erewrite bind_Ret by (by apply (gather_matrices_run r sb [] ms)).
  cbn [app]. rewrite (reduce_dot_compose ms m Hm).
  erewrite bind_Ret by reflexivity.
  cbn [dot_col_opt].
  erewrite bind_Ret by reflexivity.
  erewrite bind_Ret by apply fill_position_run.
  unfold ret. cbn [sb frames positions route_base]. by rewrite alloc_then_fill.
Qed.

(** X15.  to_this between frames that are not each other's parent, when
    route() returns a path: the matrices of the path are multiplied, the
    matrix of the first step rightmost, and the product is applied to
    [x, y, z, 1].  The call returns a new position owned by the target
    frame; the store afterwards has the cache as route() left it, the new
    position appended, and the inverse of each "down" frame cached. *)
Theorem to_this_along_route ops self position pos me own r s1 ms m :
  let s := run ops empty_state in
  positions s !! position = Some pos →
  frames s !! self = Some me →
  frames s !! owner pos = Some own →
  owner pos ≠ self →
  parent own ≠ Some self →
  parent me ≠ Some (owner pos) →
  route (owner pos) self s = (Ret (Some r), s1) →
  route_matrices (frames s) r = Some ms →
  compose_matrices ms = Some m →
  to_this self position s =
    (Ret (length (positions s)),
     mkState (cache_inverses (frames s) r)
       (positions s ++
        [filled self (numpy_dot_col m (pos_x pos, pos_y pos, pos_z pos, num_1))])
       (route_base s1)).
Proof.
  intros s. apply to_this_along_route_run.
  apply (run_frame_ok ops empty_state). constructor.
Qed.

(** ** Ancestor chains in a well-founded tree *)

Lemma to_root_from_fuel fs :
  frames_wf fs →
  ∀ f1 f2 a, a < f1 → a < f2 → to_root_from f1 fs a = to_root_from f2 fs a.
Proof.
  intros Hwf f1. induction f1 as [|f1 IH]; intros f2 a H1 H2; [lia|].
  destruct f2 as [|f2]; [lia|]. cbn.
  destruct (fs !! a) as [c|] eqn:Hc; [|done].
  destruct (parent c) as [p|] eqn:Hp; [|done].
  pose proof (Hwf a c p Hc Hp). by rewrite (IH f2 p) by lia.
Qed.

Lemma to_root_list_child fs a c p :
  frames_wf fs → fs !! a = Some c → parent c = Some p →
  to_root_list fs a = (a ::.) <$> to_root_list fs p.
Proof.
  intros Hwf Hc Hp. unfold to_root_list.
  pose proof (lookup_lt_Some _ _ _ Hc) as Hlt.
  pose proof (Hwf a c p Hc Hp) as Hpa.
  destruct (length fs) as [|n] eqn:Hn; [lia|]. cbn [to_root_from].
  rewrite Hc, Hp. by rewrite (to_root_from_fuel fs Hwf n (S n) p) by lia.
Qed.

Lemma to_root_list_root fs a c :
  fs !! a = Some c → parent c = None → to_root_list fs a = Some [a].
Proof.
  intros Hc Hp. unfold to_root_list.
  pose proof (lookup_lt_Some _ _ _ Hc) as Hlt.
  destruct (length fs) as [|n]; [lia|]. cbn. by rewrite Hc, Hp.
Qed.

Lemma to_root_from_le fs :
  frames_wf fs →
  ∀ fuel a l, to_root_from fuel fs a = Some l → Forall (λ n : nat, (n ≤ a)%nat) l.
Proof.
  intros Hwf fuel. induction fuel as [|fuel IH]; intros a l; [done|]. cbn.
  destruct (fs !! a) as [c|] eqn:Hc; [|done].
  destruct (parent c) as [p|] eqn:Hp.
  - destruct (to_root_from fuel fs p) as [l'|] eqn:Hl; [|done].
    intros [= <-]. constructor; [done|].
    pose proof (Hwf a c p Hc Hp).
    eapply Forall_impl; [by apply (IH p)|]. cbn. intros n Hn. lia.
  - intros [= <-]. by repeat constructor.
Qed.

Lemma list_index_above l a node :
  Forall (λ n : nat, (n ≤ a)%nat) l → a < node → list_index node l = None.
Proof.
  intros Hl Hlt. apply list_index_None. intros Hin.
  rewrite Forall_forall in Hl. specialize (Hl node Hin). lia.
Qed.

Lemma list_index_head node l : list_index node (node :: l) = Some 0.
Proof. cbn. by rewrite decide_True. Qed.

(** ** A first call of route *)

Lemma route_miss s a b f t r :
  frames s !! a = Some f → frames s !! b = Some t →
  route_base s !! route_desc_of (name f) (name t) = None →
  fresh_route (frames s) a b = Some r →
  route a b s =
    (Ret (Some r),
     mkState (frames s) (positions s)
       (<[route_desc_of (name f) (name t):=r]> (route_base s))).
Proof.
  intros Hf Ht Hc Hr. unfold route.
  rewrite (bind_get_frame _ _ _ _ Hf), (bind_get_frame _ _ _ _ Ht), Hc.
  unfold fresh_route in Hr.
  destruct (to_root_list (frames s) a) as [l1|] eqn:H1; [|done].
  destruct (to_root_list (frames s) b) as [l2|] eqn:H2; [|done].
  rewrite (bind_to_root _ _ _ _ H1), (bind_to_root _ _ _ _ H2). by rewrite Hr.
Qed.

(** The path from a frame to the parent of its parent. *)
Lemma fresh_route_grandparent fs A B C cB cC :
  frames_wf fs →
  fs !! C = Some cC → parent cC = Some B →
  fs !! B = Some cB → parent cB = Some A →
  is_Some (to_root_list fs A) →
  fresh_route fs C A = Some [(C, up); (B, up); (A, root)].
Proof.
  intros Hwf HC HpC HB HpB [lA HlA]. unfold fresh_route.
  rewrite (to_root_list_child fs C cC B Hwf HC HpC).
  rewrite (to_root_list_child fs B cB A Hwf HB HpB), HlA.
  cbn [fmap option_fmap option_map].
  pose proof (to_root_from_le fs Hwf _ _ _ HlA) as Hle.
  destruct (to_root_from_head _ _ _ _ HlA) as [l' ->].
  pose proof (Hwf C cC B HC HpC). pose proof (Hwf B cB A HB HpB).
  cbn [build_route]. rewrite (list_index_above _ A C Hle) by lia.
  cbn [build_route]. rewrite (list_index_above _ A B Hle) by lia.
  cbn [build_route]. rewrite list_index_head. cbn. done.
Qed.

(** The path between two children of one frame. *)
Lemma fresh_route_siblings fs R S1 S2 c1 c2 :
  frames_wf fs →
  fs !! S1 = Some c1 → parent c1 = Some R →
  fs !! S2 = Some c2 → parent c2 = Some R →
  S1 ≠ S2 →
  is_Some (to_root_list fs R) →
  fresh_route fs S1 S2 = Some [(S1, up); (R, root); (S2, down)].
Proof.
  intros Hwf H1 Hp1 H2 Hp2 Hne [lR HlR]. unfold fresh_route.
  rewrite (to_root_list_child fs S1 c1 R Hwf H1 Hp1).
  rewrite (to_root_list_child fs S2 c2 R Hwf H2 Hp2), HlR.
  cbn [fmap option_fmap option_map].
  pose proof (to_root_from_le fs Hwf _ _ _ HlR) as Hle.
  destruct (to_root_from_head _ _ _ _ HlR) as [l' ->].
  pose proof (Hwf S1 c1 R H1 Hp1). pose proof (Hwf S2 c2 R H2 Hp2).
  assert (list_index S1 (S2 :: R :: l') = None) as Hi1.
  { apply list_index_None. intros Hin.
    apply elem_of_cons in Hin as [->|Hin]; [done|].
    rewrite Forall_forall in Hle. specialize (Hle S1 Hin). lia. }
  assert (list_index R (S2 :: R :: l') = Some 1) as Hi2.
  { cbn [list_index]. rewrite decide_False by lia. by rewrite decide_True. }
  cbn [build_route]. rewrite Hi1. cbn [build_route]. rewrite Hi2. cbn. done.
Qed.

Lemma run_to_root_Some ops a :
  a < length (frames (run ops empty_state)) →
  is_Some (to_root_list (frames (run ops empty_state)) a).
Proof.
  intros Ha.
  destruct (to_root_from_chain (frames (run ops empty_state)) (run_wf ops)
              (length (frames (run ops empty_state))) a)
    as (l & Hl & _); [done|done|]. by exists l.
Qed.

Lemma to_this_from_grandchild_run s A B C cA cB cC p pos :
  frames_wf (frames s) →
  Forall frame_ok (frames s) →
  is_Some (to_root_list (frames s) A) →
  frames s !! A = Some cA →
  frames s !! B = Some cB → parent cB = Some A →
  frames s !! C = Some cC → parent cC = Some B →
  positions s !! p = Some pos → owner pos = C →
  route_base s !! route_desc_of (name cC) (name cA) = None →
  to_this A p s =
    (Ret (length (positions s)),
     mkState (frames s)
       (positions s ++
        [filled A (numpy_dot_col (numpy_dot (calc_of_pose cB) (calc_of_pose cC))
                     (pos_x pos, pos_y pos, pos_z pos, num_1))])
       (<[route_desc_of (name cC) (name cA):=[(C, up); (B, up); (A, root)]]>
          (route_base s))).
Proof.
  intros Hwf Hok HrA HA HB HpB HC HpC Hpos Hown Hcache. subst C.
  pose proof (Hwf _ _ _ HC HpC) as HltC. pose proof (Hwf _ _ _ HB HpB) as HltB.
  assert (fresh_route (frames s) (owner pos) A =
          Some [(owner pos, up); (B, up); (A, root)]) as Hfresh.
  { by apply (fresh_route_grandparent _ A B (owner pos) cB cC). }
  pose proof (route_miss s (owner pos) A cC cA _ HC HA Hcache Hfresh) as Hroute.
  assert (owner pos ≠ A) as Hn0 by lia.
  assert (parent cC ≠ Some A) as Hn1 by (rewrite HpC; intros [= ->]; lia).
  assert (parent cA ≠ Some (owner pos)) as Hn2.
  { intros Hp. pose proof (Hwf _ _ _ HA Hp). lia. }
  assert (route_matrices (frames s) [(owner pos, up); (B, up); (A, root)] =
          Some [calc_of_pose cC; calc_of_pose cB]) as Hms.
  { cbn. by rewrite HC, HB. }
  exact (to_this_along_route_run s A p pos cA cC _ _ _
           (numpy_dot (calc_of_pose cB) (calc_of_pose cC))
           Hok Hpos HA HC Hn0 Hn1 Hn2 Hroute Hms eq_refl).
Qed.

(** X16.  The first conversion of a position from a frame C to the parent
    A of its parent B (no entry under their key yet): route() finds
    C up, B up, A root and stores it, and to_this applies the product
    (matrix of B's pose) . (matrix of C's pose) to [x, y, z, 1]; no frame
    changes. *)
Theorem to_this_from_grandchild ops A B C cA cB cC p pos :
  let s := run ops empty_state in
  frames s !! A = Some cA →
  frames s !! B = Some cB → parent cB = Some A →
  frames s !! C = Some cC → parent cC = Some B →
  positions s !! p = Some pos → owner pos = C →
  route_base s !! route_desc_of (name cC) (name cA) = None →
  to_this A p s =
    (Ret (length (positions s)),
     mkState (frames s)
       (positions s ++
        [filled A (numpy_dot_col (numpy_dot (calc_of_pose cB) (calc_of_pose cC))
                     (pos_x pos, pos_y pos, pos_z pos, num_1))])
       (<[route_desc_of (name cC) (name cA):=[(C, up); (B, up); (A, root)]]>
          (route_base s))).
Proof.
  intros s HA. apply to_this_from_grandchild_run; [apply run_wf | | | done].
  - apply (run_frame_ok ops empty_state). constructor.
  - apply run_to_root_Some. by eapply lookup_lt_Some.
Qed.

(** X17.  The first conversion of a position between two children S1 and
    S2 of one frame R: route() finds S1 up, R root, S2 down and stores it;
    to_this applies (inverse of the matrix of S2's pose) . (matrix of S1's
    pose) to [x, y, z, 1] and leaves that inverse cached in S2. *)
Theorem to_this_between_siblings ops R S1 S2 cR c1 c2 p pos mi :
  let s := run ops empty_state in
  frames s !! R = Some cR →
  frames s !! S1 = Some c1 → parent c1 = Some R →
  frames s !! S2 = Some c2 → parent c2 = Some R →
  S1 ≠ S2 →
  positions s !! p = Some pos → owner pos = S1 →
  route_base s !! route_desc_of (name c1) (name c2) = None →
  numpy_linalg_inv (calc_of_pose c2) = Some mi →
  to_this S2 p s =
    (Ret (length (positions s)),
     mkState (<[S2:=set_mat_from_parent (Some mi) c2]> (frames s))
       (positions s ++
        [filled S2 (numpy_dot_col (numpy_dot mi (calc_of_pose c1))
                      (pos_x pos, pos_y pos, pos_z pos, num_1))])
       (<[route_desc_of (name c1) (name c2):=[(S1, up); (R, root); (S2, down)]]>
          (route_base s))).
Proof.
  intros s HR H1 Hp1 H2 Hp2 Hne Hpos Hown Hcache Hinv. subst S1.
  pose proof (run_wf ops) as Hwf. fold s in Hwf.
  pose proof (Hwf _ _ _ H1 Hp1) as Hlt1. pose proof (Hwf _ _ _ H2 Hp2) as Hlt2.
  assert (Forall frame_ok (frames s)) as Hok.
  { apply (run_frame_ok ops empty_state). constructor. }
  assert (fresh_route (frames s) (owner pos) S2 =
          Some [(owner pos, up); (R, root); (S2, down)]) as Hfresh.
  { apply (fresh_route_siblings _ R (owner pos) S2 c1 c2); try done.
    apply run_to_root_Some. by eapply lookup_lt_Some. }
  pose proof (route_miss s (owner pos) S2 c1 c2 _ H1 H2 Hcache Hfresh) as Hroute.
  assert (parent c1 ≠ Some S2) as Hn1 by (rewrite Hp1; intros [= ->]; lia).
  assert (parent c2 ≠ Some (owner pos)) as Hn2
    by (rewrite Hp2; intros [= ->]; lia).
  assert (route_matrices (frames s) [(owner pos, up); (R, root); (S2, down)] =
          Some [calc_of_pose c1; mi]) as Hms.
  { cbn. by rewrite H1, H2, Hinv. }
  rewrite (to_this_along_route_run s S2 p pos c2 c1 _ _ _
             (numpy_dot mi (calc_of_pose c1))
             Hok Hpos H2 H1 Hne Hn1 Hn2 Hroute Hms eq_refl).
  cbn [cache_inverses]. by rewrite H2, Hinv.
Qed.

(** ** Positions: copies and aliases *)

(** X18.  clone returns a new position with the owner and coordinates of
    the original; assigning the tuple of the copy afterwards changes the
    copy and leaves the original as it was. *)
Theorem clone_is_independent s p pos t :
  positions s !! p = Some pos →
  ∃ s1 s2,
    Position_clone p s = (Ret (length (positions s)), s1) ∧
    positions s1 !! length (positions s) = Some pos ∧
    Position_set_tuple (length (positions s)) t s1 = (Ret tt, s2) ∧
    Position_tuple (length (positions s)) s2 = (Ret t, s2) ∧
    positions s2 !! p = Some pos.
Proof.
  intros Hpos. destruct t as [[x y] z].
  pose proof (lookup_lt_Some _ _ _ Hpos) as Hlt.
  set (n := length (positions s)).
  set (s1 := mkState (frames s) (positions s ++ [pos]) (route_base s)).
  set (s2 := mkState (frames s)
               (<[n:=mkPosition (owner pos) x y z]> (positions s ++ [pos]))
               (route_base s)).
  assert (positions s1 !! n = Some pos) as H1.
  { cbn. rewrite lookup_app_r by done. by rewrite Nat.sub_diag. }
  exists s1, s2. repeat split.
  - unfold Position_clone. rewrite (bind_get_position _ _ _ _ Hpos).
    unfold alloc_position, s1. by destruct pos.
  - done.
  - unfold Position_set_tuple. by rewrite (bind_get_position _ _ _ _ H1).
  - assert (positions s2 !! n = Some (mkPosition (owner pos) x y z)) as H2.
    { cbn. apply list_lookup_insert_eq. rewrite length_app. cbn. lia. }
    unfold Position_tuple. by rewrite (bind_get_position _ _ _ _ H2).
  - cbn. rewrite list_lookup_insert_ne by lia. by apply lookup_app_l_Some.
Qed.

(** X19.  to_this returns the position it was given exactly when the frame
    owns it; in every other case the position it returns is a new one, so
    assigning to the result cannot reach the argument. *)
Theorem to_this_alias s a p pos q s' :
  positions s !! p = Some pos →
  to_this a p s = (Ret q, s') →
  (owner pos = a → q = p ∧ s' = s) ∧
  (owner pos ≠ a → q = length (positions s) ∧ q ≠ p ∧
                   positions s' !! p = Some pos).
Proof.
  intros Hpos Hrun. pose proof (lookup_lt_Some _ _ _ Hpos) as Hlt. split.
  - intros Ho. revert Hrun. unfold to_this.
    rewrite (bind_get_position _ _ _ _ Hpos). unfold bind at 1, get_frame.
    destruct (frames s !! a); [|done]. rewrite decide_True by done.
    by intros [= -> ->].
  - intros Hne.
    destruct (to_this_positions s a p) as [[Hp Hq] | (pos' & Hp & Ho & Hq)];
      rewrite Hrun in *; cbn in *.
    + destruct (Hq q eq_refl) as (_ & pos0 & Hpos0 & Hown0). congruence.
    + rewrite (Hq q eq_refl). repeat split; [lia|].
      rewrite Hp. by apply lookup_app_l_Some.
Qed.

(** X20.  redefine_tuple with a translation and the rotations left out,
    then the accessors: translation returns the tuple that was passed and
    rotation_zxy_rad returns what it returned before the call. *)
Theorem redefine_tuple_then_translation s a c x y z :
  frames s !! a = Some c →
  ∃ s' r,
    redefine_tuple a (Some x, Some y, Some z) (None, None, None) s = (Ret tt, s') ∧
    translation a s' = (Ret (x, y, z), s') ∧
    rotation_zxy_rad a s = (Ret r, s) ∧
    rotation_zxy_rad a s' = (Ret r, s').
Proof.
  intros Hc.
  set (c' := redefine_cs (Some x) (Some y) (Some z) None None None c).
  assert (<[a:=c']> (frames s) !! a = Some c') as Hc'.
  { apply list_lookup_insert_eq. by eapply lookup_lt_Some. }
  eexists _, _. split; [unfold redefine_tuple; by apply redefine_run|].
  split; [|split].
  - unfold translation. by erewrite bind_get_frame by exact Hc'.
  - unfold rotation_zxy_rad. by erewrite bind_get_frame by exact Hc.
  - unfold rotation_zxy_rad. by erewrite bind_get_frame by exact Hc'.
Qed.

End Properties.

(** * Properties over the real numbers *)

Section RealProperties.
Import RealModel.
#[local] Open Scope R_scope.

Lemma radians_degrees d : radians d = degrees_to_radians d.
Proof. unfold radians, degrees_to_radians. field. Qed.

(** What the calls to euler_matrix, translation_matrix and numpy.dot
    compute, entry by entry. *)
Lemma calc_transformation_matrix_entries (x y z rotx roty rotz : R) :
  calc_transformation_matrix (L:=RealLib) x y z rotx roty rotz =
  pose_matrix x y z (radians rotx) (radians roty) (radians rotz).
Proof.
  unfold calc_transformation_matrix, pose_matrix, affine.
  cbn -[radians].
  generalize (radians rotx) (radians roty) (radians rotz). intros a b g.
  rewrite !sin_neg, !cos_neg.
  repeat (f_equal; try ring).
Qed.

(** C7.  Over the reals, calc_transformation_matrix is the product of the
    translation by (x, y, z) and the rotations about z, x and y, in that
    order, by rotz, rotx and roty degrees turned into radians. *)
Theorem calc_transformation_matrix_real (x y z rotx roty rotz : R) :
  calc_transformation_matrix (L:=RealLib) x y z rotx roty rotz =
  spec_transformation_matrix x y z rotx roty rotz.
Proof.
  rewrite calc_transformation_matrix_entries.
  unfold spec_transformation_matrix, RotationZXY, pose_matrix, affine.
  rewrite !radians_degrees.
  generalize (degrees_to_radians rotx) (degrees_to_radians roty)
    (degrees_to_radians rotz). intros a b g.
  cbn. repeat (f_equal; try ring).
Qed.

(** The matrix of a pose has determinant 1, so numpy.linalg.inv returns. *)
Lemma det_calc_transformation_matrix (x y z rotx roty rotz : R) :
  det 4 (calc_transformation_matrix (L:=RealLib) x y z rotx roty rotz) = 1.
Proof.
  rewrite calc_transformation_matrix_entries. unfold pose_matrix, affine.
  generalize (radians rotx) (radians roty) (radians rotz). intros a b g.
  cbn.
  transitivity ((sin a * sin a + cos a * cos a) *
                (sin b * sin b + cos b * cos b) *
                (sin g * sin g + cos g * cos g)); [ring|].
  pose proof (sin2_cos2 a) as Ha. pose proof (sin2_cos2 b) as Hb.
  pose proof (sin2_cos2 g) as Hg. unfold Rsqr in Ha, Hb, Hg.
  rewrite Ha, Hb, Hg. ring.
Qed.

Lemma inv_calc_transformation_matrix (x y z rotx roty rotz : R) :
  is_Some (inv (calc_transformation_matrix (L:=RealLib) x y z rotx roty rotz)).
Proof.
  unfold inv. rewrite det_calc_transformation_matrix.
  rewrite decide_False by lra. by eexists.
Qed.

(** The matrix of a pose has last row 0 0 0 1, and numpy.linalg.inv of such
    a matrix undoes it on points. *)
Lemma calc_affine (x y z rotx roty rotz : R) :
  ∃ a b c d e f g h i,
    calc_transformation_matrix (L:=RealLib) x y z rotx roty rotz =
    affine a b c d e f g h i x y z.
Proof.
  rewrite calc_transformation_matrix_entries. unfold pose_matrix.
  by do 9 eexists.
Qed.

Lemma inv_affine a b c d e f g h i x y z :
  det 4 (affine a b c d e f g h i x y z) ≠ 0 →
  ∃ mi, inv (affine a b c d e f g h i x y z) = Some mi ∧
        ∀ u v w,
          dot_col (affine a b c d e f g h i x y z)
            (let '(u', v', w', _) := dot_col mi (u, v, w, 1) in (u', v', w', 1))
          = (u, v, w, 1).
Proof.
  intros Hd. unfold inv. rewrite decide_False by exact Hd.
  eexists. split; [reflexivity|]. intros u v w.
  revert Hd. cbn. intros Hd.
  repeat (f_equal;
          try (field; intros HH; apply Hd; etransitivity; [|exact HH]; ring)).
Qed.

(** X21.  The round trip through a child frame, in exact arithmetic: for
    a frame F with parent G in a store built by calls and a position owned
    by G, F.to_this returns a position owned by F, G.to_this of that one
    returns a position owned by G, and its coordinates are those of the
    first. *)
Theorem round_trip_real ops F G cF p pos :
  let s := run (L:=RealLib) ops empty_state in
  frames s !! F = Some cF →
  parent cF = Some G →
  positions s !! p = Some pos →
  owner pos = G →
  let p1 := length (positions s) in
  ∃ s1 s2,
    to_this F p s = (Ret p1, s1) ∧
    to_this G p1 s1 = (Ret (S p1), s2) ∧
    positions s2 !! S p1 =
      Some (mkPosition (L:=RealLib) G (pos_x pos) (pos_y pos) (pos_z pos)).
Proof.
  intros s HF Hpar Hpos Hown p1.
  assert (frames_wf (frames s)) as Hwf.
  { apply (run_frames_wf ops empty_state). intros b c q Hb. done. }
  assert (frame_ok cF) as [Hto Hfrom].
  { eapply Forall_lookup_1; [|exact HF].
    apply (run_frame_ok ops empty_state). constructor. }
  pose proof (Hwf F cF G HF Hpar) as HGF.
  assert (F < length (frames s))%nat as HFlen by (by eapply lookup_lt_Some).
  destruct (lookup_lt_is_Some_2 (frames s) G) as [cG HG]; [lia|].
  unfold calc_of_pose in Hto, Hfrom.
  destruct (calc_affine (_x cF) (_y cF) (_z cF) (_rotx cF) (_roty cF) (_rotz cF))
    as (a & b & c & d & e & f & g & h & i & HM).
  pose proof (det_calc_transformation_matrix
                (_x cF) (_y cF) (_z cF) (_rotx cF) (_roty cF) (_rotz cF)) as Hdet.
  rewrite HM in Hto, Hfrom, Hdet.
  destruct (inv_affine a b c d e f g h i (_x cF) (_y cF) (_z cF))
    as (mi & Hmi & Hrt); [rewrite Hdet; lra|].
  assert (_mat_from_parent cF = None ∨ _mat_from_parent cF = Some mi) as Hfrom'.
  { destruct Hfrom as [Hn | (mi' & Hmi' & Hs)]; [by left | right].
    cbn in Hmi'. rewrite Hmi in Hmi'. by injection Hmi' as <-. }
  subst G.
  set (M := affine a b c d e f g h i (_x cF) (_y cF) (_z cF)) in *.
  set (q1 := filled (L:=RealLib) F
               (dot_col mi (pos_x pos, pos_y pos, pos_z pos, 1))).
  set (s1 := mkState (L:=RealLib)
               (<[F:=set_mat_from_parent (L:=RealLib) (Some mi) cF]> (frames s))
               (positions s ++ [q1]) (route_base s)).
  assert (owner q1 = F) as Hq1.
  { unfold q1. by destruct (dot_col mi _) as [[[u v] w] t]. }
  assert (to_this F p s = (Ret p1, s1)) as H1.
  { apply (to_this_from_parent (L:=RealLib) s F p pos cF M mi); try done.
    - lia.
    - intros own Ho Hp. assert (own = cG) as -> by congruence.
      pose proof (Hwf _ _ _ HG Hp). lia. }
  assert (to_this (owner pos) p1 s1 =
          (Ret (length (positions s1)),
           mkState (frames s1)
             (positions s1 ++
              [filled (L:=RealLib) (owner pos)
                 (dot_col M (pos_x q1, pos_y q1, pos_z q1, 1))])
             (route_base s1))) as H2.
  { apply (to_this_from_child (L:=RealLib) s1 (owner pos) p1 q1 cG
             (set_mat_from_parent (L:=RealLib) (Some mi) cF) M).
    - cbn [s1 positions]. rewrite lookup_app_r by done.
      unfold p1. by rewrite Nat.sub_diag.
    - cbn [s1 frames]. rewrite list_lookup_insert_ne by lia. exact HG.
    - rewrite Hq1. by apply list_lookup_insert_eq.
    - rewrite Hq1. lia.
    - exact Hpar.
    - exact Hto. }
  eexists s1, _. split; [exact H1|]. split.
  { rewrite H2. f_equal. f_equal. cbn [s1 positions].
    rewrite length_app. cbn [length]. unfold p1. lia. }
  cbn [positions s1]. rewrite lookup_app_r by (rewrite length_app; cbn; lia).
  rewrite length_app. cbn [length]. unfold p1.
  replace (S (length (positions s)) - (length (positions s) + 1))%nat with 0%nat
    by lia.
  cbn [lookup list_lookup]. f_equal.
  specialize (Hrt (pos_x pos) (pos_y pos) (pos_z pos)).
  unfold q1. destruct (dot_col mi _) as [[[u v] w] t].
  cbv beta iota in Hrt. cbn [filled pos_x pos_y pos_z].
  etransitivity; [apply (f_equal (filled (L:=RealLib) (owner pos))); exact Hrt|].
  reflexivity.
Qed.

(** C9, counterexample.  "body" has its inverse matrix filled in; after
    backup(), redefine(new_x=2) and rollback() the pose is back but
    mat_from_parent is None, not the matrix the frame had. *)
Lemma rollback_drops_cached_inverse :
  let s := run (L:=RealLib) cached_inverse_calls empty_state in
  let s' := run [Backup 1; Redefine 1 (Some 2) None None None None None;
                 Rollback 1] s in
  ∃ c c', frames s !! 1%nat = Some c ∧ frames s' !! 1%nat = Some c'
          ∧ pose c' = pose c
          ∧ _mat_from_parent c' ≠ _mat_from_parent c.
Proof.
  intros s s'.
  destruct (inv_calc_transformation_matrix 1 0 0 0 0 0) as [mi Hmi].
  set (w := init_cs (L:=RealLib) None "world" 0 0 0 0 0 0).
  set (b := init_cs (L:=RealLib) (Some 0%nat) "body" 1 0 0 0 0 0).
  assert (s = mkState [w; set_mat_from_parent (L:=RealLib) (Some mi) b] [] ∅)
    as Hs.
  { unfold s, cached_inverse_calls. cbn [run foldl exec].
    rewrite (CoordinateSystem_new_run empty_state None) by (intros q [=]).
    cbn [snd].
    rewrite CoordinateSystem_new_run by (intros q [= <-]; cbn; lia). cbn [snd].
    erewrite update_mat_from_parent_run; [|reflexivity|reflexivity|exact Hmi].
    reflexivity. }
  exists (set_mat_from_parent (L:=RealLib) (Some mi) b).
  exists (rollback_cs
            (redefine_cs (L:=RealLib) (Some 2) None None None None None
               (backup_cs (set_mat_from_parent (L:=RealLib) (Some mi) b)))).
  unfold s'. rewrite Hs. repeat split; try reflexivity.
  intros H. discriminate H.
Qed.

(** ** The theorems at concrete stores *)


(** The origin of "body" converted to "body". *)
Lemma to_this_own_position_witness :
  let s := run (L:=RealLib) two_roots_calls empty_state in
  frames s !! 1%nat = Some (init_cs (L:=RealLib) None "body" 0 0 0 0 0 0) ∧
  positions s !! 0%nat = Some (mkPosition (L:=RealLib) 1 0 0 0) ∧
  to_this 1 0 s = (Ret 0%nat, s).
Proof.
  intros s. split; [reflexivity|]. split; [reflexivity|].
  apply (to_this_own_position (L:=RealLib) s 1 0
           (init_cs (L:=RealLib) None "body" 0 0 0 0 0 0) (mkPosition (L:=RealLib) 1 0 0 0));
    reflexivity.
Defined.

(** The origin of "body" converted to "world", a separate root. *)
Lemma to_this_no_route_witness :
  let s := run (L:=RealLib) two_roots_calls empty_state in
  to_root_list (frames s) 1 = Some [1%nat] ∧
  to_root_list (frames s) 0 = Some [0%nat] ∧
  (to_this 0 0 s).1 = Raise TypeError
  ∧ frames (to_this 0 0 s).2 = frames s
  ∧ route_base (to_this 0 0 s).2 = route_base s.
Proof.
  intros s. split; [reflexivity|]. split; [reflexivity|].
  apply (to_this_no_route (L:=RealLib) s 0 0 (mkPosition (L:=RealLib) 1 0 0 0)
           (init_cs (L:=RealLib) None "world" 0 0 0 0 0 0)
           (init_cs (L:=RealLib) None "body" 0 0 0 0 0 0) [1%nat] [0%nat]);
    try reflexivity.
  repeat constructor. intros H. apply list_elem_of_singleton in H. discriminate H.
Defined.

(** backup, redefine(new_x=5), rollback on "body". *)
Lemma backup_redefine_rollback_witness :
  let s := run (L:=RealLib) two_roots_calls empty_state in
  let c := init_cs (L:=RealLib) None "body" 0 0 0 0 0 0 in
  frames s !! 1%nat = Some c ∧
  ∃ c', frames (run [Backup 1;
                     Redefine (L:=RealLib) 1 (Some 5) None None None None None;
                     Rollback 1] s) !! 1%nat = Some c'
        ∧ pose c' = pose c
        ∧ _mat_to_parent c' = _mat_to_parent c
        ∧ _mat_from_parent c' = None
        ∧ stored c' = pose c.
Proof.
  intros s c. split; [reflexivity|].
  exact (proj1 (backup_redefine_rollback (L:=RealLib) two_roots_calls 1 c
                  (Some 5) None None None None None eq_refl)).
Defined.

(** A frame built at (1, 2, 3, 4, 5, 6), redefined and given its inverse
    matrix, then rolled back. *)
Lemma rollback_without_backup_witness :
  let ops := [Redefine (L:=RealLib) 0 (Some 9) None None None None None;
              UpdateMatFromParent 0] in
  let s1 := run (NewCoordinateSystem (L:=RealLib) None "leg" 1 2 3 4 5 6 :: ops)
              empty_state in
  Forall (λ o, o ≠ Backup 0) ops ∧
  (rollback 0 s1).1 = Ret tt ∧
  ∃ c, frames (rollback 0 s1).2 !! 0%nat = Some c ∧
       pose c = (1, 2, 3, 4, 5, 6).
Proof.
  intros ops s1.
  assert (Forall (λ o, o ≠ Backup (L:=RealLib) 0) ops) as Hops.
  { repeat constructor; discriminate. }
  split; [exact Hops|].
  apply (rollback_without_backup (L:=RealLib) empty_state None "leg"
           1 2 3 4 5 6 ops); [intros q [=] | exact Hops].
Defined.

(** The failing input of C1: only d_rotx = 5 is supplied, and the new
    frame keeps rotx = 0. *)
Example get_derivative_drops_d_rotx :
  get_derivative_pose (L:=RealLib) (init_cs (L:=RealLib) None "leg" 0 0 0 0 0 0)
    None None None (Some 5) None None = Ret (0, 0, 0, 0, 0, 0)
  ∧ 0 + 5 ≠ 0.
Proof. split; [reflexivity | lra]. Qed.

(** ** Conversions and distances over the real numbers *)

Lemma dot_col_affine a b c d e f g h i x y z u v w :
  dot_col (affine a b c d e f g h i x y z) (u, v, w, 1) =
  (a * u + b * v + c * w + x, d * u + e * v + f * w + y,
   g * u + h * v + i * w + z, 1).
Proof. cbn. repeat (f_equal; try ring). Qed.

Lemma dot_affine a b c d e f g h i x y z a' b' c' d' e' f' g' h' i' x' y' z' :
  dot (affine a b c d e f g h i x y z)
      (affine a' b' c' d' e' f' g' h' i' x' y' z') =
  affine (a * a' + b * d' + c * g') (a * b' + b * e' + c * h')
         (a * c' + b * f' + c * i')
         (d * a' + e * d' + f * g') (d * b' + e * e' + f * h')
         (d * c' + e * f' + f * i')
         (g * a' + h * d' + i * g') (g * b' + h * e' + i * h')
         (g * c' + h * f' + i * i')
         (a * x' + b * y' + c * z' + x) (d * x' + e * y' + f * z' + y)
         (g * x' + h * y' + i * z' + z).
Proof. unfold affine. cbn. repeat (f_equal; try ring). Qed.

(** The matrix of a pose keeps distances between points. *)
Lemma pose_matrix_isometry x y z a b g u v w u' v' w' :
  ∀ p1 p2 p3 p4 q1 q2 q3 q4,
  dot_col (pose_matrix x y z a b g) (u, v, w, 1) = (p1, p2, p3, p4) →
  dot_col (pose_matrix x y z a b g) (u', v', w', 1) = (q1, q2, q3, q4) →
  (p1 - q1) ^ 2 + (p2 - q2) ^ 2 + (p3 - q3) ^ 2 =
  (u - u') ^ 2 + (v - v') ^ 2 + (w - w') ^ 2.
Proof.
  intros p1 p2 p3 p4 q1 q2 q3 q4. unfold pose_matrix.
  rewrite !dot_col_affine. intros [= <- <- <- <-] [= <- <- <- <-].
  pose proof (sin2_cos2 a) as Ha. pose proof (sin2_cos2 b) as Hb.
  pose proof (sin2_cos2 g) as Hg. unfold Rsqr in Ha, Hb, Hg.
  set (d1 := u - u'). set (d2 := v - v'). set (d3 := w - w').
  set (v1 := cos b * d1 + sin b * d3).
  set (v3 := - sin b * d1 + cos b * d3).
  set (w2 := cos a * d2 - sin a * v3).
  set (w3 := sin a * d2 + cos a * v3).
  transitivity ((sin g * sin g + cos g * cos g) * (v1 * v1 + w2 * w2) + w3 * w3).
  { unfold w2, w3, v1, v3, d1, d2, d3. ring. }
  rewrite Hg.
  transitivity (v1 * v1 + (sin a * sin a + cos a * cos a) * (d2 * d2 + v3 * v3)).
  { unfold w2, w3. ring. }
  rewrite Ha.
  transitivity ((sin b * sin b + cos b * cos b) * (d1 * d1 + d3 * d3) + d2 * d2).
  { unfold v1, v3. ring. }
  rewrite Hb. ring.
Qed.

(** numpy.linalg.inv of a matrix with last row 0 0 0 1 undoes the matrix
    on points, applied after it. *)
Lemma inv_affine_left a b c d e f g h i x y z :
  det 4 (affine a b c d e f g h i x y z) ≠ 0 →
  ∃ mi, inv (affine a b c d e f g h i x y z) = Some mi ∧
        ∀ u v w,
          dot_col mi
            (let '(u', v', w', _) :=
               dot_col (affine a b c d e f g h i x y z) (u, v, w, 1) in
             (u', v', w', 1))
          = (u, v, w, 1).
Proof.
  intros Hd. unfold inv. rewrite decide_False by exact Hd.
  eexists. split; [reflexivity|]. intros u v w.
  revert Hd. cbn. intros Hd.
  repeat (f_equal;
          try (field; intros HH; apply Hd; etransitivity; [|exact HH]; ring)).
Qed.

(** A store built by calls over the reals: parents come first, and every
    frame holds the matrix of its pose. *)
Lemma run_real_wf ops : frames_wf (frames (run (L:=RealLib) ops empty_state)).
Proof. apply (run_frames_wf ops empty_state). intros b c q Hb. done. Qed.

Lemma run_real_frame_ok ops a c :
  frames (run (L:=RealLib) ops empty_state) !! a = Some c → frame_ok c.
Proof.
  intros H. eapply Forall_lookup_1; [|exact H].
  apply (run_frame_ok ops empty_state). constructor.
Qed.

Lemma lookup_snoc {A} (l : list A) (x : A) : (l ++ [x]) !! length l = Some x.
Proof. rewrite lookup_app_r by done. by rewrite Nat.sub_diag. Qed.

Lemma owner_filled_real a arr : owner (filled (L:=RealLib) a arr) = a.
Proof. by destruct arr as [[[u v] w] t]. Qed.

Lemma to_this_own_run (s : state (L:=RealLib)) self position c pos :
  frames s !! self = Some c →
  positions s !! position = Some pos →
  owner pos = self →
  to_this self position s = (Ret position, s).
Proof.
  intros Hc Hp Ho. unfold to_this.
  rewrite (bind_get_position _ _ _ _ Hp), (bind_get_frame _ _ _ _ Hc).
  by rewrite decide_True.
Qed.

(** [ring] on an equation between coordinates. *)
Ltac real_ring := change (@eq (@num RealLib)) with (@eq R); ring.

(** X22.  Over the reals, converting a position from a frame C to the
    parent A of its parent B in one call gives the coordinates that
    converting it to B and the result to A gives. *)
Theorem to_this_stepwise_real ops A B C cA cB cC p pos :
  let s := run (L:=RealLib) ops empty_state in
  frames s !! A = Some cA →
  frames s !! B = Some cB → parent cB = Some A →
  frames s !! C = Some cC → parent cC = Some B →
  positions s !! p = Some pos → owner pos = C →
  route_base s !! route_desc_of (name cC) (name cA) = None →
  let n := length (positions s) in
  ∃ sd s1 s2 q,
    to_this A p s = (Ret n, sd) ∧ positions sd !! n = Some q ∧
    to_this B p s = (Ret n, s1) ∧
    to_this A n s1 = (Ret (S n), s2) ∧ positions s2 !! S n = Some q.
Proof.
  intros s HA HB HpB HC HpC Hpos Hown Hmiss n.
  pose proof (run_real_wf ops) as Hwf. fold s in Hwf.
  destruct (run_real_frame_ok ops _ _ HB) as [HtoB _].
  destruct (run_real_frame_ok ops _ _ HC) as [HtoC _].
  pose proof (Hwf _ _ _ HB HpB) as HltB. pose proof (Hwf _ _ _ HC HpC) as HltC.
  pose proof (to_this_from_grandchild_run (L:=RealLib) s A B C cA cB cC p pos
                Hwf) as Hd.
  specialize (Hd (run_frame_ok ops empty_state (Forall_nil_2 _))).
  specialize (Hd (run_to_root_Some ops A (lookup_lt_Some _ _ _ HA))).
  specialize (Hd HA HB HpB HC HpC Hpos Hown Hmiss).
  subst C.
  set (q1 := filled (L:=RealLib) B
               (dot_col (calc_of_pose cC) (pos_x pos, pos_y pos, pos_z pos, 1))).
  set (s1 := mkState (L:=RealLib) (frames s) (positions s ++ [q1]) (route_base s)).
  assert (owner q1 = B) as Hq1 by apply owner_filled_real.
  assert (to_this B p s = (Ret n, s1)) as H1.
  { apply (to_this_from_child (L:=RealLib) s B p pos cB cC); try done. lia. }
  assert (to_this A n s1 =
          (Ret (length (positions s1)),
           mkState (frames s1)
             (positions s1 ++
              [filled (L:=RealLib) A
                 (dot_col (calc_of_pose cB) (pos_x q1, pos_y q1, pos_z q1, 1))])
             (route_base s1))) as H2.
  { apply (to_this_from_child (L:=RealLib) s1 A n q1 cA cB);
      try done; try (rewrite Hq1; done).
    - apply lookup_snoc.
    - rewrite Hq1. lia. }
  eexists _, s1, _, _. split; [exact Hd|]. split.
  { cbn [positions]. apply lookup_snoc. }
  split; [exact H1|]. split.
  { rewrite H2. f_equal. f_equal. cbn [s1 positions].
    rewrite length_app. cbn [length]. unfold n. lia. }
  cbn [positions s1].
  replace (S n) with (length (positions s ++ [q1]))
    by (rewrite length_app; cbn [length]; unfold n; lia).
  rewrite lookup_snoc. f_equal. unfold q1, calc_of_pose.
  destruct (calc_affine (_x cB) (_y cB) (_z cB) (_rotx cB) (_roty cB) (_rotz cB))
    as (a & b & c & d & e & f & g & h & i & ->).
  destruct (calc_affine (_x cC) (_y cC) (_z cC) (_rotx cC) (_roty cC) (_rotz cC))
    as (a' & b' & c' & d' & e' & f' & g' & h' & i' & ->).
  cbn [numpy_dot numpy_dot_col RealLib num_1].
  rewrite dot_affine, !dot_col_affine. cbn [filled pos_x pos_y pos_z].
  f_equal; real_ring.
Qed.

(** X23.  Over the reals, the origin of a frame converted to the frame's
    parent has the frame's translation as its coordinates. *)
Theorem origin_in_parent_real ops F G cF :
  let s := run (L:=RealLib) ops empty_state in
  frames s !! F = Some cF →
  parent cF = Some G →
  let n := length (positions s) in
  ∃ s1 s2 t,
    origin F s = (Ret n, s1) ∧
    to_this G n s1 = (Ret (S n), s2) ∧
    Position_tuple (S n) s2 = (Ret t, s2) ∧
    translation F s = (Ret t, s).
Proof.
  intros s HF Hpar n.
  pose proof (run_real_wf ops) as Hwf. fold s in Hwf.
  destruct (run_real_frame_ok ops _ _ HF) as [Hto _].
  pose proof (Hwf _ _ _ HF Hpar) as Hlt.
  assert (F < length (frames s))%nat as HFlen by (by eapply lookup_lt_Some).
  destruct (lookup_lt_is_Some_2 (frames s) G) as [cG HG]; [lia|].
  set (o := mkPosition (L:=RealLib) F 0 0 0).
  set (s1 := mkState (L:=RealLib) (frames s) (positions s ++ [o]) (route_base s)).
  assert (origin F s = (Ret n, s1)) as H0.
  { unfold origin. by rewrite (bind_get_frame _ _ _ _ HF). }
  assert (to_this G n s1 =
          (Ret (length (positions s1)),
           mkState (frames s1)
             (positions s1 ++
              [filled (L:=RealLib) G
                 (dot_col (calc_of_pose cF) (pos_x o, pos_y o, pos_z o, 1))])
             (route_base s1))) as H2.
  { apply (to_this_from_child (L:=RealLib) s1 G n o cG cF); try done.
    - apply lookup_snoc.
    - cbn. lia. }
  set (s2 := mkState (L:=RealLib) (frames s1)
               (positions s1 ++
                [filled (L:=RealLib) G
                   (dot_col (calc_of_pose cF) (pos_x o, pos_y o, pos_z o, 1))])
               (route_base s1)) in H2.
  assert (positions s2 !! S n =
          Some (mkPosition (L:=RealLib) G (_x cF) (_y cF) (_z cF))) as Hq.
  { cbn [positions s2 s1].
    replace (S n) with (length (positions s ++ [o]))
      by (rewrite length_app; cbn [length]; unfold n; lia).
    rewrite lookup_snoc. f_equal. unfold calc_of_pose.
    destruct (calc_affine (_x cF) (_y cF) (_z cF) (_rotx cF) (_roty cF) (_rotz cF))
      as (a & b & c & d & e & f & g & h & i & ->).
    cbn [o pos_x pos_y pos_z]. rewrite dot_col_affine. cbn [filled].
    f_equal; real_ring. }
  exists s1, s2, (_x cF, _y cF, _z cF). split; [exact H0|]. split.
  { rewrite H2. f_equal. f_equal. cbn [s1 positions].
    rewrite length_app. cbn [length]. unfold n. lia. }
  split.
  - unfold Position_tuple. by rewrite (bind_get_position _ _ _ _ Hq).
  - unfold translation. by rewrite (bind_get_frame _ _ _ _ HF).
Qed.

(** X24.  The round trip through the parent, over the reals: a position
    owned by a frame F, converted to F's parent G and the result converted
    back to F, comes back as a new position owned by F with the coordinates
    of the first; numpy.linalg.inv never fails on the way. *)
Theorem round_trip_via_parent_real ops F G cF p pos :
  let s := run (L:=RealLib) ops empty_state in
  frames s !! F = Some cF →
  parent cF = Some G →
  positions s !! p = Some pos →
  owner pos = F →
  let p1 := length (positions s) in
  ∃ s1 s2,
    to_this G p s = (Ret p1, s1) ∧
    to_this F p1 s1 = (Ret (S p1), s2) ∧
    positions s2 !! S p1 =
      Some (mkPosition (L:=RealLib) F (pos_x pos) (pos_y pos) (pos_z pos)).
Proof.
  intros s HF Hpar Hpos Hown p1.
  pose proof (run_real_wf ops) as Hwf. fold s in Hwf.
  destruct (run_real_frame_ok ops _ _ HF) as [Hto Hfrom].
  pose proof (Hwf F cF G HF Hpar) as HGF.
  assert (F < length (frames s))%nat as HFlen by (by eapply lookup_lt_Some).
  destruct (lookup_lt_is_Some_2 (frames s) G) as [cG HG]; [lia|].
  unfold calc_of_pose in Hto, Hfrom.
  destruct (calc_affine (_x cF) (_y cF) (_z cF) (_rotx cF) (_roty cF) (_rotz cF))
    as (a & b & c & d & e & f & g & h & i & HM).
  pose proof (det_calc_transformation_matrix
                (_x cF) (_y cF) (_z cF) (_rotx cF) (_roty cF) (_rotz cF)) as Hdet.
  rewrite HM in Hto, Hfrom, Hdet.
  destruct (inv_affine_left a b c d e f g h i (_x cF) (_y cF) (_z cF))
    as (mi & Hmi & Hrt); [rewrite Hdet; lra|].
  assert (_mat_from_parent cF = None ∨ _mat_from_parent cF = Some mi) as Hfrom'.
  { destruct Hfrom as [Hn | (mi' & Hmi' & Hs)]; [by left | right].
    cbn in Hmi'. rewrite Hmi in Hmi'. by injection Hmi' as <-. }
  subst F.
  set (M := affine a b c d e f g h i (_x cF) (_y cF) (_z cF)) in *.
  set (q1 := filled (L:=RealLib) G
               (dot_col M (pos_x pos, pos_y pos, pos_z pos, 1))).
  set (s1 := mkState (L:=RealLib) (frames s) (positions s ++ [q1]) (route_base s)).
  assert (owner q1 = G) as Hq1 by apply owner_filled_real.
  assert (to_this G p s = (Ret p1, s1)) as H1.
  { apply (to_this_from_child (L:=RealLib) s G p pos cG cF M); try done. lia. }
  assert (to_this (owner pos) p1 s1 =
          (Ret (length (positions s1)),
           mkState (<[owner pos:=set_mat_from_parent (L:=RealLib) (Some mi) cF]>
                      (frames s1))
             (positions s1 ++
              [filled (L:=RealLib) (owner pos)
                 (dot_col mi (pos_x q1, pos_y q1, pos_z q1, 1))])
             (route_base s1))) as H2.
  { apply (to_this_from_parent (L:=RealLib) s1 (owner pos) p1 q1 cF M mi);
      try done; try (rewrite Hq1; done).
    - apply lookup_snoc.
    - rewrite Hq1. lia.
    - rewrite Hq1. intros own Ho Hp. cbn [s1 frames] in Ho.
      assert (own = cG) as -> by congruence.
      pose proof (Hwf _ _ _ HG Hp). lia. }
  eexists s1, _. split; [exact H1|]. split.
  { rewrite H2. f_equal. f_equal. cbn [s1 positions].
    rewrite length_app. cbn [length]. unfold p1. lia. }
  cbn [positions s1].
  replace (S p1) with (length (positions s ++ [q1]))
    by (rewrite length_app; cbn [length]; unfold p1; lia).
  rewrite lookup_snoc. f_equal.
  specialize (Hrt (pos_x pos) (pos_y pos) (pos_z pos)).
  unfold q1. destruct (dot_col M _) as [[[u v] w] t].
  cbv beta iota in Hrt. cbn [filled pos_x pos_y pos_z].
  etransitivity; [apply (f_equal (filled (L:=RealLib) (owner pos))); exact Hrt|].
  reflexivity.
Qed.

(** X25.  Over the reals, conversion to the parent keeps distances: for two
    positions p and q owned by a frame F with parent G, the distance from
    G.to_this(p) to q is the distance from p to q.  The first distance_to
    converts q to G on the way; the second returns q itself and leaves the
    store as it is. *)
Theorem distance_preserved_real ops F G cF p q pp pq :
  let s := run (L:=RealLib) ops empty_state in
  frames s !! F = Some cF →
  parent cF = Some G →
  positions s !! p = Some pp → owner pp = F →
  positions s !! q = Some pq → owner pq = F →
  let n := length (positions s) in
  ∃ d s1 s2,
    distance_to p q s = (Ret d, s) ∧
    to_this G p s = (Ret n, s1) ∧
    distance_to n q s1 = (Ret d, s2).
Proof.
  intros s HF Hpar Hp Hop Hq Hoq n.
  pose proof (run_real_wf ops) as Hwf. fold s in Hwf.
  destruct (run_real_frame_ok ops _ _ HF) as [Hto _].
  pose proof (Hwf F cF G HF Hpar) as HGF.
  assert (F < length (frames s))%nat as HFlen by (by eapply lookup_lt_Some).
  destruct (lookup_lt_is_Some_2 (frames s) G) as [cG HG]; [lia|].
  set (M := calc_of_pose cF) in *.
  set (p' := filled (L:=RealLib) G (dot_col M (pos_x pp, pos_y pp, pos_z pp, 1))).
  set (q' := filled (L:=RealLib) G (dot_col M (pos_x pq, pos_y pq, pos_z pq, 1))).
  set (s1 := mkState (L:=RealLib) (frames s) (positions s ++ [p']) (route_base s)).
  set (s2 := mkState (L:=RealLib) (frames s) ((positions s ++ [p']) ++ [q'])
               (route_base s)).
  assert (owner p' = G) as Hp' by apply owner_filled_real.
  assert (to_this G p s = (Ret n, s1)) as H1.
  { apply (to_this_from_child (L:=RealLib) s G p pp cG cF M);
      try done; try (rewrite Hop; done). rewrite Hop. lia. }
  assert (positions s1 !! n = Some p') as Hn by apply lookup_snoc.
  assert (positions s1 !! q = Some pq) as Hq1.
  { cbn [s1 positions]. by apply lookup_app_l_Some. }
  assert (to_this G q s1 = (Ret (S n), s2)) as H2.
  { rewrite (to_this_from_child (L:=RealLib) s1 G q pq cG cF M);
      try done; try (rewrite Hoq; done); [|rewrite Hoq; lia].
    f_equal. f_equal. cbn [s1 positions]. rewrite length_app. cbn [length].
    unfold n. lia. }
  assert (positions s2 !! S n = Some q') as Hq2.
  { cbn [s2 positions].
    replace (S n) with (length (positions s ++ [p']))
      by (rewrite length_app; cbn [length]; unfold n; lia).
    apply lookup_snoc. }
  eexists _, s1, s2. split; [|split; [exact H1|]].
  - unfold distance_to. rewrite (bind_get_position _ _ _ _ Hp).
    rewrite (bind_Ret _ _ s q s)
      by (apply (to_this_own_run s (owner pp) q cF pq); congruence).
    rewrite (bind_get_position _ _ _ _ Hq). reflexivity.
  - unfold distance_to. rewrite (bind_get_position _ _ _ _ Hn).
    rewrite Hp'. rewrite (bind_Ret _ _ s1 (S n) s2 H2).
    rewrite (bind_get_position _ _ _ _ Hq2).
    unfold ret. f_equal. f_equal. f_equal.
    assert (M = pose_matrix (_x cF) (_y cF) (_z cF) (radians (_rotx cF))
                  (radians (_roty cF)) (radians (_rotz cF))) as HM
      by apply calc_transformation_matrix_entries.
    unfold p', q'.
    destruct (dot_col _ (pos_x pp, pos_y pp, pos_z pp, 1))
      as [[[p1 p2] p3] p4] eqn:E1.
    destruct (dot_col _ (pos_x pq, pos_y pq, pos_z pq, 1))
      as [[[q1 q2] q3] q4] eqn:E2.
    rewrite HM in E1, E2. cbn [filled pos_x pos_y pos_z].
    eapply pose_matrix_isometry; [exact E1 | exact E2].
Qed.

(** X26.  distance_to_origin of a position is its distance to the origin of
    the frame that owns it, measured from either end; none of the calls
    changes the store beyond the origin that is allocated. *)
Theorem distance_to_origin_real (s : state (L:=RealLib)) p pos c :
  positions s !! p = Some pos →
  frames s !! owner pos = Some c →
  let n := length (positions s) in
  ∃ d s1,
    distance_to_origin p s = (Ret d, s) ∧
    origin (owner pos) s = (Ret n, s1) ∧
    distance_to p n s1 = (Ret d, s1) ∧
    distance_to n p s1 = (Ret d, s1).
Proof.
  intros Hp Hc n.
  set (o := mkPosition (L:=RealLib) (owner pos) 0 0 0).
  set (s1 := mkState (L:=RealLib) (frames s) (positions s ++ [o]) (route_base s)).
  assert (positions s1 !! n = Some o) as Hn by apply lookup_snoc.
  assert (positions s1 !! p = Some pos) as Hp1.
  { cbn [s1 positions]. by apply lookup_app_l_Some. }
  eexists _, s1. split; [|split; [|split]].
  - unfold distance_to_origin. rewrite (bind_get_position _ _ _ _ Hp).
    reflexivity.
  - unfold origin. by rewrite (bind_get_frame _ _ _ _ Hc).
  - unfold distance_to. rewrite (bind_get_position _ _ _ _ Hp1).
    rewrite (bind_Ret _ _ s1 n s1)
      by (by apply (to_this_own_run s1 (owner pos) n c o)).
    rewrite (bind_get_position _ _ _ _ Hn).
    unfold ret. f_equal. f_equal. f_equal. cbn [o pos_x pos_y pos_z]. real_ring.
  - unfold distance_to. rewrite (bind_get_position _ _ _ _ Hn).
    rewrite (bind_Ret _ _ s1 p s1)
      by (by apply (to_this_own_run s1 (owner pos) p c pos)).
    rewrite (bind_get_position _ _ _ _ Hp1).
    unfold ret. f_equal. f_equal. f_equal. cbn [o pos_x pos_y pos_z]. real_ring.
Qed.

(** numpy.linalg.inv of a matrix with last row 0 0 0 1 is its inverse on
    both sides. *)
Lemma inv_affine_dot a b c d e f g h i x y z :
  det 4 (affine a b c d e f g h i x y z) ≠ 0 →
  ∃ mi, inv (affine a b c d e f g h i x y z) = Some mi ∧
        dot mi (affine a b c d e f g h i x y z) = identity 4 ∧
        dot (affine a b c d e f g h i x y z) mi = identity 4.
Proof.
  intros Hd. unfold inv. rewrite decide_False by exact Hd.
  eexists. split; [reflexivity|].
  revert Hd. cbn. intros Hd.
  split;
    repeat (f_equal;
            try (field; intros HH; apply Hd; etransitivity; [|exact HH]; ring)).
Qed.

(** X27.  Over the reals, update_mat_from_parent on a frame of a store
    built by calls never raises: the matrix of a pose can always be
    inverted.  The frame then holds as mat_from_parent a matrix whose
    products with mat_to_parent, on either side, are the identity; nothing
    else in the store changes. *)
Theorem update_mat_from_parent_real ops a c :
  let s := run (L:=RealLib) ops empty_state in
  frames s !! a = Some c →
  ∃ m mi,
    _mat_to_parent c = Some m ∧
    update_mat_from_parent a s =
      (Ret tt,
       mkState (<[a:=set_mat_from_parent (L:=RealLib) (Some mi) c]> (frames s))
         (positions s) (route_base s)) ∧
    dot mi m = identity 4 ∧ dot m mi = identity 4.
Proof.
  intros s Hc.
  destruct (run_real_frame_ok ops _ _ Hc) as [Hto _].
  unfold calc_of_pose in Hto.
  destruct (calc_affine (_x c) (_y c) (_z c) (_rotx c) (_roty c) (_rotz c))
    as (a' & b & c' & d & e & f & g & h & i & HM).
  pose proof (det_calc_transformation_matrix
                (_x c) (_y c) (_z c) (_rotx c) (_roty c) (_rotz c)) as Hdet.
  rewrite HM in Hto, Hdet.
  destruct (inv_affine_dot a' b c' d e f g h i (_x c) (_y c) (_z c))
    as (mi & Hmi & Hl & Hr); [rewrite Hdet; lra|].
  eexists _, mi. split; [exact Hto|]. split; [|split; [exact Hl|exact Hr]].
  exact (update_mat_from_parent_run (L:=RealLib) s a c _ mi Hc Hto Hmi).
Qed.

(** ** The theorems at a concrete tree of frames *)

Lemma tree_frames :
  frames (run (L:=RealLib) tree_calls empty_state) =
  [init_cs (L:=RealLib) None "world" 0 0 0 0 0 0;
   init_cs (L:=RealLib) (Some 0%nat) "body" 1 0 0 0 0 0;
   init_cs (L:=RealLib) (Some 1%nat) "leg" 0 1 0 0 0 0;
   init_cs (L:=RealLib) (Some 0%nat) "arm" 0 0 1 0 0 0].
Proof. reflexivity. Qed.

Lemma tree_positions :
  positions (run (L:=RealLib) tree_calls empty_state) =
  [mkPosition (L:=RealLib) 2 1 2 3; mkPosition (L:=RealLib) 0 4 5 6;
   mkPosition (L:=RealLib) 1 7 8 9; mkPosition (L:=RealLib) 2 3 2 1].
Proof. reflexivity. Qed.

(** redefine and rollback on "body". *)
Lemma topology_fixed_witness :
  let s := run (L:=RealLib) tree_calls empty_state in
  let c := init_cs (L:=RealLib) (Some 0%nat) "body" 1 0 0 0 0 0 in
  frames s !! 1%nat = Some c ∧
  ∃ c', frames (run [Redefine (L:=RealLib) 1 (Some 2) None None None None None;
                     Rollback 1] s) !! 1%nat = Some c' ∧
        parent c' = parent c ∧ name c' = name c.
Proof.
  intros s c. split; [reflexivity|].
  exact (topology_fixed (L:=RealLib)
           [Redefine (L:=RealLib) 1 (Some 2) None None None None None; Rollback 1]
           s 1 c eq_refl).
Defined.

(** to_root of "leg". *)
Lemma to_root_chain_witness :
  let s := run (L:=RealLib) tree_calls empty_state in
  (2 < length (frames s))%nat ∧
  ∃ l, to_root 2 s = (Ret l, s) ∧ head l = Some 2%nat ∧ is_chain (frames s) l.
Proof.
  intros s.
  assert (2 < length (frames s))%nat as H.
  { unfold s. rewrite tree_frames. cbn [length]. lia. }
  split; [exact H|].
  exact (to_root_chain (L:=RealLib) tree_calls 2 H).
Defined.

(** The chains of "leg" and "arm". *)
Lemma build_route_shape_witness :
  let l1 := [2; 1; 0]%nat in
  let l2 := [3; 0]%nat in
  let r := [(2, up); (1, up); (0, root); (3, down)]%nat in
  build_route l1 l2 [] = Some r ∧
  ∃ i j pivot,
    l1 !! i = Some pivot ∧ l2 !! j = Some pivot ∧
    closest_common_node_list l1 l2 = Some pivot ∧
    r = ups (take i l1) ++ [(pivot, root)] ++ downs (reverse (take j l2)).
Proof.
  intros l1 l2 r. split; [reflexivity|].
  exact (build_route_shape l1 l2 r eq_refl).
Defined.


(** The position of "leg" converted to "body". *)
Lemma to_this_result_owner_witness :
  let s := run (L:=RealLib) tree_calls empty_state in
  let leg := init_cs (L:=RealLib) (Some 1%nat) "leg" 0 1 0 0 0 0 in
  let s' := mkState (L:=RealLib) (frames s)
              (positions s ++
               [filled (L:=RealLib) 1 (numpy_dot_col (calc_of_pose leg) (1, 2, 3, 1))])
              (route_base s) in
  to_this 1 0 s = (Ret 4%nat, s') ∧
  ∃ pos', positions s' !! 4%nat = Some pos' ∧ owner pos' = 1%nat.
Proof.
  intros s leg s'.
  assert (to_this 1 0 s = (Ret 4%nat, s')) as H.
  { assert (2%nat ≠ 1%nat) as Hne by discriminate.
    exact (to_this_from_child (L:=RealLib) s 1 0 (mkPosition (L:=RealLib) 2 1 2 3)
             (init_cs (L:=RealLib) (Some 0%nat) "body" 1 0 0 0 0 0) leg
             (calc_of_pose leg) eq_refl eq_refl eq_refl Hne eq_refl eq_refl). }
  split; [exact H|].
  exact (to_this_result_owner (L:=RealLib) s 1 0 4 s' H).
Defined.

(** get_derivative(name, d_x=1) on "body". *)
Lemma get_derivative_outcome_witness :
  let s := run (L:=RealLib) tree_calls empty_state in
  let c := init_cs (L:=RealLib) (Some 0%nat) "body" 1 0 0 0 0 0 in
  frames s !! 1%nat = Some c ∧
  get_derivative 1 "hip" (Some 1) None None None None None s =
    (Ret (length (frames s)),
     mkState (frames s ++
              [init_cs (parent c) "hip" (num_add (_x c) 1) (_y c) (_z c)
                 (_rotx c) (_roty c) (_rotz c)])
       (positions s) (route_base s)).
Proof.
  intros s c. split; [reflexivity|].
  exact (get_derivative_outcome (L:=RealLib) tree_calls 1 c "hip"
           (Some 1) None None None None None eq_refl).
Defined.

(** backup, redefine(new_x=5) and rollback on "body". *)
Lemma rollback_restores_last_backup_witness :
  let s := run (L:=RealLib) tree_calls empty_state in
  let c := init_cs (L:=RealLib) (Some 0%nat) "body" 1 0 0 0 0 0 in
  let ops := [Redefine (L:=RealLib) 1 (Some 5) None None None None None] in
  let s1 := run (Backup 1 :: ops) s in
  frames s !! 1%nat = Some c ∧
  Forall (λ o, o ≠ Backup 1) ops ∧
  (rollback 1 s1).1 = Ret tt ∧
  ∃ c', frames (rollback 1 s1).2 !! 1%nat = Some c' ∧
        pose c' = pose c ∧
        _mat_to_parent c' = Some (calc_of_pose c) ∧
        _mat_from_parent c' = None.
Proof.
  intros s c ops s1.
  assert (Forall (λ o, o ≠ Backup (L:=RealLib) 1) ops) as Hops.
  { repeat constructor; discriminate. }
  split; [reflexivity|]. split; [exact Hops|].
  exact (rollback_restores_last_backup (L:=RealLib) s 1 c ops eq_refl Hops).
Defined.

(** The position of "leg" converted to "body". *)
Lemma to_this_to_parent_witness :
  let s := run (L:=RealLib) tree_calls empty_state in
  let cF := init_cs (L:=RealLib) (Some 1%nat) "leg" 0 1 0 0 0 0 in
  let pos := mkPosition (L:=RealLib) 2 1 2 3 in
  frames s !! 2%nat = Some cF ∧ parent cF = Some 1%nat ∧
  positions s !! 0%nat = Some pos ∧ owner pos = 2%nat ∧
  to_this 1 0 s =
    (Ret (length (positions s)),
     mkState (frames s)
       (positions s ++
        [filled 1 (numpy_dot_col (calc_of_pose cF)
                     (pos_x pos, pos_y pos, pos_z pos, num_1))])
       (route_base s)).
Proof.
  intros s cF pos. do 4 (split; [reflexivity|]).
  exact (to_this_to_parent (L:=RealLib) tree_calls 2 1 cF 0 pos
           eq_refl eq_refl eq_refl eq_refl).
Defined.

(** The position of "world" converted to "body". *)
Lemma to_this_from_parent_frame_witness :
  let s := run (L:=RealLib) tree_calls empty_state in
  let cF := init_cs (L:=RealLib) (Some 0%nat) "body" 1 0 0 0 0 0 in
  let pos := mkPosition (L:=RealLib) 0 4 5 6 in
  frames s !! 1%nat = Some cF ∧ parent cF = Some 0%nat ∧
  positions s !! 1%nat = Some pos ∧ owner pos = 0%nat ∧
  match numpy_linalg_inv (calc_of_pose cF) with
  | Some mi =>
      to_this 1 1 s =
        (Ret (length (positions s)),
         mkState (<[1%nat:=set_mat_from_parent (Some mi) cF]> (frames s))
           (positions s ++
            [filled 1 (numpy_dot_col mi
                         (pos_x pos, pos_y pos, pos_z pos, num_1))])
           (route_base s))
  | None =>
      (to_this 1 1 s).1 = Raise LinAlgError ∧
      frames (to_this 1 1 s).2 = frames s
  end.
Proof.
  intros s cF pos. do 4 (split; [reflexivity|]).
  exact (to_this_from_parent_frame (L:=RealLib) tree_calls 1 0 cF 1 pos
           eq_refl eq_refl eq_refl eq_refl).
Defined.

(** The position of "leg" converted to "world" along the path route()
    returns. *)
Lemma to_this_along_route_witness :
  let s := run (L:=RealLib) tree_calls empty_state in
  let me := init_cs (L:=RealLib) None "world" 0 0 0 0 0 0 in
  let body := init_cs (L:=RealLib) (Some 0%nat) "body" 1 0 0 0 0 0 in
  let own := init_cs (L:=RealLib) (Some 1%nat) "leg" 0 1 0 0 0 0 in
  let pos := mkPosition (L:=RealLib) 2 1 2 3 in
  let r := [(2, up); (1, up); (0, root)]%nat in
  let s1 := mkState (L:=RealLib) (frames s) (positions s)
              (<[route_desc_of "leg" "world":=r]> (route_base s)) in
  let ms := [calc_of_pose own; calc_of_pose body] in
  let m := numpy_dot (calc_of_pose body) (calc_of_pose own) in
  positions s !! 0%nat = Some pos ∧
  frames s !! 0%nat = Some me ∧
  frames s !! owner pos = Some own ∧
  owner pos ≠ 0%nat ∧
  parent own ≠ Some 0%nat ∧
  parent me ≠ Some (owner pos) ∧
  route (owner pos) 0 s = (Ret (Some r), s1) ∧
  route_matrices (frames s) r = Some ms ∧
  compose_matrices ms = Some m ∧
  to_this 0 0 s =
    (Ret (length (positions s)),
     mkState (cache_inverses (frames s) r)
       (positions s ++
        [filled 0 (numpy_dot_col m (pos_x pos, pos_y pos, pos_z pos, num_1))])
       (route_base s1)).
Proof.
  intros s me body own pos r s1 ms m.
  assert (owner pos ≠ 0%nat) as H1 by discriminate.
  assert (parent own ≠ Some 0%nat) as H2 by discriminate.
  assert (parent me ≠ Some (owner pos)) as H3 by discriminate.
  assert (route (owner pos) 0 s = (Ret (Some r), s1)) as Hr.
  { exact (route_miss (L:=RealLib) s 2 0 own me r
             eq_refl eq_refl eq_refl eq_refl). }
  do 3 (split; [reflexivity|]).
  split; [exact H1|]. split; [exact H2|]. split; [exact H3|].
  split; [exact Hr|]. do 2 (split; [reflexivity|]).
  exact (to_this_along_route (L:=RealLib) tree_calls 0 0 pos me own r s1 ms m
           eq_refl eq_refl eq_refl H1 H2 H3 Hr eq_refl eq_refl).
Defined.

(** The position of "leg" converted to "world" for the first time. *)
Lemma to_this_from_grandchild_witness :
  let s := run (L:=RealLib) tree_calls empty_state in
  let cA := init_cs (L:=RealLib) None "world" 0 0 0 0 0 0 in
  let cB := init_cs (L:=RealLib) (Some 0%nat) "body" 1 0 0 0 0 0 in
  let cC := init_cs (L:=RealLib) (Some 1%nat) "leg" 0 1 0 0 0 0 in
  let pos := mkPosition (L:=RealLib) 2 1 2 3 in
  frames s !! 0%nat = Some cA ∧
  frames s !! 1%nat = Some cB ∧ parent cB = Some 0%nat ∧
  frames s !! 2%nat = Some cC ∧ parent cC = Some 1%nat ∧
  positions s !! 0%nat = Some pos ∧ owner pos = 2%nat ∧
  route_base s !! route_desc_of (name cC) (name cA) = None ∧
  to_this 0 0 s =
    (Ret (length (positions s)),
     mkState (frames s)
       (positions s ++
        [filled 0 (numpy_dot_col (numpy_dot (calc_of_pose cB) (calc_of_pose cC))
                     (pos_x pos, pos_y pos, pos_z pos, num_1))])
       (<[route_desc_of (name cC) (name cA):=[(2, up); (1, up); (0, root)]%nat]>
          (route_base s))).
Proof.
  intros s cA cB cC pos. do 8 (split; [reflexivity|]).
  exact (to_this_from_grandchild (L:=RealLib) tree_calls 0 1 2 cA cB cC 0 pos
           eq_refl eq_refl eq_refl eq_refl eq_refl eq_refl eq_refl eq_refl).
Defined.

(** The position of "body" converted to its sibling "arm" for the first
    time. *)
Lemma to_this_between_siblings_witness :
  let s := run (L:=RealLib) tree_calls empty_state in
  let cR := init_cs (L:=RealLib) None "world" 0 0 0 0 0 0 in
  let c1 := init_cs (L:=RealLib) (Some 0%nat) "body" 1 0 0 0 0 0 in
  let c2 := init_cs (L:=RealLib) (Some 0%nat) "arm" 0 0 1 0 0 0 in
  let pos := mkPosition (L:=RealLib) 1 7 8 9 in
  ∃ mi,
  frames s !! 0%nat = Some cR ∧
  frames s !! 1%nat = Some c1 ∧ parent c1 = Some 0%nat ∧
  frames s !! 3%nat = Some c2 ∧ parent c2 = Some 0%nat ∧
  1%nat ≠ 3%nat ∧
  positions s !! 2%nat = Some pos ∧ owner pos = 1%nat ∧
  route_base s !! route_desc_of (name c1) (name c2) = None ∧
  numpy_linalg_inv (calc_of_pose c2) = Some mi ∧
  to_this 3 2 s =
    (Ret (length (positions s)),
     mkState (<[3%nat:=set_mat_from_parent (Some mi) c2]> (frames s))
       (positions s ++
        [filled 3 (numpy_dot_col (numpy_dot mi (calc_of_pose c1))
                      (pos_x pos, pos_y pos, pos_z pos, num_1))])
       (<[route_desc_of (name c1) (name c2):=[(1, up); (0, root); (3, down)]%nat]>
          (route_base s))).
Proof.
  intros s cR c1 c2 pos.
  destruct (inv_calc_transformation_matrix 0 0 1 0 0 0) as [mi Hmi].
  assert (1%nat ≠ 3%nat) as Hne by discriminate.
  exists mi. do 5 (split; [reflexivity|]). split; [exact Hne|].
  do 3 (split; [reflexivity|]). split; [exact Hmi|].
  exact (to_this_between_siblings (L:=RealLib) tree_calls 0 1 3 cR c1 c2 2 pos mi
           eq_refl eq_refl eq_refl eq_refl eq_refl Hne eq_refl eq_refl eq_refl Hmi).
Defined.

(** The first position of "leg", cloned; the copy is then set to
    (0, 0, 0). *)
Lemma clone_is_independent_witness :
  let s := run (L:=RealLib) tree_calls empty_state in
  let pos := mkPosition (L:=RealLib) 2 1 2 3 in
  positions s !! 0%nat = Some pos ∧
  ∃ s1 s2,
    Position_clone 0 s = (Ret (length (positions s)), s1) ∧
    positions s1 !! length (positions s) = Some pos ∧
    Position_set_tuple (length (positions s)) (0, 0, 0) s1 = (Ret tt, s2) ∧
    Position_tuple (length (positions s)) s2 = (Ret (0, 0, 0), s2) ∧
    positions s2 !! 0%nat = Some pos.
Proof.
  intros s pos. split; [reflexivity|].
  exact (clone_is_independent (L:=RealLib) s 0 pos (0, 0, 0) eq_refl).
Defined.

(** The position of "leg" converted to "body" is a new position. *)
Lemma to_this_alias_witness :
  let s := run (L:=RealLib) tree_calls empty_state in
  let leg := init_cs (L:=RealLib) (Some 1%nat) "leg" 0 1 0 0 0 0 in
  let pos := mkPosition (L:=RealLib) 2 1 2 3 in
  let s' := mkState (L:=RealLib) (frames s)
              (positions s ++
               [filled (L:=RealLib) 1 (numpy_dot_col (calc_of_pose leg) (1, 2, 3, 1))])
              (route_base s) in
  positions s !! 0%nat = Some pos ∧
  to_this 1 0 s = (Ret 4%nat, s') ∧
  (owner pos = 1%nat → 4%nat = 0%nat ∧ s' = s) ∧
  (owner pos ≠ 1%nat → 4%nat = length (positions s) ∧ 4%nat ≠ 0%nat ∧
                       positions s' !! 0%nat = Some pos).
Proof.
  intros s leg pos s'.
  assert (to_this 1 0 s = (Ret 4%nat, s')) as H.
  { assert (2%nat ≠ 1%nat) as Hne by discriminate.
    exact (to_this_from_child (L:=RealLib) s 1 0 pos
             (init_cs (L:=RealLib) (Some 0%nat) "body" 1 0 0 0 0 0) leg
             (calc_of_pose leg) eq_refl eq_refl eq_refl Hne eq_refl eq_refl). }
  split; [reflexivity|]. split; [exact H|].
  exact (to_this_alias (L:=RealLib) s 1 0 pos 4 s' eq_refl H).
Defined.

(** The position of "leg" converted to "world", directly and through
    "body". *)
Lemma to_this_stepwise_real_witness :
  let s := run (L:=RealLib) tree_calls empty_state in
  let cA := init_cs (L:=RealLib) None "world" 0 0 0 0 0 0 in
  let cB := init_cs (L:=RealLib) (Some 0%nat) "body" 1 0 0 0 0 0 in
  let cC := init_cs (L:=RealLib) (Some 1%nat) "leg" 0 1 0 0 0 0 in
  let pos := mkPosition (L:=RealLib) 2 1 2 3 in
  frames s !! 0%nat = Some cA ∧
  frames s !! 1%nat = Some cB ∧ parent cB = Some 0%nat ∧
  frames s !! 2%nat = Some cC ∧ parent cC = Some 1%nat ∧
  positions s !! 0%nat = Some pos ∧ owner pos = 2%nat ∧
  route_base s !! route_desc_of (name cC) (name cA) = None ∧
  let n := length (positions s) in
  ∃ sd s1 s2 q,
    to_this 0 0 s = (Ret n, sd) ∧ positions sd !! n = Some q ∧
    to_this 1 0 s = (Ret n, s1) ∧
    to_this 0 n s1 = (Ret (S n), s2) ∧ positions s2 !! S n = Some q.
Proof.
  intros s cA cB cC pos. do 8 (split; [reflexivity|]).
  exact (to_this_stepwise_real tree_calls 0 1 2 cA cB cC 0 pos
           eq_refl eq_refl eq_refl eq_refl eq_refl eq_refl eq_refl eq_refl).
Defined.

(** The origin of "leg" converted to "body". *)
Lemma origin_in_parent_real_witness :
  let s := run (L:=RealLib) tree_calls empty_state in
  let cF := init_cs (L:=RealLib) (Some 1%nat) "leg" 0 1 0 0 0 0 in
  frames s !! 2%nat = Some cF ∧ parent cF = Some 1%nat ∧
  let n := length (positions s) in
  ∃ s1 s2 t,
    origin 2 s = (Ret n, s1) ∧
    to_this 1 n s1 = (Ret (S n), s2) ∧
    Position_tuple (S n) s2 = (Ret t, s2) ∧
    translation 2 s = (Ret t, s).
Proof.
  intros s cF. do 2 (split; [reflexivity|]).
  exact (origin_in_parent_real tree_calls 2 1 cF eq_refl eq_refl).
Defined.

(** The first position of "leg" converted to "body" and back. *)
Lemma round_trip_via_parent_real_witness :
  let s := run (L:=RealLib) tree_calls empty_state in
  let cF := init_cs (L:=RealLib) (Some 1%nat) "leg" 0 1 0 0 0 0 in
  let pos := mkPosition (L:=RealLib) 2 1 2 3 in
  frames s !! 2%nat = Some cF ∧ parent cF = Some 1%nat ∧
  positions s !! 0%nat = Some pos ∧ owner pos = 2%nat ∧
  let p1 := length (positions s) in
  ∃ s1 s2,
    to_this 1 0 s = (Ret p1, s1) ∧
    to_this 2 p1 s1 = (Ret (S p1), s2) ∧
    positions s2 !! S p1 =
      Some (mkPosition (L:=RealLib) 2 (pos_x pos) (pos_y pos) (pos_z pos)).
Proof.
  intros s cF pos. do 4 (split; [reflexivity|]).
  exact (round_trip_via_parent_real tree_calls 2 1 cF 0 pos
           eq_refl eq_refl eq_refl eq_refl).
Defined.

(** The position of "world" converted to "body" and back. *)
Lemma round_trip_real_witness :
  let s := run (L:=RealLib) tree_calls empty_state in
  let cF := init_cs (L:=RealLib) (Some 0%nat) "body" 1 0 0 0 0 0 in
  let pos := mkPosition (L:=RealLib) 0 4 5 6 in
  frames s !! 1%nat = Some cF ∧ parent cF = Some 0%nat ∧
  positions s !! 1%nat = Some pos ∧ owner pos = 0%nat ∧
  let p1 := length (positions s) in
  ∃ s1 s2,
    to_this 1 1 s = (Ret p1, s1) ∧
    to_this 0 p1 s1 = (Ret (S p1), s2) ∧
    positions s2 !! S p1 =
      Some (mkPosition (L:=RealLib) 0 (pos_x pos) (pos_y pos) (pos_z pos)).
Proof.
  intros s cF pos. do 4 (split; [reflexivity|]).
  exact (round_trip_real tree_calls 1 0 cF 1 pos
           eq_refl eq_refl eq_refl eq_refl).
Defined.

(** The two positions of "leg", and the first one converted to "body". *)
Lemma distance_preserved_real_witness :
  let s := run (L:=RealLib) tree_calls empty_state in
  let cF := init_cs (L:=RealLib) (Some 1%nat) "leg" 0 1 0 0 0 0 in
  let pp := mkPosition (L:=RealLib) 2 1 2 3 in
  let pq := mkPosition (L:=RealLib) 2 3 2 1 in
  frames s !! 2%nat = Some cF ∧ parent cF = Some 1%nat ∧
  positions s !! 0%nat = Some pp ∧ owner pp = 2%nat ∧
  positions s !! 3%nat = Some pq ∧ owner pq = 2%nat ∧
  let n := length (positions s) in
  ∃ d s1 s2,
    distance_to 0 3 s = (Ret d, s) ∧
    to_this 1 0 s = (Ret n, s1) ∧
    distance_to n 3 s1 = (Ret d, s2).
Proof.
  intros s cF pp pq. do 6 (split; [reflexivity|]).
  exact (distance_preserved_real tree_calls 2 1 cF 0 3 pp pq
           eq_refl eq_refl eq_refl eq_refl eq_refl eq_refl).
Defined.

(** The first position of "leg" and the origin of "leg". *)
Lemma distance_to_origin_real_witness :
  let s := run (L:=RealLib) tree_calls empty_state in
  let c := init_cs (L:=RealLib) (Some 1%nat) "leg" 0 1 0 0 0 0 in
  let pos := mkPosition (L:=RealLib) 2 1 2 3 in
  positions s !! 0%nat = Some pos ∧
  frames s !! owner pos = Some c ∧
  let n := length (positions s) in
  ∃ d s1,
    distance_to_origin 0 s = (Ret d, s) ∧
    origin (owner pos) s = (Ret n, s1) ∧
    distance_to 0 n s1 = (Ret d, s1) ∧
    distance_to n 0 s1 = (Ret d, s1).
Proof.
  intros s c pos. do 2 (split; [reflexivity|]).
  exact (distance_to_origin_real s 0 pos c eq_refl eq_refl).
Defined.

(** redefine_tuple((1, 2, 3)) on "body". *)
Lemma redefine_tuple_then_translation_witness :
  let s := run (L:=RealLib) tree_calls empty_state in
  let c := init_cs (L:=RealLib) (Some 0%nat) "body" 1 0 0 0 0 0 in
  frames s !! 1%nat = Some c ∧
  ∃ s' r,
    redefine_tuple 1 (Some 1, Some 2, Some 3) (None, None, None) s = (Ret tt, s') ∧
    translation 1 s' = (Ret (1, 2, 3), s') ∧
    rotation_zxy_rad 1 s = (Ret r, s) ∧
    rotation_zxy_rad 1 s' = (Ret r, s').
Proof.
  intros s c. split; [reflexivity|].
  exact (redefine_tuple_then_translation (L:=RealLib) s 1 c 1 2 3 eq_refl).
Defined.

(** update_mat_from_parent on "leg". *)
Lemma update_mat_from_parent_real_witness :
  let s := run (L:=RealLib) tree_calls empty_state in
  let c := init_cs (L:=RealLib) (Some 1%nat) "leg" 0 1 0 0 0 0 in
  frames s !! 2%nat = Some c ∧
  ∃ m mi,
    _mat_to_parent c = Some m ∧
    update_mat_from_parent 2 s =
      (Ret tt,
       mkState (<[2%nat:=set_mat_from_parent (L:=RealLib) (Some mi) c]> (frames s))
         (positions s) (route_base s)) ∧
    dot mi m = identity 4 ∧ dot m mi = identity 4.
Proof.
  intros s c. split; [reflexivity|].
  exact (update_mat_from_parent_real tree_calls 2 c eq_refl).
Defined.

End RealProperties.
